(** * fofou: the log-structured forum store (store.go)

    A shallow embedding of [store.go]: the record codec, the replayer
    ([parseTopics]), the in-memory index with Go's slice and pointer
    semantics written out, and the mutation and query API.

    Go values are modelled as follows.
    - [int] is a 64-bit integer, a [Z] with the wrap-around written out
      where the code does arithmetic on values it does not control.
    - [string] and [[]byte] are sequences of bytes: [string].
    - a slice is a header (backing array, length, capacity); backing arrays
      live in an explicit memory, so that two headers can share an array and
      [append] can relocate it.
    - a pointer [*Post] or [*Topic] is the address of a cell of a backing
      array (array number, index).
    - a panic is a result of its own, next to a normal return. *)

From Stdlib Require Import ZArith Ascii String DecimalString DecimalPos.
From stdpp Require Import base list gmap strings.

Open Scope Z_scope.

(** ** Go integers *)

Definition minInt : Z := - 2 ^ 63.
Definition maxInt : Z := 2 ^ 63 - 1.
Definition maxUint64 : Z := 2 ^ 64 - 1.

(** Two's complement wrap-around of 64-bit [int] arithmetic. *)
Definition wrap64 (z : Z) : Z := (z + 2 ^ 63) mod 2 ^ 64 - 2 ^ 63.

(** [len(s)] as an [int]. *)
Definition len {A} (l : list A) : Z := Z.of_nat (length l).
Definition slen (s : string) : Z := Z.of_nat (String.length s).

(** ** Bytes and strings *)

Definition byte_val (c : ascii) : Z := Z.of_N (N_of_ascii c).

(** The conversion [byte(num)] of an [int]: the low eight bits. *)
Definition byte_of_int (z : Z) : ascii := ascii_of_N (Z.to_N (z mod 256)).

Fixpoint string_of_list (l : list ascii) : string :=
  match l with
  | [] => EmptyString
  | c :: l' => String c (string_of_list l')
  end.

Fixpoint list_of_string (s : string) : list ascii :=
  match s with
  | EmptyString => []
  | String c s' => c :: list_of_string s'
  end.

(** [s[i:]] and [s[:i]] for an index already known to be in range. *)
Fixpoint str_drop (n : nat) (s : string) : string :=
  match n, s with
  | O, _ => s
  | S n', String _ s' => str_drop n' s'
  | S _, EmptyString => EmptyString
  end.

Fixpoint str_take (n : nat) (s : string) : string :=
  match n, s with
  | O, _ => EmptyString
  | S n', String c s' => String c (str_take n' s')
  | S _, EmptyString => EmptyString
  end.

(** [strings.HasPrefix]. *)
Definition HasPrefix (s p : string) : bool := String.prefix p s.

(** [bytes.IndexByte(d, c)]: the index of the first [c], or -1. *)
Fixpoint IndexByte (d : string) (c : ascii) : Z :=
  match d with
  | EmptyString => -1
  | String x d' =>
      if Ascii.eqb x c then 0
      else let i := IndexByte d' c in if i <? 0 then -1 else i + 1
  end.

(** [strings.Split(s, sep)] for a one-byte separator: n separators give
    n+1 parts, and the empty string gives one empty part. *)
Fixpoint Split (s : string) (sep : ascii) : list string :=
  match s with
  | EmptyString => [EmptyString]
  | String c s' =>
      if Ascii.eqb c sep then EmptyString :: Split s' sep
      else match Split s' sep with
           | p :: ps => String c p :: ps
           | [] => [String c EmptyString]
           end
  end.

(** [strings.Replace(s, old, "", -1)] for a one-byte [old]. *)
Fixpoint remove_byte (c : ascii) (s : string) : string :=
  match s with
  | EmptyString => EmptyString
  | String x s' =>
      if Ascii.eqb x c then remove_byte c s' else String x (remove_byte c s')
  end.

(** ** Errors *)

(** Go [error] values: those made by [errors.New] in the store, those of
    [strconv], and those handed back by the operating system. *)
Inductive error : Type :=
  | errors_New (msg : string)
  | ErrSyntax
  | ErrRange
  | os_error (msg : string).

Definition error_Error (e : error) : string :=
  match e with
  | errors_New m => m
  | ErrSyntax => "invalid syntax"
  | ErrRange => "value out of range"
  | os_error m => m
  end.

(** ** strconv and fmt *)

Definition digit_val (c : ascii) : option Z :=
  let n := byte_val c in
  if (48 <=? n) && (n <=? 57) then Some (n - 48) else None.

(** The digit loop of [strconv.ParseUint(s, 10, 64)]: a byte that is not a
    digit is a syntax error; an overflow is reported as soon as it happens,
    with the largest value. *)
Fixpoint ParseUint_loop (s : string) (n : Z) : Z * option error :=
  match s with
  | EmptyString => (n, None)
  | String c s' =>
      match digit_val c with
      | None => (0, Some ErrSyntax)
      | Some d =>
          if maxUint64 / 10 + 1 <=? n then (maxUint64, Some ErrRange)
          else
            let n1 := n * 10 + d in
            if maxUint64 <? n1 then (maxUint64, Some ErrRange)
            else ParseUint_loop s' n1
      end
  end.

(** [strconv.Atoi]: an optional sign and decimal digits; on a range error
    the value is clamped and returned with the error. *)
Definition Atoi (s : string) : Z * option error :=
  match s with
  | EmptyString => (0, Some ErrSyntax)
  | String c rest =>
      let neg := Ascii.eqb c "-" in
      let body := if Ascii.eqb c "+" || Ascii.eqb c "-" then rest else s in
      match body with
      | EmptyString => (0, Some ErrSyntax)
      | _ =>
          match ParseUint_loop body 0 with
          | (_, Some ErrSyntax) => (0, Some ErrSyntax)
          | (un, e) =>
              if negb neg && (2 ^ 63 <=? un) then (maxInt, Some ErrRange)
              else if neg && (2 ^ 63 <? un) then (minInt, Some ErrRange)
              else match e with
                   | Some err => (if neg then - un else un, Some err)
                   | None => (if neg then - un else un, None)
                   end
          end
      end
  end.

(** The verb [%d] of [fmt]. *)
Definition itoa (z : Z) : string := NilZero.string_of_int (Z.to_int z).

(** ** encoding/hex *)

Definition hexdigit (n : Z) : ascii :=
  match String.get (Z.to_nat n) "0123456789abcdef" with
  | Some c => c
  | None => "0"%char
  end.

Fixpoint hex_EncodeToString (bs : string) : string :=
  match bs with
  | EmptyString => EmptyString
  | String b bs' =>
      String (hexdigit (byte_val b / 16))
        (String (hexdigit (byte_val b mod 16)) (hex_EncodeToString bs'))
  end.

Definition fromHexChar (c : ascii) : option Z :=
  let n := byte_val c in
  if (48 <=? n) && (n <=? 57) then Some (n - 48)
  else if (97 <=? n) && (n <=? 102) then Some (n - 97 + 10)
  else if (65 <=? n) && (n <=? 70) then Some (n - 65 + 10)
  else None.

(** [hex.DecodeString]: [Some] bytes when the error is nil, that is for an
    even number of hexadecimal digits of either case. *)
Fixpoint hex_DecodeString (s : string) : option string :=
  match s with
  | EmptyString => Some EmptyString
  | String p (String q s') =>
      match fromHexChar p, fromHexChar q with
      | Some a, Some b =>
          match hex_DecodeString s' with
          | Some r => Some (String (byte_of_int (a * 16 + b)) r)
          | None => None
          end
      | _, _ => None
      end
  | String _ EmptyString => None
  end.

(** ** encoding/base64, the standard encoding with padding *)

Definition b64alphabet : string :=
  "ABCDEFGHIJKLMNOPQRSTUVWXYZabcdefghijklmnopqrstuvwxyz0123456789+/".

Definition b64char (n : Z) : ascii :=
  match String.get (Z.to_nat n) b64alphabet with
  | Some c => c
  | None => "A"%char
  end.

Fixpoint base64_EncodeToString (bs : string) : string :=
  match bs with
  | EmptyString => EmptyString
  | String a EmptyString =>
      let x := byte_val a in
      String (b64char (x / 4)) (String (b64char (x mod 4 * 16)) "==")
  | String a (String b EmptyString) =>
      let x := byte_val a in
      let y := byte_val b in
      String (b64char (x / 4))
        (String (b64char (x mod 4 * 16 + y / 16))
           (String (b64char (y mod 16 * 4)) "="))
  | String a (String b (String c bs')) =>
      let x := byte_val a in
      let y := byte_val b in
      let z := byte_val c in
      String (b64char (x / 4))
        (String (b64char (x mod 4 * 16 + y / 16))
           (String (b64char (y mod 16 * 4 + z / 64))
              (String (b64char (z mod 64)) (base64_EncodeToString bs'))))
  end.

Definition b64val (c : ascii) : option Z :=
  let n := byte_val c in
  if (65 <=? n) && (n <=? 90) then Some (n - 65)
  else if (97 <=? n) && (n <=? 122) then Some (n - 97 + 26)
  else if (48 <=? n) && (n <=? 57) then Some (n - 48 + 52)
  else if n =? 43 then Some 62
  else if n =? 47 then Some 63
  else None.

(** The quanta of a base64 text from which CR and LF were removed: four
    digits give three bytes; the text may end in a quantum of two digits
    and [==] or of three digits and [=] (the unused low bits are not
    checked); anything else is a [CorruptInputError]. *)
Fixpoint b64quanta (cs : list ascii) : option string :=
  match cs with
  | [] => Some EmptyString
  | c1 :: c2 :: c3 :: c4 :: rest =>
      match b64val c1, b64val c2 with
      | Some v1, Some v2 =>
          match b64val c3, b64val c4 with
          | Some v3, Some v4 =>
              match b64quanta rest with
              | Some r =>
                  Some (String (byte_of_int (v1 * 4 + v2 / 16))
                          (String (byte_of_int (v2 mod 16 * 16 + v3 / 4))
                             (String (byte_of_int (v3 mod 4 * 64 + v4)) r)))
              | None => None
              end
          | Some v3, None =>
              if Ascii.eqb c4 "=" then
                match rest with
                | [] =>
                    Some (String (byte_of_int (v1 * 4 + v2 / 16))
                            (String (byte_of_int (v2 mod 16 * 16 + v3 / 4))
                               EmptyString))
                | _ => None
                end
              else None
          | None, _ =>
              if Ascii.eqb c3 "=" && Ascii.eqb c4 "=" then
                match rest with
                | [] =>
                    Some (String (byte_of_int (v1 * 4 + v2 / 16)) EmptyString)
                | _ => None
                end
              else None
          end
      | _, _ => None
      end
  | _ => None
  end.

Definition is_newline (c : ascii) : bool :=
  Ascii.eqb c "010" || Ascii.eqb c "013".

(** [base64.StdEncoding.DecodeString]: CR and LF are skipped wherever they
    stand; [Some] bytes when the error is nil. *)
Definition base64_DecodeString (s : string) : option string :=
  b64quanta (filter (fun c => negb (is_newline c)) (list_of_string s)).

(** ** The address codec *)

(** [nums] starts as four zero bytes and [nums[n] = byte(num)] for each part;
    the error of [Atoi] is dropped. *)
Definition ipAddrToInternal (ipAddr : string) : string :=
  let parts := Split ipAddr "." in
  if len parts =? 4 then
    hex_EncodeToString
      (string_of_list (map (fun p => byte_of_int (fst (Atoi p))) parts))
  else ipAddr.

(** [fmt.Sprintf("%d.%d.%d.%d", d[0], d[1], d[2], d[3])]; [None] is the
    panic of an index out of range. *)
Definition sprintf_quad (d : string) : option string :=
  match list_of_string d with
  | d0 :: d1 :: d2 :: d3 :: _ =>
      Some (itoa (byte_val d0) +:+ "." +:+ itoa (byte_val d1) +:+ "."
            +:+ itoa (byte_val d2) +:+ "." +:+ itoa (byte_val d3))
  | _ => None
  end.

Definition ipAddrInternalToOriginal (s : string) : option string :=
  let first :=
    if slen s =? 7 then
      match hex_DecodeString ("0" +:+ s) with
      | Some d => Some (sprintf_quad d)
      | None => None
      end
    else None in
  match first with
  | Some r => r
  | None =>
      let second :=
        if slen s =? 8 then
          match hex_DecodeString s with
          | Some d => Some (sprintf_quad d)
          | None => None
          end
        else None in
      match second with
      | Some r => r
      | None => Some s
      end
  end.

(** [remSep]. *)
Definition remSep (s : string) : string := remove_byte "|" s.

(** ** The message digest *)

Module SHA1.

Definition w32 (x : Z) : Z := x mod 2 ^ 32.

Definition rotl (n x : Z) : Z :=
  w32 (Z.lor (Z.shiftl x n) (Z.shiftr x (32 - n))).

(** The message, the byte 0x80, zero bytes up to 56 modulo 64, and the
    length in bits as eight big-endian bytes. *)
Definition pad (msg : list Z) : list Z :=
  let l := len msg in
  let bits := l * 8 in
  msg ++ [128] ++ replicate (Z.to_nat ((55 - l) mod 64)) 0
      ++ map (fun i => (bits / 2 ^ (8 * (7 - i))) mod 256)
             [0; 1; 2; 3; 4; 5; 6; 7].

Fixpoint words (fuel : nat) (bs : list Z) : list Z :=
  match fuel, bs with
  | S fuel', a :: b :: c :: d :: rest =>
      (((a * 256 + b) * 256 + c) * 256 + d) :: words fuel' rest
  | _, _ => []
  end.

(** The message schedule, newest word first. *)
Fixpoint schedule (n : nat) (wrev : list Z) : list Z :=
  match n with
  | O => wrev
  | S n' =>
      let g i := nth i wrev 0 in
      schedule n'
        (rotl 1 (Z.lxor (Z.lxor (g 2%nat) (g 7%nat))
                        (Z.lxor (g 13%nat) (g 15%nat))) :: wrev)
  end.

Definition round (i : Z) (st : Z * Z * Z * Z * Z) (w : Z)
  : Z * Z * Z * Z * Z :=
  let '(a, b, c, d, e) := st in
  let '(f, k) :=
    if i <? 20 then
      (Z.lor (Z.land b c) (Z.land (Z.lxor b (2 ^ 32 - 1)) d), 1518500249)
    else if i <? 40 then (Z.lxor (Z.lxor b c) d, 1859775393)
    else if i <? 60 then
      (Z.lor (Z.lor (Z.land b c) (Z.land b d)) (Z.land c d), 2400959708)
    else (Z.lxor (Z.lxor b c) d, 3395469782) in
  (w32 (rotl 5 a + f + e + k + w), a, rotl 30 b, c, d).

Fixpoint rounds (i : Z) (ws : list Z) (st : Z * Z * Z * Z * Z)
  : Z * Z * Z * Z * Z :=
  match ws with
  | [] => st
  | w :: ws' => rounds (i + 1) ws' (round i st w)
  end.

Definition block (h : Z * Z * Z * Z * Z) (bs : list Z) : Z * Z * Z * Z * Z :=
  let ws := rev (schedule 64 (rev (words 16 bs))) in
  let '(h0, h1, h2, h3, h4) := h in
  let '(a, b, c, d, e) := rounds 0 ws h in
  (w32 (h0 + a), w32 (h1 + b), w32 (h2 + c), w32 (h3 + d), w32 (h4 + e)).

Fixpoint blocks (fuel : nat) (h : Z * Z * Z * Z * Z) (bs : list Z)
  : Z * Z * Z * Z * Z :=
  match fuel, bs with
  | S fuel', _ :: _ => blocks fuel' (block h (take 64 bs)) (drop 64 bs)
  | _, _ => h
  end.

Definition be32 (x : Z) : list Z :=
  [x / 2 ^ 24 mod 256; x / 2 ^ 16 mod 256; x / 2 ^ 8 mod 256; x mod 256].

Definition digest (msg : list Z) : list Z :=
  let p := pad msg in
  let '(h0, h1, h2, h3, h4) :=
    blocks (length p)
      (1732584193, 4023233417, 2562383102, 271733878, 3285377520) p in
  be32 h0 ++ be32 h1 ++ be32 h2 ++ be32 h3 ++ be32 h4.

End SHA1.

(** Modelled from the spec: [Sha1OfBytes] is a helper of the repository that
    is not part of [store.go]; the spec calls its result the 20-byte
    cryptographic digest of the message bytes, and the names in the code
    ([MessageSha1], [writeMessageAsSha1]) say which one. *)
Definition Sha1OfBytes (msg : string) : string :=
  string_of_list
    (map byte_of_int (SHA1.digest (map byte_val (list_of_string msg)))).

(** ** The data model *)

(** [time.Time], as far as the store looks at it: the seconds since the
    epoch that [Unix()] returns, and the nanoseconds within the second. *)
Record Time : Type := { unix_sec : Z; unix_nsec : Z }.

Definition time_Unix (sec nsec : Z) : Time :=
  {| unix_sec := sec; unix_nsec := nsec |}.

(** A slice header. Every slice of the store starts at the first cell of its
    backing array; [s_arr] is the number of that array in the memory. *)
Record Slice : Type := { s_arr : nat; s_len : nat; s_cap : nat }.

(** The address of a cell of a backing array: array number and index. *)
Definition TopicPtr : Type := nat * nat.
Definition PostPtr : Type := nat * nat.

Record Post : Type := {
  Post_Id : Z;
  CreatedOn : Time;
  MessageSha1 : string;
  UserNameInternal : string;
  IpAddrInternal : string;
  IsDeleted : bool;
  Post_Topic : option TopicPtr
}.

Record Topic : Type := {
  Topic_Id : Z;
  Subject : string;
  Posts : Slice
}.

(** The fields of [Store]. [posts] is a slice of pointers of which no cell
    address is ever taken, hence a list; the file behind [dataFile] is
    [logData] of the world below. *)
Record Store : Type := {
  dataDir : string;
  forumName : string;
  topics : Slice;
  posts : list PostPtr
}.

(** What the program does to the outside, in order. *)
Inductive Event : Type :=
  | Printf (text : string)
  | LoggerErrorf (text : string)
  | BlobWrite (path : string) (done : bool)
  | LogAppend (text : string) (done : bool).

(** The memory of the process, the store object, the two parts of the data
    directory, and the trace of effects. *)
Record World : Type := {
  topicArrs : list (list Topic);
  postArrs : list (list Post);
  store : Store;
  logData : string;
  blobFiles : gmap string string;
  trace : list Event
}.

Definition set_topicArrs (f : list (list Topic) -> list (list Topic))
    (w : World) : World :=
  {| topicArrs := f (topicArrs w); postArrs := postArrs w; store := store w;
     logData := logData w; blobFiles := blobFiles w; trace := trace w |}.

Definition set_postArrs (f : list (list Post) -> list (list Post))
    (w : World) : World :=
  {| topicArrs := topicArrs w; postArrs := f (postArrs w); store := store w;
     logData := logData w; blobFiles := blobFiles w; trace := trace w |}.

Definition set_store (f : Store -> Store) (w : World) : World :=
  {| topicArrs := topicArrs w; postArrs := postArrs w; store := f (store w);
     logData := logData w; blobFiles := blobFiles w; trace := trace w |}.

Definition set_logData (f : string -> string) (w : World) : World :=
  {| topicArrs := topicArrs w; postArrs := postArrs w; store := store w;
     logData := f (logData w); blobFiles := blobFiles w; trace := trace w |}.

Definition set_blobFiles (f : gmap string string -> gmap string string)
    (w : World) : World :=
  {| topicArrs := topicArrs w; postArrs := postArrs w; store := store w;
     logData := logData w; blobFiles := f (blobFiles w); trace := trace w |}.

Definition emit (e : Event) (w : World) : World :=
  {| topicArrs := topicArrs w; postArrs := postArrs w; store := store w;
     logData := logData w; blobFiles := blobFiles w;
     trace := trace w ++ [e] |}.

Definition set_topics (s : Slice) (st : Store) : Store :=
  {| dataDir := dataDir st; forumName := forumName st; topics := s;
     posts := posts st |}.

Definition set_posts (ps : list PostPtr) (st : Store) : Store :=
  {| dataDir := dataDir st; forumName := forumName st; topics := topics st;
     posts := ps |}.

Definition set_IsDeleted (b : bool) (p : Post) : Post :=
  {| Post_Id := Post_Id p; CreatedOn := CreatedOn p;
     MessageSha1 := MessageSha1 p; UserNameInternal := UserNameInternal p;
     IpAddrInternal := IpAddrInternal p; IsDeleted := b;
     Post_Topic := Post_Topic p |}.

Definition set_Posts (s : Slice) (t : Topic) : Topic :=
  {| Topic_Id := Topic_Id t; Subject := Subject t; Posts := s |}.

Definition set_Topic_Id (id : Z) (t : Topic) : Topic :=
  {| Topic_Id := id; Subject := Subject t; Posts := Posts t |}.

(** ** Results and the monad of the program *)

(** A call returns a value and a world, or panics. [Fault] is a read of a
    cell the memory does not have, which no Go program does; [OutOfFuel] is
    a loop cut short by the bound of its embedding. *)
Inductive Res (A : Type) : Type :=
  | Ret (a : A) (w : World)
  | Panic (msg : string)
  | Fault
  | OutOfFuel.

Arguments Ret {A} a w.
Arguments Panic {A} msg.
Arguments Fault {A}.
Arguments OutOfFuel {A}.

Definition M (A : Type) : Type := World -> Res A.

Definition ret {A} (a : A) : M A := fun w => Ret a w.

Definition bind {A B} (m : M A) (k : A -> M B) : M B :=
  fun w =>
    match m w with
    | Ret a w' => k a w'
    | Panic msg => Panic msg
    | Fault => Fault
    | OutOfFuel => OutOfFuel
    end.

Notation "'let*' x := m 'in' k" := (bind m (fun x => k))
  (at level 10, x name, m at level 100, k at level 200).
Notation "'let*' ' pat := m 'in' k" :=
  (bind m (fun x => match x with pat => k end))
  (at level 10, pat pattern, m at level 100, k at level 200).
Notation "m ;;; k" := (bind m (fun _ => k))
  (at level 200, k at level 200).

Definition panic {A} (msg : string) : M A := fun _ => Panic msg.
Definition fault {A} : M A := fun _ => Fault.
Definition get : M World := fun w => Ret w w.
Definition modify (f : World -> World) : M unit := fun w => Ret tt (f w).

(** A read through a pointer or a slice the program holds. *)
Definition must {A} (o : option A) : M A :=
  match o with
  | Some a => ret a
  | None => fault
  end.

Definition fmt_Printf (text : string) : M unit := modify (emit (Printf text)).

(** ** Memory: cells, slices, append *)

Definition load {A} (mem : list (list A)) (p : nat * nat) : option A :=
  match mem !! p.1 with
  | Some cells => cells !! p.2
  | None => None
  end.

Definition poke {A} (mem : list (list A)) (p : nat * nat) (x : A)
  : list (list A) :=
  match mem !! p.1 with
  | Some cells => <[p.1 := <[p.2 := x]> cells]> mem
  | None => mem
  end.

(** The cells a slice shows: the first [s_len] cells of its array. A slice
    of length zero shows nothing, whatever its array. *)
Definition slice_cells {A} (mem : list (list A)) (s : Slice)
  : option (list A) :=
  match s_len s with
  | O => Some []
  | _ =>
      match mem !! s_arr s with
      | Some cells =>
          if (s_len s <=? length cells)%nat then Some (take (s_len s) cells)
          else None
      | None => None
      end
  end.

(** [make([]T, 0)]: no cell, no capacity. *)
Definition empty_slice : Slice := {| s_arr := 0; s_len := 0; s_cap := 0 |}.

(** The capacity the runtime gives a slice that is full and grows by one
    element: one for an empty slice, twice the old capacity below 1024
    elements, a quarter more above. *)
Definition growslice_cap (oldcap : nat) : nat :=
  match oldcap with
  | O => 1%nat
  | _ => if (oldcap <? 1024)%nat then (2 * oldcap)%nat
         else (oldcap + oldcap / 4)%nat
  end.

(** What [append] does to a memory: it gives a new memory and a new slice
    header, or the runtime refuses the new capacity, or the slice has no
    array in the memory. *)
Inductive Grown (A : Type) : Type :=
  | grown (mem : list (list A)) (s : Slice)
  | too_large
  | no_cell.

Arguments grown {A} mem s.
Arguments too_large {A}.
Arguments no_cell {A}.

(** [append(s, x)] on the memory [mem] with [zero] as the zero value of the
    cells: in place while the capacity lasts, else into a new array to which
    the cells of the slice are copied. The runtime panics when the new
    capacity does not fit its address space; the bound here is the one every
    platform has, that a capacity is an [int]. *)
Definition append_cells {A} (zero : A) (mem : list (list A)) (s : Slice)
    (x : A) : Grown A :=
  if (s_len s <? s_cap s)%nat then
    match mem !! s_arr s with
    | Some cells =>
        if (s_cap s <=? length cells)%nat then
          grown (poke mem (s_arr s, s_len s) x)
                {| s_arr := s_arr s; s_len := S (s_len s);
                   s_cap := s_cap s |}
        else no_cell
    | None => no_cell
    end
  else
    let newcap := growslice_cap (s_cap s) in
    if maxInt <? Z.of_nat newcap then too_large
    else
      match slice_cells mem s with
      | Some old =>
          grown (mem ++ [old ++ [x]
                           ++ replicate (newcap - S (s_len s))%nat zero])
                {| s_arr := length mem; s_len := S (s_len s);
                   s_cap := newcap |}
      | None => no_cell
      end.

(** The zero values of the cells. *)
Definition zeroTime : Time := time_Unix (-62135596800) 0.

Definition zeroPost : Post :=
  {| Post_Id := 0; CreatedOn := zeroTime;
     MessageSha1 := string_of_list (replicate 20 "000"%char);
     UserNameInternal := EmptyString; IpAddrInternal := EmptyString;
     IsDeleted := false; Post_Topic := None |}.

Definition zeroTopic : Topic :=
  {| Topic_Id := 0; Subject := EmptyString; Posts := empty_slice |}.

Definition load_topic (p : TopicPtr) : M Topic :=
  fun w => must (load (topicArrs w) p) w.

Definition store_topic (p : TopicPtr) (t : Topic) : M unit :=
  modify (set_topicArrs (fun mem => poke mem p t)).

Definition load_post (p : PostPtr) : M Post :=
  fun w => must (load (postArrs w) p) w.

Definition store_post (p : PostPtr) (x : Post) : M unit :=
  modify (set_postArrs (fun mem => poke mem p x)).

(** [append] on [[]Post] and on [[]Topic]. *)
Definition append_Post (s : Slice) (x : Post) : M Slice :=
  fun w =>
    match append_cells zeroPost (postArrs w) s x with
    | grown mem s' => Ret s' (set_postArrs (fun _ => mem) w)
    | too_large => Panic "growslice: cap out of range"
    | no_cell => Fault
    end.

Definition append_Topic (s : Slice) (x : Topic) : M Slice :=
  fun w =>
    match append_cells zeroTopic (topicArrs w) s x with
    | grown mem s' => Ret s' (set_topicArrs (fun _ => mem) w)
    | too_large => Panic "growslice: cap out of range"
    | no_cell => Fault
    end.

(** [&Topic{...}]: a new object, a cell of its own. *)
Definition new_Topic (t : Topic) : M TopicPtr :=
  fun w => Ret (length (topicArrs w), 0%nat)
               (set_topicArrs (fun mem => mem ++ [[t]]) w).

(** [&s[i]]: the address of cell [i], or the panic of the bounds check. *)
Definition addr_of (s : Slice) (i : Z) : M (nat * nat) :=
  if (0 <=? i) && (i <? Z.of_nat (s_len s)) then ret (s_arr s, Z.to_nat i)
  else panic "index out of range".

(** ** The record codec and the replayer *)

Definition LF : ascii := "010"%char.
Definition nl : string := String LF EmptyString.

Definition parseDelUndel (d : string) : M (Z * Z) :=
  match Split d "|" with
  | [p0; p1] =>
      match Atoi p0 with
      | (_, Some _) => panic "invalid topicId"
      | (topicId, None) =>
          match Atoi p1 with
          | (_, Some _) => panic "invalid postId"
          | (postId, None) => ret (topicId, postId)
          end
      end
  | _ => panic "len(parts) != 2"
  end.

Definition findPostToDelUndel (d : string) (topicIdToTopic : gmap Z TopicPtr)
  : M PostPtr :=
  let* '(topicId, postId) := parseDelUndel d in
  match topicIdToTopic !! topicId with
  | None => panic "no topic with that id"
  | Some tp =>
      let* topic := load_topic tp in
      if Z.of_nat (s_len (Posts topic)) <? postId then panic "invalid postId"
      else addr_of (Posts topic) (wrap64 (postId - 1))
  end.

(** [line] is not empty: [parseTopics] has read its first byte. *)
Definition parseTopic (line : string) : M Topic :=
  match Split (str_drop 1 line) "|" with
  | [idStr; subject] =>
      match Atoi idStr with
      | (_, Some _) => panic "idStr is not a number"
      | (id, None) =>
          ret {| Topic_Id := id; Subject := subject; Posts := empty_slice |}
      end
  | _ => panic "len(parts) != 2"
  end.

(** [copy(post.MessageSha1[:], src)] into the zeroed array of 20 bytes. *)
Definition copy20 (src : string) : string :=
  string_of_list
    (take 20 (list_of_string src ++ replicate 20 "000"%char)).

Definition parsePost (line : string) (topicIdToTopic : gmap Z TopicPtr)
  : M Post :=
  match Split (str_drop 1 line) "|" with
  | [topicIdStr; idStr; createdOnSecondsStr; digest; ipAddrInternal;
     userName] =>
      let msgSha1b64 := digest +:+ "=" in
      match Atoi topicIdStr with
      | (_, Some _) => panic "topicIdStr not a number"
      | (topicId, None) =>
      match Atoi idStr with
      | (_, Some _) => panic "idStr not a number"
      | (id, None) =>
      match Atoi createdOnSecondsStr with
      | (_, Some _) => panic "createdOnSeconds not a number"
      | (createdOnSeconds, None) =>
      let createdOn := time_Unix createdOnSeconds 0 in
      match base64_DecodeString msgSha1b64 with
      | None => panic "msgSha1b64 not valid base64"
      | Some msgSha1 =>
      if negb (slen msgSha1 =? 20) then panic "len(msgSha1) != 20"
      else
      match topicIdToTopic !! topicId with
      | None => panic "didn't find topic with a given topicId"
      | Some t =>
          let* topic := load_topic t in
          let realPostId := wrap64 (Z.of_nat (s_len (Posts topic)) + 1) in
          (if negb (id =? realPostId) then
             fmt_Printf ("!Unexpected post id:" +:+ nl) ;;;
             fmt_Printf ("  " +:+ line +:+ nl) ;;;
             fmt_Printf ("  id: " +:+ itoa topicId +:+ ", expectedId: "
                         +:+ itoa id +:+ ", topicId: " +:+ itoa realPostId
                         +:+ nl) ;;;
             fmt_Printf ("  " +:+ Subject topic +:+ nl)
           else ret tt) ;;;
          ret {| Post_Id := realPostId; CreatedOn := createdOn;
                 MessageSha1 := copy20 msgSha1;
                 UserNameInternal := userName;
                 IpAddrInternal := ipAddrInternal;
                 IsDeleted := false; Post_Topic := Some t |}
      end
      end
      end
      end
      end
  | _ => panic "len(parts) != 6"
  end.

(** [t.Posts = append(t.Posts, post)] through the pointer [t]. *)
Definition append_to_topic (t : TopicPtr) (post : Post) : M unit :=
  let* topic := load_topic t in
  let* s := append_Post (Posts topic) post in
  store_topic t (set_Posts s topic).

(** [&t.Posts[len(t.Posts)-1]] through the pointer [t]. *)
Definition addr_last_post (t : TopicPtr) : M PostPtr :=
  let* topic := load_topic t in
  addr_of (Posts topic) (Z.of_nat (s_len (Posts topic)) - 1).

Definition push_recent (p : PostPtr) : M unit :=
  modify (set_store (fun st => set_posts (posts st ++ [p]) st)).

(** The loop of [parseTopics]. [recentPosts] points to [store.posts]. Every
    turn takes at least one byte from [d], so [String.length d] turns are
    enough. *)
Fixpoint parseTopics_loop (fuel : nat) (d : string) (topics : Slice)
    (topicIdToTopic : gmap Z TopicPtr) : M Slice :=
  match d with
  | EmptyString => ret topics
  | _ =>
      match fuel with
      | O => fun _ => OutOfFuel
      | S fuel' =>
          let idx := IndexByte d LF in
          if idx =? -1 then panic "idx shouldn't be -1"
          else
            let line := str_take (Z.to_nat idx) d in
            let d' := str_drop (Z.to_nat (idx + 1)) d in
            match line with
            | EmptyString => panic "index out of range"
            | String c _ =>
                if Ascii.eqb c "T" then
                  let* t := parseTopic line in
                  let* topics' := append_Topic topics t in
                  let* tp := addr_of topics' (Z.of_nat (s_len topics') - 1) in
                  parseTopics_loop fuel' d' topics'
                    (<[Topic_Id t := tp]> topicIdToTopic)
                else if Ascii.eqb c "P" then
                  let* post := parsePost line topicIdToTopic in
                  match Post_Topic post with
                  | None => panic "nil pointer dereference"
                  | Some t =>
                      append_to_topic t post ;;;
                      let* pp := addr_last_post t in
                      push_recent pp ;;;
                      parseTopics_loop fuel' d' topics topicIdToTopic
                  end
                else if Ascii.eqb c "D" then
                  let* pp := findPostToDelUndel (str_drop 1 line)
                               topicIdToTopic in
                  let* post := load_post pp in
                  if IsDeleted post then panic "post already deleted"
                  else
                    store_post pp (set_IsDeleted true post) ;;;
                    parseTopics_loop fuel' d' topics topicIdToTopic
                else if Ascii.eqb c "U" then
                  let* pp := findPostToDelUndel (str_drop 1 line)
                               topicIdToTopic in
                  let* post := load_post pp in
                  if negb (IsDeleted post) then panic "post already undeleted"
                  else
                    store_post pp (set_IsDeleted false post) ;;;
                    parseTopics_loop fuel' d' topics topicIdToTopic
                else if Ascii.eqb c "B" then
                  parseTopics_loop fuel' d' topics topicIdToTopic
                else panic "Unexpected line type"
            end
      end
  end.

Definition parseTopics (d : string) : M Slice :=
  parseTopics_loop (String.length d) d empty_slice ∅.

(** [fmt]'s [%v] of a topic without posts. *)
Definition fmt_v_Topic (t : Topic) : string :=
  "{" +:+ itoa (Topic_Id t) +:+ " " +:+ Subject t +:+ " []}".

Fixpoint verifyTopics_loop (i : Z) (ts : list Topic) : M unit :=
  match ts with
  | [] => ret tt
  | t :: ts' =>
      (if (s_len (Posts t) =? 0)%nat then
         fmt_Printf ("topics at idx " +:+ itoa i +:+ " (" +:+ fmt_v_Topic t
                     +:+ ") has no posts!" +:+ nl)
       else ret tt) ;;;
      verifyTopics_loop (i + 1) ts'
  end.

Definition verifyTopics (topics : Slice) : M unit :=
  let* w := get in
  let* ts := must (slice_cells (topicArrs w) topics) in
  verifyTopics_loop 0 ts.

(** [filepath.Join], without the cleaning of the result. *)
Fixpoint filepath_Join (elems : list string) : string :=
  match elems with
  | [] => EmptyString
  | [e] => e
  | e :: rest => e +:+ "/" +:+ filepath_Join rest
  end.

(** What the operating system answers [NewStore]: the content of the data
    file when [PathExists] and [ReadFileAll] succeeds, and the errors of
    [ReadFileAll], [os.Create] and [os.OpenFile] when they fail. *)
Record Disk : Type := {
  disk_log : option string;
  disk_blobs : gmap string string;
  read_err : option error;
  create_err : option error;
  open_err : option error
}.

(** [NewStore], from the start of a process: an empty memory, a new store
    object. The result is the error it returns, [None] for [nil]. *)
Definition NewStore (dataDir forumName : string) (disk : Disk)
  : Res (option error) :=
  let dataFilePath :=
    filepath_Join [dataDir; "forum"; forumName +:+ ".txt"] in
  let w0 :=
    {| topicArrs := []; postArrs := [];
       store := {| dataDir := dataDir; forumName := forumName;
                   topics := empty_slice; posts := [] |};
       logData := default EmptyString (disk_log disk);
       blobFiles := disk_blobs disk; trace := [] |} in
  (let* loaded :=
     match disk_log disk with
     | Some data =>
         match read_err disk with
         | Some err =>
             fmt_Printf ("readExistingData() failed with "
                         +:+ error_Error err) ;;;
             ret (Some err)
         | None =>
             let* ts := parseTopics data in
             modify (set_store (set_topics ts)) ;;;
             ret None
         end
     | None =>
         match create_err disk with
         | Some err =>
             fmt_Printf ("NewStore(): os.Create(" +:+ dataFilePath
                         +:+ ") failed with " +:+ error_Error err) ;;;
             ret (Some err)
         | None => ret None
         end
     end in
   match loaded with
   | Some err => ret (Some err)
   | None =>
       let* w := get in
       verifyTopics (topics (store w)) ;;;
       match open_err disk with
       | Some err =>
           fmt_Printf ("NewStore(): os.OpenFile(" +:+ dataFilePath
                       +:+ ") failed with " +:+ error_Error err) ;;;
           ret (Some err)
       | None => ret None
       end
   end) w0.

(** ** The mutation and query API

    Every public method holds the lock of the store from its first statement
    to its return; one call at a time runs, so a call is a function of the
    world. *)

Definition TopicsCount : M Z :=
  let* w := get in ret (Z.of_nat (s_len (topics (store w)))).

Fixpoint topicById_loop (id : Z) (arr idx : nat) (cells : list Topic)
  : option TopicPtr :=
  match cells with
  | [] => None
  | t :: rest =>
      if id =? Topic_Id t then Some (arr, idx)
      else topicById_loop id arr (S idx) rest
  end.

(** [None] is the nil pointer. *)
Definition topicByIdUnlocked (id : Z) : M (option TopicPtr) :=
  let* w := get in
  let s := topics (store w) in
  let* cells := must (slice_cells (topicArrs w) s) in
  ret (topicById_loop id (s_arr s) 0 cells).

Definition TopicById (id : Z) : M (option TopicPtr) := topicByIdUnlocked id.

(** The digest in hexadecimal has 40 characters, so the two cuts are in
    range. *)
Definition blobPath (dir sha1 : string) : string :=
  let d1 := str_take 2 sha1 in
  let d2 := str_take 2 (str_drop 2 sha1) in
  filepath_Join [dir; "blobs"; d1; d2; sha1].

Definition MessageFilePath (sha1 : string) : M string :=
  let* w := get in
  ret (blobPath (dataDir (store w)) (hex_EncodeToString sha1)).

Definition findPost (topicId postId : Z) : M (PostPtr + error) :=
  let* topic := topicByIdUnlocked topicId in
  match topic with
  | None => ret (inr (errors_New "didn't find a topic with this id"))
  | Some tp =>
      let* t := load_topic tp in
      if Z.of_nat (s_len (Posts t)) <? postId then
        ret (inr (errors_New "didn't find post with this id"))
      else
        let* pp := addr_of (Posts t) (wrap64 (postId - 1)) in
        ret (inl pp)
  end.

(** [store.dataFile.WriteString(str)]: the operating system either takes the
    whole string, or fails after [n] bytes with an error. *)
Definition appendString (str : string) (fails : option (nat * error))
  : M (option error) :=
  match fails with
  | None =>
      modify (set_logData (fun d => d +:+ str)) ;;;
      modify (emit (LogAppend str true)) ;;;
      ret None
  | Some (n, err) =>
      modify (set_logData (fun d => d +:+ str_take n str)) ;;;
      modify (emit (LogAppend (str_take n str) false)) ;;;
      fmt_Printf ("appendString() error: " +:+ error_Error err +:+ nl) ;;;
      ret (Some err)
  end.

Definition DeletePost (fails : option (nat * error)) (topicId postId : Z)
  : M (option error) :=
  let* r := findPost topicId postId in
  match r with
  | inr err => ret (Some err)
  | inl pp =>
      let* post := load_post pp in
      if IsDeleted post then ret (Some (errors_New "post already deleted"))
      else
        let str := "D" +:+ itoa topicId +:+ "|" +:+ itoa postId +:+ nl in
        let* err := appendString str fails in
        match err with
        | Some e => ret (Some e)
        | None =>
            let* post := load_post pp in
            store_post pp (set_IsDeleted true post) ;;;
            ret None
        end
  end.

Definition UndeletePost (fails : option (nat * error)) (topicId postId : Z)
  : M (option error) :=
  let* r := findPost topicId postId in
  match r with
  | inr err => ret (Some err)
  | inl pp =>
      let* post := load_post pp in
      if negb (IsDeleted post) then
        ret (Some (errors_New "post already not deleted"))
      else
        let str := "U" +:+ itoa topicId +:+ "|" +:+ itoa postId +:+ nl in
        let* err := appendString str fails in
        match err with
        | Some e => ret (Some e)
        | None =>
            let* post := load_post pp in
            store_post pp (set_IsDeleted false post) ;;;
            ret None
        end
  end.

(** Modelled from the spec: [WriteBytesToFile] is a helper of the repository
    that is not part of [store.go]; a write that succeeds leaves the bytes
    under the path, whatever was there, and a write that fails returns its
    error. *)
Definition WriteBytesToFile (d path : string) (fails : option error)
  : M (option error) :=
  match fails with
  | None =>
      modify (set_blobFiles (fun m => <[path := d]> m)) ;;;
      modify (emit (BlobWrite path true)) ;;;
      ret None
  | Some err =>
      modify (emit (BlobWrite path false)) ;;;
      ret (Some err)
  end.

Definition writeMessageAsSha1 (msg sha1 : string) (fails : option error)
  : M (option error) :=
  let* path := MessageFilePath sha1 in
  let* err := WriteBytesToFile msg path fails in
  match err with
  | Some e =>
      modify (emit (LoggerErrorf
        ("Store.writeMessageAsSha1(): failed to write " +:+ path
         +:+ " with error " +:+ error_Error e))) ;;;
      ret (Some e)
  | None => ret None
  end.

(** The error of [appendString] is dropped. *)
Definition blockIp (fails : option (nat * error)) (ipAddr : string)
  : M unit :=
  let ipAddrInternal := ipAddrToInternal ipAddr in
  let s := "U:" +:+ ipAddrInternal +:+ "|1" in
  appendString s fails ;;; ret tt.

Definition unblockIp (fails : option (nat * error)) (ipAddr : string)
  : M unit :=
  let ipAddrInternal := ipAddrToInternal ipAddr in
  let s := "U:" +:+ ipAddrInternal +:+ "|0" in
  appendString s fails ;;; ret tt.

(** What the outside gives a call that creates a post: the clock reading of
    [time.Now()], and whether the two writes fail. *)
Record IO : Type := {
  io_now : Time;
  io_blob : option error;
  io_log : option (nat * error)
}.

Definition addNewPost (io : IO) (msg user ipAddr : string) (topic : TopicPtr)
    (newTopic : bool) : M (option error) :=
  let* t0 := load_topic topic in
  let p :=
    {| Post_Id := wrap64 (Z.of_nat (s_len (Posts t0)) + 1);
       CreatedOn := io_now io;
       MessageSha1 := copy20 (Sha1OfBytes msg);
       UserNameInternal := remSep user;
       IpAddrInternal := remSep (ipAddrToInternal ipAddr);
       IsDeleted := false;
       Post_Topic := Some topic |} in
  let* err := writeMessageAsSha1 msg (MessageSha1 p) (io_blob io) in
  match err with
  | Some e => ret (Some e)
  | None =>
      let topicStr :=
        if newTopic then
          "T" +:+ itoa (Topic_Id t0) +:+ "|" +:+ Subject t0 +:+ nl
        else EmptyString in
      let s1 := itoa (unix_sec (CreatedOn p)) in
      let s2 := base64_EncodeToString (MessageSha1 p) in
      let s2 := str_take (String.length s2 - 1) s2 in
      let s3 := UserNameInternal p in
      let sIp := IpAddrInternal p in
      let postStr :=
        "P" +:+ itoa (Topic_Id t0) +:+ "|" +:+ itoa (Post_Id p) +:+ "|"
        +:+ s1 +:+ "|" +:+ s2 +:+ "|" +:+ sIp +:+ "|" +:+ s3 +:+ nl in
      let str := topicStr +:+ postStr in
      let* err := appendString str (io_log io) in
      match err with
      | Some e => ret (Some e)
      | None =>
          append_to_topic topic p ;;;
          (if newTopic then
             let* t := load_topic topic in
             let* w := get in
             let* s := append_Topic (topics (store w)) t in
             modify (set_store (set_topics s))
           else ret tt) ;;;
          let* pp := addr_last_post topic in
          push_recent pp ;;;
          ret None
      end
  end.

Definition CreateNewPost (io : IO) (subject msg user ipAddr : string)
  : M (Z * option error) :=
  let* topic :=
    new_Topic {| Topic_Id := 1; Subject := remSep subject;
                 Posts := empty_slice |} in
  let* w := get in
  let s := topics (store w) in
  (if (0 <? s_len s)%nat then
     let* lastp := addr_of s (Z.of_nat (s_len s) - 1) in
     let* last := load_topic lastp in
     let* t := load_topic topic in
     store_topic topic (set_Topic_Id (wrap64 (Topic_Id last + 1)) t)
   else ret tt) ;;;
  let* err := addNewPost io msg user ipAddr topic true in
  let* t := load_topic topic in
  ret (Topic_Id t, err).

Definition AddPostToTopic (io : IO) (topicId : Z) (msg user ipAddr : string)
  : M (option error) :=
  let* topic := topicByIdUnlocked topicId in
  match topic with
  | None => ret (Some (errors_New "invalid topicId"))
  | Some tp => addNewPost io msg user ipAddr tp false
  end.

Definition BlockIp (fails : option (nat * error)) (ipAddr : string)
  : M unit := blockIp fails ipAddr.

Definition UnblockIp (fails : option (nat * error)) (ipAddr : string)
  : M unit := unblockIp fails ipAddr.

(** [make([]T, n)] and [make([]T, 0, n)] panic for a negative [n]; the limit
    of the allocator on large [n] is left out. *)
Definition GetRecentPosts (max : Z) : M (list PostPtr) :=
  let* w := get in
  let ps := posts (store w) in
  let max := if len ps <? max then len ps else max in
  if max <? 0 then panic "makeslice: len out of range"
  else ret (take (Z.to_nat max) (rev ps)).

(** The loop of the two filtered scans, over the global sequence from its
    newest entry. *)
Fixpoint scan_posts (keep : Post -> bool) (max : Z) (newest_first : list PostPtr)
    (res : list PostPtr) : M (list PostPtr) :=
  match newest_first with
  | [] => ret res
  | pp :: older =>
      let* p := load_post pp in
      if keep p then
        let res := res ++ [pp] in
        if max <? len res then ret res
        else scan_posts keep max older res
      else scan_posts keep max older res
  end.

Definition GetPostsByUserInternal (userNameInternal : string) (max : Z)
  : M (list PostPtr) :=
  let* w := get in
  scan_posts (fun p => String.eqb (UserNameInternal p) userNameInternal)
    max (rev (posts (store w))) [].

Definition GetPostsByIpInternal (ipAddrInternal : string) (max : Z)
  : M (list PostPtr) :=
  let* w := get in
  scan_posts (fun p => String.eqb (IpAddrInternal p) ipAddrInternal)
    max (rev (posts (store w))) [].

(** The loop of [GetTopics]; it ends after at most one turn per topic and
    one more. *)
Fixpoint GetTopics_loop (fuel : nat) (s : Slice) (n i : Z)
    (res : list TopicPtr) : M (list TopicPtr * Z) :=
  if 0 <? n then
    match fuel with
    | O => fun _ => OutOfFuel
    | S fuel' =>
        let idx := wrap64 (Z.of_nat (s_len s) - 1 - i) in
        if idx <? 0 then ret (res, i)
        else
          let* t := addr_of s idx in
          GetTopics_loop fuel' s (wrap64 (n - 1)) (wrap64 (i + 1))
            (res ++ [t])
    end
  else ret (res, i).

Definition GetTopics (nMax from : Z) (withDeleted : bool)
  : M (list TopicPtr * Z) :=
  if nMax <? 0 then panic "makeslice: cap out of range"
  else
    let* w := get in
    let s := topics (store w) in
    let* '(res, i) := GetTopics_loop (S (s_len s)) s nMax from [] in
    let newFrom := i in
    let newFrom :=
      if wrap64 (Z.of_nat (s_len s) - 1 - newFrom) <=? 0 then 0
      else newFrom in
    ret (res, newFrom).

(** [Topic.IsDeleted]. *)
Definition Topic_IsDeleted (t : TopicPtr) : M bool :=
  let* topic := load_topic t in
  let* w := get in
  let* ps := must (slice_cells (postArrs w) (Posts topic)) in
  ret (forallb IsDeleted ps).

(** ** What a caller can observe of the store *)

Record PostView : Type := {
  pv_Id : Z;
  pv_CreatedOn : Z;
  pv_MessageSha1 : string;
  pv_UserNameInternal : string;
  pv_IpAddrInternal : string;
  pv_IsDeleted : bool
}.

Definition view_of_post (p : Post) : PostView :=
  {| pv_Id := Post_Id p; pv_CreatedOn := unix_sec (CreatedOn p);
     pv_MessageSha1 := MessageSha1 p;
     pv_UserNameInternal := UserNameInternal p;
     pv_IpAddrInternal := IpAddrInternal p; pv_IsDeleted := IsDeleted p |}.

Record TopicView : Type := {
  tv_Id : Z;
  tv_Subject : string;
  tv_Posts : list PostView
}.

(** The topics of the store in order, each with the posts it owns. *)
Definition view_topic (w : World) (t : Topic) : option TopicView :=
  match slice_cells (postArrs w) (Posts t) with
  | Some ps =>
      Some {| tv_Id := Topic_Id t; tv_Subject := Subject t;
              tv_Posts := map view_of_post ps |}
  | None => None
  end.

Definition view_topics (w : World) : option (list TopicView) :=
  match slice_cells (topicArrs w) (topics (store w)) with
  | Some ts => mapM (view_topic w) ts
  | None => None
  end.

(** The posts a list of pointers leads to. *)
Definition view_posts (w : World) (ps : list PostPtr)
  : option (list PostView) :=
  mapM (fun pp => option_map view_of_post (load (postArrs w) pp)) ps.

(** The global post sequence, oldest first. *)
Definition view_recent (w : World) : option (list PostView) :=
  view_posts w (posts (store w)).

(** ** Calls, and closing and reopening the store *)

(** The mutations of the API, each with what the outside answers it. *)
Inductive Call : Type :=
  | Call_CreateNewPost (io : IO) (subject msg user ipAddr : string)
  | Call_AddPostToTopic (io : IO) (topicId : Z) (msg user ipAddr : string)
  | Call_DeletePost (fails : option (nat * error)) (topicId postId : Z)
  | Call_UndeletePost (fails : option (nat * error)) (topicId postId : Z)
  | Call_BlockIp (fails : option (nat * error)) (ipAddr : string)
  | Call_UnblockIp (fails : option (nat * error)) (ipAddr : string).

(** A call and the error it returns. *)
Definition call (c : Call) : M (option error) :=
  match c with
  | Call_CreateNewPost io subject msg user ipAddr =>
      let* r := CreateNewPost io subject msg user ipAddr in ret r.2
  | Call_AddPostToTopic io topicId msg user ipAddr =>
      AddPostToTopic io topicId msg user ipAddr
  | Call_DeletePost fails topicId postId => DeletePost fails topicId postId
  | Call_UndeletePost fails topicId postId =>
      UndeletePost fails topicId postId
  | Call_BlockIp fails ipAddr => BlockIp fails ipAddr ;;; ret None
  | Call_UnblockIp fails ipAddr => UnblockIp fails ipAddr ;;; ret None
  end.

(** A sequence of calls and the errors they return. *)
Fixpoint calls (cs : list Call) : M (list (option error)) :=
  match cs with
  | [] => ret []
  | c :: cs' =>
      let* e := call c in
      let* es := calls cs' in
      ret (e :: es)
  end.

(** A data directory without a data file, and one whose operations work. *)
Definition new_disk : Disk :=
  {| disk_log := None; disk_blobs := ∅; read_err := None;
     create_err := None; open_err := None |}.

Definition disk_with (log : string) (blobs : gmap string string) : Disk :=
  {| disk_log := Some log; disk_blobs := blobs; read_err := None;
     create_err := None; open_err := None |}.

(** Closing the store and opening it again: a new process reads what the
    old one left in the data directory. *)
Definition reopen (w : World) : Res (option error) :=
  NewStore (dataDir (store w)) (forumName (store w))
    (disk_with (logData w) (blobFiles w)).

(** A new store in a new directory, after the calls [cs]. *)
Definition session (cs : list Call) : Res (list (option error)) :=
  match NewStore "data" "forum" new_disk with
  | Ret _ w => calls cs w
  | Panic msg => Panic msg
  | Fault => Fault
  | OutOfFuel => OutOfFuel
  end.

Definition clock (sec : Z) : IO :=
  {| io_now := time_Unix sec 0; io_blob := None; io_log := None |}.

(** The states the store can be in: as [NewStore] returns it, from any data
    file, and after any call that returns. *)
Inductive reachable : World -> Prop :=
  | reachable_open dataDir forumName disk w :
      NewStore dataDir forumName disk = Ret None w -> reachable w
  | reachable_call w c e w' :
      reachable w -> call c w = Ret e w' -> reachable w'.

(** The same from a directory that has no data file yet. *)
Inductive reachable_new : World -> Prop :=
  | reachable_new_open dataDir forumName disk w :
      disk_log disk = None ->
      NewStore dataDir forumName disk = Ret None w -> reachable_new w
  | reachable_new_call w c e w' :
      reachable_new w -> call c w = Ret e w' -> reachable_new w'.

(** ** The error kinds of the spec *)

Inductive ErrorKind : Type :=
  | UnknownTopicReference
  | InvalidPostIndex
  | AlreadyInTargetState.

Definition error_kind (e : error) : option ErrorKind :=
  match e with
  | errors_New msg =>
      if String.eqb msg "didn't find a topic with this id"
         || String.eqb msg "invalid topicId" then Some UnknownTopicReference
      else if String.eqb msg "didn't find post with this id" then
        Some InvalidPostIndex
      else if String.eqb msg "post already deleted"
              || String.eqb msg "post already not deleted" then
        Some AlreadyInTargetState
      else None
  | _ => None
  end.

(** ** Properties of states *)

(** The ids of the topics of the store, in order. *)
Definition topic_ids (w : World) : option (list Z) :=
  option_map (map Topic_Id) (slice_cells (topicArrs w) (topics (store w))).

(** The ids of the posts each topic owns, in order. *)
Definition post_ids (w : World) : option (list (list Z)) :=
  option_map (map (fun tv => map pv_Id (tv_Posts tv))) (view_topics w).

(** A slice header that fits the memory. *)
Definition hdr_ok {A} (mem : list (list A)) (s : Slice) : Prop :=
  (s_len s <= s_cap s)%nat /\ Z.of_nat (s_cap s) <= maxInt
  /\ (s_cap s = 0%nat
      \/ exists cells, mem !! s_arr s = Some cells /\ length cells = s_cap s).

(** The posts a header shows carry their position as id. *)
Definition positional (mem : list (list Post)) (s : Slice) : Prop :=
  forall i p, (i < s_len s)%nat -> load mem (s_arr s, i) = Some p ->
    Post_Id p = Z.of_nat i + 1.

(** Every topic cell of the memory, in the store or left behind by a
    relocation, has a header that fits and shows positional ids. *)
Definition mem_ok (tm : list (list Topic)) (pm : list (list Post)) : Prop :=
  forall tp t, load tm tp = Some t ->
    hdr_ok pm (Posts t) /\ positional pm (Posts t).

Definition WF (w : World) : Prop :=
  hdr_ok (topicArrs w) (topics (store w))
  /\ mem_ok (topicArrs w) (postArrs w).

(** ** The address codec: dotted addresses *)

Fixpoint has_byte (c : ascii) (s : string) : bool :=
  match s with
  | EmptyString => false
  | String x s' => Ascii.eqb x c || has_byte c s'
  end.

(** The dotted address of four numbers. *)
Definition dotted (a b c d : Z) : string :=
  itoa a +:+ "." +:+ itoa b +:+ "." +:+ itoa c +:+ "." +:+ itoa d.

(** What the codec needs of one component, checked on all of 0..255. *)
Definition byte_facts (n : Z) : bool :=
  negb (has_byte "." (itoa n))
  && match Atoi (itoa n) with
     | (m, None) => m =? n
     | _ => false
     end
  && (byte_val (byte_of_int n) =? n)
  && match fromHexChar (hexdigit (n / 16)),
           fromHexChar (hexdigit (n mod 16)) with
     | Some a, Some b => a * 16 + b =? n
     | _, _ => false
     end.

(** ** What the queries show *)

Definition deleted_flags (vs : option (list PostView)) : option (list bool) :=
  option_map (map pv_IsDeleted) vs.

(** The flags of the posts each topic owns. *)
Definition topic_flags (w : World) : option (list (list bool)) :=
  option_map (map (fun tv => map pv_IsDeleted (tv_Posts tv))) (view_topics w).

(** ** Sample states *)

Definition blank_world : World :=
  {| topicArrs := []; postArrs := [];
     store := {| dataDir := EmptyString; forumName := EmptyString;
                 topics := empty_slice; posts := [] |};
     logData := EmptyString; blobFiles := ∅; trace := [] |}.

(** The state a new store is in after the calls [cs]. *)
Definition world_after (cs : list Call) : World :=
  match session cs with
  | Ret _ w => w
  | _ => blank_world
  end.

(** One topic with two posts, the second one deleted. *)
Definition sample_calls : list Call :=
  [Call_CreateNewPost (clock 100) "Hello" "hi there" "alice" "127.0.0.1";
   Call_AddPostToTopic (clock 101) 1 "second" "alice" "127.0.0.1";
   Call_DeletePost None 1 2].

(** Three topics, the first with three posts. *)
Definition three_topics : list Call :=
  [Call_CreateNewPost (clock 100) "A" "a1" "alice" "127.0.0.1";
   Call_CreateNewPost (clock 101) "B" "b1" "bob" "127.0.0.2";
   Call_CreateNewPost (clock 102) "C" "c1" "alice" "127.0.0.1";
   Call_AddPostToTopic (clock 103) 1 "a2" "alice" "127.0.0.1";
   Call_AddPostToTopic (clock 104) 1 "a3" "alice" "127.0.0.1"].

(** ** How the memory may change *)

(** Arrays stay where they are and keep their size. *)
Definition mem_le {A} (mem mem' : list (list A)) : Prop :=
  forall a cells, mem !! a = Some cells ->
    exists cells', mem' !! a = Some cells' /\ length cells' = length cells.

(** A cell of the post memory keeps the id it holds, or takes the id of its
    position. *)
Definition post_step (pm pm' : list (list Post)) : Prop :=
  mem_le pm pm'
  /\ forall pp p p', load pm pp = Some p -> load pm' pp = Some p' ->
       Post_Id p' = Post_Id p \/ Post_Id p' = Z.of_nat pp.2 + 1.

(** The memory and the store object are the same in both worlds. *)
Definition same_mem (w w' : World) : Prop :=
  topicArrs w' = topicArrs w /\ postArrs w' = postArrs w
  /\ store w' = store w.

(** The ids of the topics a slice shows. *)
Definition cells_ids (tm : list (list Topic)) (s : Slice) : option (list Z) :=
  option_map (map Topic_Id) (slice_cells tm s).

(** The id [CreateNewPost] gives a topic, from the ids of the topics there
    are. *)
Definition next_topic_id (ids : list Z) : Z :=
  match last ids with
  | Some l => wrap64 (l + 1)
  | None => 1
  end.

(** Nothing the store can reach has changed: the store object and the post
    memory are the same, and every topic cell holds what it held. *)
Definition unchanged (w w' : World) : Prop :=
  store w' = store w /\ postArrs w' = postArrs w
  /\ forall tp t, load (topicArrs w) tp = Some t ->
       load (topicArrs w') tp = Some t.

(** ** The records a post-creating call writes *)

Definition T_line (t : Topic) : string :=
  "T" +:+ itoa (Topic_Id t) +:+ "|" +:+ Subject t +:+ nl.

Definition P_line (t : Topic) (p : Post) : string :=
  let s2 := base64_EncodeToString (MessageSha1 p) in
  "P" +:+ itoa (Topic_Id t) +:+ "|" +:+ itoa (Post_Id p) +:+ "|"
  +:+ itoa (unix_sec (CreatedOn p)) +:+ "|"
  +:+ str_take (String.length s2 - 1) s2 +:+ "|" +:+ IpAddrInternal p
  +:+ "|" +:+ UserNameInternal p +:+ nl.

(** The post [addNewPost] makes for the topic [t] at the address [tp]. *)
Definition new_post (io : IO) (msg user ipAddr : string) (tp : TopicPtr)
    (t : Topic) : Post :=
  {| Post_Id := wrap64 (Z.of_nat (s_len (Posts t)) + 1);
     CreatedOn := io_now io;
     MessageSha1 := copy20 (Sha1OfBytes msg);
     UserNameInternal := remSep user;
     IpAddrInternal := remSep (ipAddrToInternal ipAddr);
     IsDeleted := false;
     Post_Topic := Some tp |}.

(** The state [NewStore] builds from a data file with the content [log]. *)
Definition replayed (log : string) : World :=
  match NewStore "data" "forum" (disk_with log ∅) with
  | Ret _ w => w
  | _ => blank_world
  end.

(** ** The order of the steps of a post-creating call *)



(** The topic [CreateNewPost] makes before it calls [addNewPost]. *)
Definition new_topic (subject : string) (id : Z) : Topic :=
  {| Topic_Id := id; Subject := remSep subject; Posts := empty_slice |}.





(** [append] to the slice can be served: a cell is free, or the capacity the
    runtime would grow to is still an [int]. *)
Definition room (s : Slice) : Prop :=
  (s_len s < s_cap s)%nat \/ Z.of_nat (growslice_cap (s_cap s)) <= maxInt.




(** The four lines [parsePost] prints for a record whose id is not the
    position of the post. *)
Definition unexpected_post_id (line : string) (topicId id realPostId : Z)
    (subject : string) : list Event :=
  [Printf ("!Unexpected post id:" +:+ nl);
   Printf ("  " +:+ line +:+ nl);
   Printf ("  id: " +:+ itoa topicId +:+ ", expectedId: " +:+ itoa id
           +:+ ", topicId: " +:+ itoa realPostId +:+ nl);
   Printf ("  " +:+ subject +:+ nl)].


(** A data file of one topic and one post record that claims the id 7. *)
Definition log_with_wrong_post_id : string :=
  "T1|Hello" +:+ nl
  +:+ "P1|7|100|VhcPVCmzXeoIG7ZZuIS0dcqTKak|7f000001|alice" +:+ nl.

(** ** Pages of topics *)

(** The addresses of [n] topics of a slice of [N] topics in the array [arr],
    newest first, from the one that is [i] back from the newest. *)
Definition page_ptrs (arr : nat) (N i n : Z) : list TopicPtr :=
  map (fun j => (arr, Z.to_nat (N - 1 - j))) (seqZ i n).

(** What a query that returns pointers to posts shows of their flags. *)
Definition shown_flags (query : M (list PostPtr)) (w : World)
  : option (list bool) :=
  match query w with
  | Ret ps w' => deleted_flags (view_posts w' ps)
  | _ => None
  end.

(** ** The names and the address of a post *)

(** [Post.IpAddress]. *)
Definition IpAddress (p : Post) : option string :=
  ipAddrInternalToOriginal (IpAddrInternal p).

(** [Post.IsTwitterUser]. *)
Definition IsTwitterUser (p : Post) : bool :=
  HasPrefix (UserNameInternal p) "t:".

(** [Post.UserName]; [s[2:]] is in range when [s] has the prefix. *)
Definition UserName (p : Post) : string :=
  let s := UserNameInternal p in
  if String.eqb s "t:kjk" then "Krzysztof Kowalczyk"
  else if IsTwitterUser p then str_drop 2 s
  else s.

(** [MakeInternalUserName]. *)
Definition MakeInternalUserName (userName : string) (twitter : bool)
  : string :=
  if twitter then "t:" +:+ userName
  else if (2 <=? slen userName)
          && match String.get 1 userName with
             | Some c => Ascii.eqb c ":"
             | None => false
             end then
    if 2 <? slen userName then str_drop 2 userName
    else str_take 1 userName
  else userName.

(** A post that carries the internal user name [s]. *)
Definition post_of_user (s : string) : Post :=
  {| Post_Id := 1; CreatedOn := zeroTime; MessageSha1 := EmptyString;
     UserNameInternal := s; IpAddrInternal := EmptyString;
     IsDeleted := false; Post_Topic := None |}.

(** ** Decimal and base64 text *)

(** Every byte of the string is a decimal digit. *)
Fixpoint all_digits (s : string) : bool :=
  match s with
  | EmptyString => true
  | String c s' =>
      match digit_val c with Some _ => true | None => false end
      && all_digits s'
  end.

(** What the decoder needs of one digit of the alphabet, checked on all 64. *)
Definition sextet_facts (v : Z) : bool :=
  match b64val (b64char v) with Some u => u =? v | None => false end
  && negb (is_newline (b64char v))
  && negb (Ascii.eqb (b64char v) "|")
  && negb (Ascii.eqb (b64char v) "=").

(** ** The records of the data file and the worlds after a write *)

(** A P record without its line feed. *)
Definition P_record (topicId id sec : Z) (sha ip user : string) : string :=
  let s2 := base64_EncodeToString sha in
  "P" +:+ itoa topicId +:+ "|" +:+ itoa id +:+ "|" +:+ itoa sec +:+ "|"
  +:+ str_take (String.length s2 - 1) s2 +:+ "|" +:+ ip +:+ "|" +:+ user.

(** The records of a deletion and of an undeletion. *)
Definition D_line (topicId postId : Z) : string :=
  "D" +:+ itoa topicId +:+ "|" +:+ itoa postId +:+ nl.

Definition U_line (topicId postId : Z) : string :=
  "U" +:+ itoa topicId +:+ "|" +:+ itoa postId +:+ nl.

(** The world after [text] was appended to the data file. *)
Definition logged (text : string) (w : World) : World :=
  emit (LogAppend text true) (set_logData (fun d => d +:+ text) w).

(** The world after the post at [pp] was replaced by [post] with the flag
    [b]. *)
Definition flagged (pp : PostPtr) (post : Post) (b : bool) (w : World)
  : World :=
  set_postArrs (fun mem => poke mem pp (set_IsDeleted b post)) w.

(** ** Lists of addresses and data files used in the statements *)

(** The addresses of [l], in order, whose post passes [keep]. *)
Fixpoint matching (keep : Post -> bool) (pm : list (list Post))
    (l : list PostPtr) : list PostPtr :=
  match l with
  | [] => []
  | pp :: l' =>
      match load pm pp with
      | Some p =>
          if keep p then pp :: matching keep pm l' else matching keep pm l'
      | None => matching keep pm l'
      end
  end.

(** The data is empty or its last byte is a line feed: what is appended to
    it starts a line. *)
Fixpoint ended (d : string) : bool :=
  match d with
  | EmptyString => true
  | String c EmptyString => Ascii.eqb c LF
  | String _ d' => ended d'
  end.

(** The data file after is the data file before with something appended. *)
Definition log_ext (w w' : World) : Prop :=
  exists t, logData w' = logData w +:+ t.

(** * Theorems *)

(** ** The libraries *)

Example Sha1OfBytes_abc :
  hex_EncodeToString (Sha1OfBytes "abc")
  = "a9993e364706816aba3e25717850c26c9cd0d89d".
Proof. vm_compute. reflexivity. Qed.

Example Sha1OfBytes_two_blocks :
  hex_EncodeToString
    (Sha1OfBytes "abcdbcdecdefdefgefghfghighijhijkijkljklmklmnlmnomnopnopq")
  = "84983e441c3bd26ebaae4aa1f95129e5e54670f1".
Proof. vm_compute. reflexivity. Qed.

Example base64_digest_round_trip :
  let d := copy20 (Sha1OfBytes "hi there") in
  let s := base64_EncodeToString d in
  base64_DecodeString (str_take (String.length s - 1) s +:+ "=") = Some d.
Proof. vm_compute. reflexivity. Qed.

Example Atoi_examples :
  Atoi "42" = (42, None) /\ Atoi "-7" = (-7, None) /\ Atoi "+7" = (7, None)
  /\ Atoi "4x" = (0, Some ErrSyntax) /\ Atoi "+" = (0, Some ErrSyntax)
  /\ Atoi "9223372036854775808" = (maxInt, Some ErrRange).
Proof. vm_compute. repeat split; reflexivity. Qed.

Example Split_examples :
  Split "a|b||c" "|" = ["a"; "b"; EmptyString; "c"]
  /\ Split EmptyString "|" = [EmptyString].
Proof. split; reflexivity. Qed.

Lemma Split_no_sep (s : string) (c : ascii) :
  has_byte c s = false -> Split s c = [s].
Proof.
  induction s as [|x s IH]; simpl; [done|].
  intros H. apply orb_false_iff in H as [Hx Hs].
  rewrite Hx, (IH Hs). done.
Qed.

Lemma Split_app (s1 s2 : string) (c : ascii) :
  has_byte c s1 = false ->
  Split (s1 +:+ String c s2) c = s1 :: Split s2 c.
Proof.
  induction s1 as [|x s1 IH]; simpl.
  - intros _. by rewrite Ascii.eqb_refl.
  - intros H. apply orb_false_iff in H as [Hx Hs].
    rewrite Hx, (IH Hs). done.
Qed.

Lemma byte_facts_all : forallb byte_facts (seqZ 0 256) = true.
Proof. vm_compute. reflexivity. Qed.

Lemma byte_facts_inv (n : Z) :
  0 <= n <= 255 ->
  has_byte "." (itoa n) = false /\ Atoi (itoa n) = (n, None)
  /\ byte_val (byte_of_int n) = n
  /\ exists x y, fromHexChar (hexdigit (n / 16)) = Some x
       /\ fromHexChar (hexdigit (n mod 16)) = Some y /\ x * 16 + y = n.
Proof.
  intros Hn.
  assert (byte_facts n = true) as H.
  { pose proof byte_facts_all as H. rewrite forallb_forall in H. apply H.
    apply list_elem_of_In, elem_of_seqZ. lia. }
  unfold byte_facts in H.
  repeat (apply andb_true_iff in H as [H ?]).
  split; [by apply negb_true_iff|].
  split.
  { destruct (Atoi (itoa n)) as [m [e|]]; [done|]. f_equal. lia. }
  split; [lia|].
  destruct (fromHexChar (hexdigit (n / 16))) as [x|]; [|done].
  destruct (fromHexChar (hexdigit (n mod 16))) as [y|]; [|done].
  exists x, y. repeat split; lia.
Qed.

Lemma hex_pair_decode (n : Z) (rest : string) :
  0 <= n <= 255 ->
  hex_DecodeString
    (String (hexdigit (n / 16)) (String (hexdigit (n mod 16)) rest))
  = match hex_DecodeString rest with
    | Some r => Some (String (byte_of_int n) r)
    | None => None
    end.
Proof.
  intros Hn.
  destruct (byte_facts_inv n Hn) as (_ & _ & _ & x & y & Hx & Hy & E).
  cbn [hex_DecodeString]. rewrite Hx, Hy, E. done.
Qed.

Lemma ipAddrToInternal_dotted (a b c d : Z) :
  0 <= a <= 255 -> 0 <= b <= 255 -> 0 <= c <= 255 -> 0 <= d <= 255 ->
  ipAddrToInternal (dotted a b c d)
  = hex_EncodeToString
      (string_of_list [byte_of_int a; byte_of_int b; byte_of_int c;
                       byte_of_int d]).
Proof.
  intros Ha Hb Hc Hd.
  destruct (byte_facts_inv a Ha) as (Da & Aa & _).
  destruct (byte_facts_inv b Hb) as (Db & Ab & _).
  destruct (byte_facts_inv c Hc) as (Dc & Ac & _).
  destruct (byte_facts_inv d Hd) as (Dd & Ad & _).
  unfold ipAddrToInternal.
  assert (Split (dotted a b c d) "." = [itoa a; itoa b; itoa c; itoa d]) as ->.
  { change (dotted a b c d) with
      (itoa a +:+ String "."
         (itoa b +:+ String "." (itoa c +:+ String "." (itoa d)))).
    rewrite (Split_app (itoa a)), (Split_app (itoa b)), (Split_app (itoa c)),
      Split_no_sep by done.
    done. }
  change (len [itoa a; itoa b; itoa c; itoa d] =? 4) with true.
  cbn [map]. rewrite Aa, Ab, Ac, Ad. done.
Qed.

Lemma ip_round_trip (a b c d : Z) :
  0 <= a <= 255 -> 0 <= b <= 255 -> 0 <= c <= 255 -> 0 <= d <= 255 ->
  ipAddrInternalToOriginal (ipAddrToInternal (dotted a b c d))
  = Some (dotted a b c d).
Proof.
  intros Ha Hb Hc Hd.
  rewrite ipAddrToInternal_dotted by done.
  destruct (byte_facts_inv a Ha) as (_ & _ & Va & _).
  destruct (byte_facts_inv b Hb) as (_ & _ & Vb & _).
  destruct (byte_facts_inv c Hc) as (_ & _ & Vc & _).
  destruct (byte_facts_inv d Hd) as (_ & _ & Vd & _).
  cbn [string_of_list hex_EncodeToString]. rewrite Va, Vb, Vc, Vd.
  unfold ipAddrInternalToOriginal.
  cbn [slen String.length].
  change (Z.of_nat 8 =? 7) with false. change (Z.of_nat 8 =? 8) with true.
  cbv iota.
  rewrite !hex_pair_decode by done.
  cbn [hex_DecodeString]. unfold sprintf_quad. cbn [list_of_string].
  rewrite Va, Vb, Vc, Vd. done.
Qed.

Lemma legacy_seven_chars (s7 d : string) :
  String.length s7 = 7%nat ->
  hex_DecodeString ("0" +:+ s7) = Some d ->
  ipAddrInternalToOriginal s7 = sprintf_quad d
  /\ ipAddrInternalToOriginal ("0" +:+ s7) = sprintf_quad d.
Proof.
  intros L H. unfold ipAddrInternalToOriginal.
  change (slen ("0" +:+ s7)) with (Z.of_nat (S (String.length s7))).
  unfold slen. rewrite L.
  change (Z.of_nat 7 =? 7) with true. change (Z.of_nat 8 =? 7) with false.
  change (Z.of_nat 8 =? 8) with true. cbv iota.
  rewrite H. done.
Qed.

(** The encoding of a string of four parts holds the low byte of what
    [Atoi] reads in each part, and decoding prints the four bytes in
    decimal. *)
Lemma ip_normalised (s p1 p2 p3 p4 : string) (a b c d : Z) :
  Split s "." = [p1; p2; p3; p4] ->
  fst (Atoi p1) = a -> fst (Atoi p2) = b -> fst (Atoi p3) = c ->
  fst (Atoi p4) = d ->
  0 <= a <= 255 -> 0 <= b <= 255 -> 0 <= c <= 255 -> 0 <= d <= 255 ->
  ipAddrInternalToOriginal (ipAddrToInternal s) = Some (dotted a b c d).
Proof.
  intros HS Ea Eb Ec Ed Ha Hb Hc Hd.
  rewrite <- (ip_round_trip a b c d) by done.
  f_equal. rewrite ipAddrToInternal_dotted by done.
  unfold ipAddrToInternal. rewrite HS.
  change (len [p1; p2; p3; p4] =? 4) with true.
  cbn [map]. by rewrite Ea, Eb, Ec, Ed.
Qed.

(** C9. The address codec. Encoding "1.2.3.4" and decoding the result gives
    "1.2.3.4" back; so does every dotted address whose four components are
    numbers in 0..255 printed in decimal without sign or leading zero. For
    every string of four parts in which [Atoi] reads numbers in 0..255,
    decoding the encoding gives these four numbers printed that way, which
    is the string itself only when it was written that way. A legacy text of
    seven hexadecimal digits decodes to the same dotted address as the eight
    digits it stands for; and a string that does not split into four parts
    at its dots is encoded as itself. *)
Theorem C9_ip_codec_round_trip :
  ipAddrInternalToOriginal (ipAddrToInternal "1.2.3.4") = Some "1.2.3.4"
  /\ (forall a b c d : Z,
        0 <= a <= 255 -> 0 <= b <= 255 -> 0 <= c <= 255 -> 0 <= d <= 255 ->
        ipAddrInternalToOriginal (ipAddrToInternal (dotted a b c d))
        = Some (dotted a b c d))
  /\ (forall (s p1 p2 p3 p4 : string) (a b c d : Z),
        Split s "." = [p1; p2; p3; p4] ->
        Atoi p1 = (a, None) -> Atoi p2 = (b, None) ->
        Atoi p3 = (c, None) -> Atoi p4 = (d, None) ->
        0 <= a <= 255 -> 0 <= b <= 255 -> 0 <= c <= 255 -> 0 <= d <= 255 ->
        ipAddrInternalToOriginal (ipAddrToInternal s)
        = Some (dotted a b c d))
  /\ (forall s7 bytes : string,
        String.length s7 = 7%nat ->
        hex_DecodeString ("0" +:+ s7) = Some bytes ->
        ipAddrInternalToOriginal s7 = ipAddrInternalToOriginal ("0" +:+ s7)
        /\ ipAddrInternalToOriginal s7 = sprintf_quad bytes)
  /\ (forall s : string, len (Split s ".") <> 4 -> ipAddrToInternal s = s).
Proof.
  split; [vm_compute; reflexivity|].
  split; [exact ip_round_trip|].
  split.
  { intros s p1 p2 p3 p4 a b c d HS A1 A2 A3 A4.
    apply (ip_normalised s p1 p2 p3 p4); [done|..].
    - by rewrite A1.
    - by rewrite A2.
    - by rewrite A3.
    - by rewrite A4. }
  split.
  - intros s7 d L H. destruct (legacy_seven_chars s7 d L H) as [E1 E2].
    split; congruence.
  - intros s H. unfold ipAddrToInternal.
    destruct (Z.eqb_spec (len (Split s ".")) 4); [done|done].
Qed.

Lemma C9_ip_codec_round_trip_witness :
  ipAddrInternalToOriginal (ipAddrToInternal (dotted 192 168 0 255))
  = Some "192.168.0.255"
  /\ ipAddrInternalToOriginal (ipAddrToInternal "+10.020.0.1")
     = Some "10.20.0.1"
  /\ ipAddrInternalToOriginal "1020304" = Some "1.2.3.4"
  /\ ipAddrInternalToOriginal "01020304" = Some "1.2.3.4"
  /\ ipAddrToInternal "::1" = "::1".
Proof.
  destruct C9_ip_codec_round_trip as (_ & H2 & H2' & H3 & H4).
  split; [apply (H2 192 168 0 255); lia|].
  split.
  { apply (H2' "+10.020.0.1" "+10" "020" "0" "1" 10 20 0 1);
      (reflexivity || lia). }
  split.
  { destruct (H3 "1020304" (string_of_list
       [byte_of_int 1; byte_of_int 2; byte_of_int 3; byte_of_int 4]))
      as [_ E]; [reflexivity|reflexivity|].
    rewrite E. reflexivity. }
  split.
  { destruct (H3 "1020304" (string_of_list
       [byte_of_int 1; byte_of_int 2; byte_of_int 3; byte_of_int 4]))
      as [E1 E2]; [reflexivity|reflexivity|].
    transitivity (ipAddrInternalToOriginal "1020304");
      [symmetry; exact E1|rewrite E2; reflexivity]. }
  apply (H4 "::1"). vm_compute. discriminate.
Defined.

(** C9, as the spec states it for every address of four components in
    0..255, fails: "01.2.3.4" splits into four parts in which [Atoi] reads
    1, 2, 3 and 4, and decoding its encoding gives "1.2.3.4", not the
    string that was encoded. *)
Lemma C9_leading_zero_is_not_given_back :
  Split "01.2.3.4" "." = ["01"; "2"; "3"; "4"]
  /\ Atoi "01" = (1, None) /\ Atoi "2" = (2, None)
  /\ Atoi "3" = (3, None) /\ Atoi "4" = (4, None)
  /\ ipAddrInternalToOriginal (ipAddrToInternal "01.2.3.4") = Some "1.2.3.4"
  /\ ipAddrInternalToOriginal (ipAddrToInternal "01.2.3.4")
     <> Some "01.2.3.4".
Proof.
  repeat split; try (vm_compute; reflexivity).
  vm_compute. discriminate.
Qed.

(** ** The store on concrete sessions *)

(** The scenario of the spec: a topic, a second post from a tagged identity,
    the second post deleted, and the store opened again. *)
Example end_to_end_scenario :
  match session [Call_CreateNewPost (clock 100) "Hello" "hi there" "alice"
                   "127.0.0.1";
                 Call_AddPostToTopic (clock 101) 1 "second" "t:kjk"
                   "127.0.0.1";
                 Call_DeletePost None 1 2] with
  | Ret errs w =>
      errs = [None; None; None]
      /\ logData w
         = "T1|Hello" +:+ nl
           +:+ "P1|1|100|VhcPVCmzXeoIG7ZZuIS0dcqTKak|7f000001|alice" +:+ nl
           +:+ "P1|2|101|NS94KaI4SwAcwSsMJhPHVkVKH2o|7f000001|t:kjk" +:+ nl
           +:+ "D1|2" +:+ nl
      /\ match reopen w with
         | Ret err w' =>
             err = None
             /\ topic_ids w' = Some [1]
             /\ post_ids w' = Some [[1; 2]]
             /\ topic_flags w' = Some [[false; true]]
             /\ view_topics w' = view_topics w
             /\ view_recent w' = view_recent w
         | _ => False
         end
  | _ => False
  end.
Proof. vm_compute. repeat split; reflexivity. Qed.

(** C2. [blockIp] and [unblockIp] append one string to the log, but it begins
    with U and a colon, not with B, and no line feed ends it: on the address
    "1.2.3.4" the log of a new store becomes the twelve bytes
    [U:01020304|1]. *)
Theorem C2_blockIp_record_is_not_a_B_line :
  (forall (w : World) (ipAddr : string),
      BlockIp None ipAddr w
      = Ret tt (emit (LogAppend ("U:" +:+ ipAddrToInternal ipAddr +:+ "|1")
                        true)
                  (set_logData
                     (fun d => d +:+ "U:" +:+ ipAddrToInternal ipAddr +:+ "|1")
                     w))
      /\ UnblockIp None ipAddr w
         = Ret tt (emit (LogAppend ("U:" +:+ ipAddrToInternal ipAddr +:+ "|0")
                           true)
                     (set_logData
                        (fun d =>
                           d +:+ "U:" +:+ ipAddrToInternal ipAddr +:+ "|0")
                        w)))
  /\ match session [Call_BlockIp None "1.2.3.4"] with
     | Ret errs w =>
         logData w = "U:01020304|1"
         /\ String.get 0 (logData w) = Some "U"%char
         /\ has_byte LF (logData w) = false
     | _ => False
     end.
Proof.
  split; [intros w ip; split; reflexivity|].
  vm_compute. repeat split; reflexivity.
Qed.

(** C3. The global post sequence goes stale. After a topic is created, a
    second post is appended to it and the first post is deleted (all three
    calls succeed), the topic shows its first post as deleted, while the
    entry of the same post in the global sequence, as [GetRecentPosts],
    [GetPostsByUserInternal] and [GetPostsByIpInternal] return it, still
    shows it as not deleted: the append moved the topic's posts to a new
    array and the global sequence kept the address of the old cell. *)
Theorem C3_global_sequence_goes_stale :
  match session [Call_CreateNewPost (clock 100) "Hello" "hi there" "alice"
                   "127.0.0.1";
                 Call_AddPostToTopic (clock 101) 1 "second" "bob"
                   "127.0.0.2";
                 Call_DeletePost None 1 1] with
  | Ret errs w =>
      errs = [None; None; None]
      /\ topic_flags w = Some [[true; false]]
      /\ option_map (map pv_UserNameInternal) (view_recent w)
         = Some ["alice"; "bob"]
      /\ deleted_flags (view_recent w) = Some [false; false]
      /\ shown_flags (GetRecentPosts 2) w = Some [false; false]
      /\ shown_flags (GetPostsByUserInternal "alice" 5) w = Some [false]
      /\ shown_flags (GetPostsByIpInternal "7f000001" 5) w = Some [false]
  | _ => False
  end.
Proof. vm_compute. repeat split; reflexivity. Qed.

(** C1. Closing and reopening does not give the state back. After two topics
    are created and a post is added to the first, the first topic owns two
    posts; the store opened again from the log these calls wrote owns one:
    the replayer appends through the address of the topic's cell in an
    array that the second [T] record relocated. And after one [BlockIp] the
    log cannot be replayed at all. *)
Theorem C1_reopen_changes_the_state :
  match session [Call_CreateNewPost (clock 100) "A" "m1" "alice" "127.0.0.1";
                 Call_CreateNewPost (clock 101) "B" "m2" "bob" "127.0.0.1";
                 Call_AddPostToTopic (clock 102) 1 "m3" "carol" "127.0.0.1"]
  with
  | Ret errs w =>
      errs = [None; None; None]
      /\ post_ids w = Some [[1; 2]; [1]]
      /\ match reopen w with
         | Ret err w' =>
             err = None
             /\ post_ids w' = Some [[1]; [1]]
             /\ view_topics w' <> view_topics w
         | _ => False
         end
  | _ => False
  end
  /\ match session [Call_BlockIp None "1.2.3.4"] with
     | Ret errs w => reopen w = Panic "idx shouldn't be -1"
     | _ => False
     end.
Proof.
  split.
  - vm_compute. repeat split; try reflexivity. discriminate.
  - vm_compute. reflexivity.
Qed.

(** ** Go integers *)

Lemma wrap64_small (z : Z) : minInt <= z <= maxInt -> wrap64 z = z.
Proof.
  unfold wrap64, minInt, maxInt. intros H.
  rewrite Z.mod_small; lia.
Qed.

Lemma addr_of_in (s : Slice) (i : Z) (w : World) :
  0 <= i < Z.of_nat (s_len s) -> addr_of s i w = Ret (s_arr s, Z.to_nat i) w.
Proof.
  intros H. unfold addr_of.
  destruct (Z.leb_spec 0 i); [|lia]. destruct (Z.ltb_spec i (Z.of_nat (s_len s))); [|lia].
  done.
Qed.

Lemma addr_of_out (s : Slice) (i : Z) (w : World) :
  i < 0 \/ Z.of_nat (s_len s) <= i -> addr_of s i w = Panic "index out of range".
Proof.
  intros H. unfold addr_of.
  destruct (Z.leb_spec 0 i); destruct (Z.ltb_spec i (Z.of_nat (s_len s))); try lia; done.
Qed.


(** ** Memory *)

Section memory.
Context {A : Type}.
Implicit Types (mem : list (list A)) (p q : nat * nat).
Implicit Types (x y : A) (s : Slice).

Lemma load_Some mem p y :
  load mem p = Some y <->
  exists cells, mem !! p.1 = Some cells /\ cells !! p.2 = Some y.
Proof.
  unfold load. destruct (mem !! p.1) as [cells|]; split.
  - intros H. eauto.
  - by intros (cells' & [= <-] & H).
  - done.
  - by intros (cells' & [=] & _).
Qed.

Lemma poke_lookup mem p x (a : nat) :
  poke mem p x !! a
  = if decide (a = p.1) then <[p.2 := x]> <$> mem !! a else mem !! a.
Proof.
  unfold poke. destruct (mem !! p.1) as [cells|] eqn:E.
  - case_decide as D.
    + subst a. rewrite E. cbn. apply list_lookup_insert_eq.
      by eapply lookup_lt_Some.
    + by apply list_lookup_insert_ne.
  - case_decide as D; [|done]. subst a. by rewrite E.
Qed.

Lemma load_poke mem p q x y :
  load (poke mem p x) q = Some y ->
  (q = p /\ y = x) \/ load mem q = Some y.
Proof.
  rewrite !load_Some. intros (cells & Hc & Hy).
  rewrite poke_lookup in Hc. case_decide as D.
  - destruct (mem !! q.1) as [old|] eqn:E; [|done]. cbn in Hc.
    injection Hc as <-.
    destruct (decide (q.2 = p.2)) as [D2|D2].
    + rewrite D2 in Hy.
      assert (p.2 < length old)%nat as Hlt.
      { apply lookup_lt_Some in Hy. by rewrite length_insert in Hy. }
      rewrite list_lookup_insert_eq in Hy by done.
      left. split; [|congruence]. destruct p, q; cbn in *; congruence.
    + rewrite list_lookup_insert_ne in Hy by done. right. eauto.
  - right. eauto.
Qed.

Lemma load_poke_eq mem p x :
  is_Some (load mem p) -> load (poke mem p x) p = Some x.
Proof.
  intros [y Hy]. apply load_Some in Hy as (cells & Hc & Hy).
  apply load_Some. exists (<[p.2 := x]> cells). split.
  - rewrite poke_lookup. rewrite decide_True by done. by rewrite Hc.
  - apply list_lookup_insert_eq. by eapply lookup_lt_Some.
Qed.

Lemma load_poke_ne mem p q x : q <> p -> load (poke mem p x) q = load mem q.
Proof.
  intros Hne. unfold load. rewrite poke_lookup. case_decide as D; [|done].
  destruct (mem !! q.1) as [cells|]; [|done]. cbn.
  apply list_lookup_insert_ne. intros E. apply Hne. destruct p, q; cbn in *; congruence.
Qed.

Lemma load_app_l mem extra p y :
  load mem p = Some y -> load (mem ++ extra) p = Some y.
Proof.
  rewrite !load_Some. intros (cells & Hc & Hy). exists cells. split; [|done].
  by apply lookup_app_l_Some.
Qed.

Lemma load_snoc mem cells p y :
  load (mem ++ [cells]) p = Some y ->
  load mem p = Some y \/ (p.1 = length mem /\ cells !! p.2 = Some y).
Proof.
  rewrite !load_Some. intros (cs & Hc & Hy).
  apply lookup_app_Some in Hc as [Hc|[Hge Hc]].
  - left. eauto.
  - right. apply list_lookup_singleton_Some in Hc as [Hz <-]. split; [lia|done].
Qed.

Lemma mem_le_refl mem : mem_le mem mem.
Proof. intros a cells H. eauto. Qed.

Lemma mem_le_trans (m1 m2 m3 : list (list A)) :
  mem_le m1 m2 -> mem_le m2 m3 -> mem_le m1 m3.
Proof.
  intros H12 H23 a cells H. destruct (H12 a cells H) as (c2 & H2 & L2).
  destruct (H23 a c2 H2) as (c3 & H3 & L3). exists c3. split; [done|congruence].
Qed.

Lemma mem_le_poke mem p x : mem_le mem (poke mem p x).
Proof.
  intros a cells H. rewrite poke_lookup. case_decide.
  - rewrite H. cbn. eexists. split; [done|]. apply length_insert.
  - eauto.
Qed.

Lemma mem_le_app mem extra : mem_le mem (mem ++ extra).
Proof. intros a cells H. exists cells. split; [by apply lookup_app_l_Some|done]. Qed.

Lemma hdr_ok_le mem mem' s : mem_le mem mem' -> hdr_ok mem s -> hdr_ok mem' s.
Proof.
  intros Hle (Hlen & Hcap & Hcells). repeat split; [done..|].
  destruct Hcells as [?|(cells & Hc & L)]; [by left|right].
  destruct (Hle _ _ Hc) as (cells' & Hc' & L'). exists cells'. split; [done|congruence].
Qed.

Lemma hdr_ok_empty mem : hdr_ok mem empty_slice.
Proof. unfold hdr_ok, maxInt. cbn. repeat split; [lia..|by left]. Qed.

Lemma slice_cells_Some mem s cs :
  slice_cells mem s = Some cs ->
  length cs = s_len s
  /\ forall i y, cs !! i = Some y <-> (i < s_len s)%nat /\ load mem (s_arr s, i) = Some y.
Proof.
  unfold slice_cells. destruct (s_len s) as [|n] eqn:En.
  - intros [= <-]. split; [done|]. intros i y. split; [done|lia].
  - destruct (mem !! s_arr s) as [cells|] eqn:E; [|done].
    destruct (Nat.leb_spec (S n) (length cells)); [|done].
    intros [= <-]. split; [rewrite length_take; lia|].
    intros i y. rewrite load_Some. cbn. rewrite E. split.
    + intros H'. pose proof (lookup_lt_Some _ _ _ H') as Hlt.
      rewrite length_take in Hlt.
      rewrite lookup_take_lt in H' by lia. split; [lia|eauto].
    + intros [Hlt (cells' & [= <-] & Hy)]. by rewrite lookup_take_lt by lia.
Qed.

Lemma slice_cells_ok mem s :
  hdr_ok mem s -> exists cs, slice_cells mem s = Some cs.
Proof.
  intros (Hlen & _ & Hcells). unfold slice_cells.
  destruct (s_len s) as [|n] eqn:En; [eauto|].
  destruct Hcells as [Hz|(cells & Hc & L)]; [lia|].
  rewrite Hc. destruct (Nat.leb_spec (S n) (length cells)); [eauto|lia].
Qed.

Lemma slice_cells_intro mem s cells :
  mem !! s_arr s = Some cells -> (s_len s <= length cells)%nat ->
  slice_cells mem s = Some (take (s_len s) cells).
Proof.
  intros E L. unfold slice_cells. rewrite E.
  destruct (s_len s) as [|n]; [done|].
  destruct (Nat.leb_spec (S n) (length cells)); [done|lia].
Qed.

Lemma slice_cells_take mem s cs cells :
  slice_cells mem s = Some cs -> mem !! s_arr s = Some cells ->
  cs = take (s_len s) cells.
Proof.
  unfold slice_cells. intros H E. rewrite E in H.
  destruct (s_len s) as [|n]; [by injection H as <-|].
  destruct (S n <=? length cells)%nat; [|done]. by injection H as <-.
Qed.

Lemma growslice_cap_gt (c : nat) : (c < growslice_cap c)%nat.
Proof.
  unfold growslice_cap. destruct c as [|c]; [lia|].
  destruct (Nat.ltb_spec (S c) 1024); [lia|].
  assert (1 <= S c / 4)%nat; [|lia].
  apply Nat.div_le_lower_bound; lia.
Qed.

(** What a successful [append] does to the memory and to the slice. *)
Lemma append_cells_grown zero mem s x mem' s' :
  append_cells zero mem s x = grown mem' s' ->
  mem_le mem mem'
  /\ s_len s' = S (s_len s)
  /\ (forall q y, is_Some (load mem q) -> load mem' q = Some y ->
        load mem q = Some y \/ (q = (s_arr s, s_len s) /\ y = x))
  /\ (forall q y, load mem' q = Some y ->
        (exists q', load mem q' = Some y) \/ y = x \/ y = zero)
  /\ (forall cs, slice_cells mem s = Some cs ->
        slice_cells mem' s' = Some (cs ++ [x]))
  /\ (hdr_ok mem s -> hdr_ok mem' s').
Proof.
  unfold append_cells.
  destruct (Nat.ltb_spec (s_len s) (s_cap s)) as [Hlt|Hge].
  - (* in place *)
    destruct (mem !! s_arr s) as [cells|] eqn:E; [|done].
    destruct (Nat.leb_spec (s_cap s) (length cells)) as [Hcap|]; [|done].
    intros [= <- <-].
    split; [apply mem_le_poke|]. split; [done|].
    split.
    { intros q y _ Hq. apply load_poke in Hq. tauto. }
    split.
    { intros q y Hq. apply load_poke in Hq as [[_ ->]|Hq]; [tauto|eauto]. }
    split.
    { intros cs Hcs.
      rewrite (slice_cells_take _ _ _ _ Hcs E).
      erewrite slice_cells_intro; cycle 1.
      - cbn [s_arr]. rewrite poke_lookup, decide_True by done.
        rewrite E. done.
      - cbn [s_len snd]. rewrite length_insert. lia.
      - cbn [s_len snd]. f_equal. rewrite (take_S_r _ _ x).
        + rewrite take_insert_ge by lia. done.
        + apply list_lookup_insert_eq. lia. }
    intros (Hlen & Hmax & Hcells).
    split; [cbn [s_len s_cap]; lia|]. split; [done|].
    right. exists (<[s_len s := x]> cells). split.
    + cbn [s_arr]. rewrite poke_lookup, decide_True by done. by rewrite E.
    + rewrite length_insert. cbn [s_cap].
      destruct Hcells as [?|(c & Hc & L)]; [lia|congruence].
  - (* into a new array *)
    pose proof (growslice_cap_gt (s_cap s)) as Hg.
    destruct (Z.ltb_spec maxInt (Z.of_nat (growslice_cap (s_cap s)))) as [|Hmax]; [done|].
    destruct (slice_cells mem s) as [old|] eqn:Hold; [|done].
    intros [= <- <-].
    split; [apply mem_le_app|]. split; [done|].
    split.
    { intros q y [y0 Hy0] Hq. left. rewrite (load_app_l _ _ _ _ Hy0) in Hq. congruence. }
    split.
    { intros q y Hq. apply load_snoc in Hq as [?|[_ Hq]]; [eauto|].
      apply lookup_app_Some in Hq as [Hq|[_ Hq]].
      - left. apply slice_cells_Some in Hold as [_ Hold].
        apply Hold in Hq as [_ Hq]. eauto.
      - destruct (q.2 - length old)%nat as [|k]; cbn in Hq.
        + injection Hq as <-. tauto.
        + apply lookup_replicate in Hq as [-> _]. tauto. }
    split.
    { intros cs [= <-].
      apply slice_cells_Some in Hold as [Hold _].
      erewrite slice_cells_intro; cycle 1.
      - cbn [s_arr]. rewrite lookup_app_r by done.
        rewrite Nat.sub_diag. done.
      - cbn [s_len]. rewrite !length_app. cbn [length]. lia.
      - cbn [s_len]. f_equal.
        change (old ++ [x] ++ ?r) with (old ++ x :: r).
        rewrite (cons_middle x old), app_assoc.
        apply take_app_length'. rewrite length_app. cbn [length]. lia. }
    intros (Hlen & _ & _).
    split; [cbn [s_len s_cap]; lia|]. split; [done|].
    right. eexists. split.
    + cbn [s_arr]. rewrite lookup_app_r by done. by rewrite Nat.sub_diag.
    + apply slice_cells_Some in Hold as [Hold _].
      rewrite length_app. change ([x] ++ ?r) with (x :: r).
      cbn [length s_cap]. rewrite length_replicate. lia.
Qed.
End memory.

(** ** The monad *)

Lemma bind_inv {A B} (m : M A) (k : A -> M B) (w : World) (b : B) (w2 : World) :
  bind m k w = Ret b w2 -> exists a w1, m w = Ret a w1 /\ k a w1 = Ret b w2.
Proof. unfold bind. destruct (m w) as [a w1| | |]; [eauto|done..]. Qed.

Lemma must_inv {A} (o : option A) (w : World) (a : A) (w' : World) :
  must o w = Ret a w' -> o = Some a /\ w' = w.
Proof. destruct o; cbn; [|done]. by intros [= -> ->]. Qed.

Lemma load_topic_inv (p : TopicPtr) (w : World) (t : Topic) (w' : World) :
  load_topic p w = Ret t w' -> load (topicArrs w) p = Some t /\ w' = w.
Proof. apply must_inv. Qed.

Lemma load_post_inv (p : PostPtr) (w : World) (x : Post) (w' : World) :
  load_post p w = Ret x w' -> load (postArrs w) p = Some x /\ w' = w.
Proof. apply must_inv. Qed.

Lemma append_Post_inv (s : Slice) (x : Post) (w : World) (s' : Slice) (w' : World) :
  append_Post s x w = Ret s' w' ->
  exists mem, append_cells zeroPost (postArrs w) s x = grown mem s'
    /\ w' = set_postArrs (fun _ => mem) w.
Proof.
  unfold append_Post. destruct (append_cells _ _ _ _) as [mem s0| |]; [|done..].
  intros [= -> <-]. eauto.
Qed.

Lemma append_Topic_inv (s : Slice) (x : Topic) (w : World) (s' : Slice) (w' : World) :
  append_Topic s x w = Ret s' w' ->
  exists mem, append_cells zeroTopic (topicArrs w) s x = grown mem s'
    /\ w' = set_topicArrs (fun _ => mem) w.
Proof.
  unfold append_Topic. destruct (append_cells _ _ _ _) as [mem s0| |]; [|done..].
  intros [= -> <-]. eauto.
Qed.

Lemma addr_of_inv (s : Slice) (i : Z) (w : World) (p : nat * nat) (w' : World) :
  addr_of s i w = Ret p w' ->
  0 <= i < Z.of_nat (s_len s) /\ p = (s_arr s, Z.to_nat i) /\ w' = w.
Proof.
  unfold addr_of. destruct (Z.leb_spec 0 i); [|done].
  destruct (Z.ltb_spec i (Z.of_nat (s_len s))); [|done].
  cbn. intros [= <- <-]. done.
Qed.

Lemma ret_inv {A} (a : A) (w : World) (b : A) (w' : World) :
  ret a w = Ret b w' -> b = a /\ w' = w.
Proof. by intros [= -> ->]. Qed.

Lemma get_inv (w : World) (b : World) (w' : World) :
  get w = Ret b w' -> b = w /\ w' = w.
Proof. by intros [= -> ->]. Qed.

Lemma modify_inv (f : World -> World) (w : World) (b : unit) (w' : World) :
  modify f w = Ret b w' -> w' = f w.
Proof. by intros [= <-]. Qed.

(** Decompose the hypotheses [prog w = Ret r w'] along the binds of [prog]. *)
Ltac minv1 :=
  match goal with
  | H : bind _ _ _ = Ret _ _ |- _ =>
      apply bind_inv in H as (? & ? & ? & H); cbv beta in H
  | H : load_topic _ _ = Ret _ _ |- _ => apply load_topic_inv in H as [? ->]
  | H : load_post _ _ = Ret _ _ |- _ => apply load_post_inv in H as [? ->]
  | H : must _ _ = Ret _ _ |- _ => apply must_inv in H as [? ->]
  | H : ret _ _ = Ret _ _ |- _ =>
      apply ret_inv in H as [H ->];
      match type of H with
      | ?b = ?a =>
          first [subst b | subst a | injection H as -> | injection H as <-
                | idtac]
      end
  | H : get _ = Ret _ _ |- _ => apply get_inv in H as [-> ->]
  | H : modify _ _ = Ret _ _ |- _ => apply modify_inv in H as ->
  | H : addr_of _ _ _ = Ret _ _ |- _ => apply addr_of_inv in H as (? & -> & ->)
  | H : panic _ _ = Ret _ _ |- _ => discriminate H
  | H : fault _ = Ret _ _ |- _ => discriminate H
  end.

Ltac minv := repeat minv1.

Lemma positional_step (pm pm' : list (list Post)) (s : Slice) :
  hdr_ok pm s -> positional pm s -> post_step pm pm' -> positional pm' s.
Proof.
  intros (Hlen & _ & Hcells) Hpos [Hle Hstep] i p' Hi Hp'.
  destruct Hcells as [?|(cells & Hc & L)]; [lia|].
  destruct (lookup_lt_is_Some_2 cells i) as [p Hp]; [lia|].
  assert (load pm (s_arr s, i) = Some p) as Hl by (apply load_Some; eauto).
  destruct (Hstep _ _ _ Hl Hp') as [E|E]; [|done].
  rewrite E. eauto.
Qed.

Lemma mem_ok_post_step tm pm pm' :
  mem_ok tm pm -> post_step pm pm' -> mem_ok tm pm'.
Proof.
  intros Hok Hstep tp t Ht. destruct (Hok tp t Ht) as [Hh Hp]. split.
  - eapply hdr_ok_le; [apply Hstep|done].
  - by eapply positional_step.
Qed.

Lemma mem_ok_topics tm tm' pm :
  mem_ok tm pm ->
  (forall tp t', load tm' tp = Some t' ->
     (exists tp0 t0, load tm tp0 = Some t0 /\ Posts t' = Posts t0)
     \/ (hdr_ok pm (Posts t') /\ positional pm (Posts t'))) ->
  mem_ok tm' pm.
Proof.
  intros Hok H tp t' Ht'. destruct (H tp t' Ht') as [(tp0 & t0 & H0 & ->)|?]; [|done].
  eauto.
Qed.

(** A successful [append] of a post whose id is the next position. *)
Lemma append_cells_Post (pm : list (list Post)) (s : Slice) (x : Post)
    (pm' : list (list Post)) (s' : Slice) :
  append_cells zeroPost pm s x = grown pm' s' ->
  hdr_ok pm s -> positional pm s ->
  Post_Id x = wrap64 (Z.of_nat (s_len s) + 1) ->
  post_step pm pm' /\ hdr_ok pm' s' /\ positional pm' s'
  /\ Post_Id x = Z.of_nat (s_len s) + 1.
Proof.
  intros Happ Hh Hp Hid.
  destruct (append_cells_grown _ _ _ _ _ _ Happ) as (Hle & Hlen & Hold & _ & Hcells & Hh').
  specialize (Hh' Hh).
  assert (Post_Id x = Z.of_nat (s_len s) + 1) as Hid'.
  { rewrite Hid. apply wrap64_small. destruct Hh' as (L & C & _).
    unfold minInt. lia. }
  split; [|split; [done|split; [|done]]].
  - split; [done|]. intros pp p p' Hl Hl'.
    destruct (Hold pp p' (ex_intro _ p Hl) Hl') as [E|[-> ->]].
    + left. congruence.
    + right. cbn. lia.
  - destruct (slice_cells_ok _ _ Hh) as [cs Hcs].
    pose proof (Hcells cs Hcs) as Hcs'.
    apply slice_cells_Some in Hcs as [Lcs Hcs].
    apply slice_cells_Some in Hcs' as [_ Hcs'].
    intros i p Hi Hl. rewrite Hlen in Hi.
    assert ((cs ++ [x]) !! i = Some p) as Hin by (apply Hcs'; split; [lia|done]).
    apply lookup_app_Some in Hin as [Hin|[Hge Hin]].
    + apply Hcs in Hin as [Hlt Hin]. eauto.
    + apply list_lookup_singleton_Some in Hin as [Hz <-]. rewrite Hid'. lia.
Qed.

(** ** Calls that leave the memory alone *)

Lemma same_mem_refl (w : World) : same_mem w w.
Proof. done. Qed.

Lemma same_mem_trans (w1 w2 w3 : World) :
  same_mem w1 w2 -> same_mem w2 w3 -> same_mem w1 w3.
Proof. intros (A & B & C) (A' & B' & C'). repeat split; congruence. Qed.

Lemma fmt_Printf_inv (text : string) (w : World) (u : unit) (w' : World) :
  fmt_Printf text w = Ret u w' -> w' = emit (Printf text) w.
Proof. apply modify_inv. Qed.

Ltac minv2 :=
  match goal with
  | H : fmt_Printf _ _ = Ret _ _ |- _ => apply fmt_Printf_inv in H as ->
  | H : (if ?c then _ else _) _ = Ret _ _ |- _ => destruct c eqn:?
  | H : (match ?x with _ => _ end) _ = Ret _ _ |- _ => destruct x eqn:?
  | H : (let '(_, _) := ?x in _) _ = Ret _ _ |- _ => destruct x eqn:?
  end.

Ltac minvs := repeat first [minv1 | minv2].

Lemma parseTopic_inv (line : string) (w : World) (t : Topic) (w' : World) :
  parseTopic line w = Ret t w' ->
  w' = w /\ Posts t = empty_slice
  /\ exists idStr, Split (str_drop 1 line) "|" = [idStr; Subject t]
       /\ Atoi idStr = (Topic_Id t, None).
Proof.
  unfold parseTopic. intros H. minvs. cbn. eauto.
Qed.

Lemma parseDelUndel_inv (d : string) (w : World) (r : Z * Z) (w' : World) :
  parseDelUndel d w = Ret r w' -> w' = w.
Proof. unfold parseDelUndel. intros H. minvs. done. Qed.

Lemma findPostToDelUndel_inv (d : string) (m : gmap Z TopicPtr) (w : World)
    (pp : PostPtr) (w' : World) :
  findPostToDelUndel d m w = Ret pp w' -> w' = w.
Proof.
  unfold findPostToDelUndel. intros H. minvs.
  match goal with H : parseDelUndel _ _ = _ |- _ => apply parseDelUndel_inv in H as -> end.
  minvs. done.
Qed.

Lemma parsePost_inv (line : string) (m : gmap Z TopicPtr) (w : World)
    (post : Post) (w' : World) :
  parsePost line m w = Ret post w' ->
  same_mem w w' /\ logData w' = logData w /\ blobFiles w' = blobFiles w
  /\ IsDeleted post = false
  /\ exists t topic, Post_Topic post = Some t
       /\ load (topicArrs w) t = Some topic
       /\ Post_Id post = wrap64 (Z.of_nat (s_len (Posts topic)) + 1).
Proof.
  unfold parsePost. intros H. minvs; cbn; (split; [done|]); eauto 10.
Qed.

(** ** Invariants of the memory *)

Lemma post_step_refl (pm : list (list Post)) : post_step pm pm.
Proof.
  split; [apply mem_le_refl|]. intros pp p p' H H'. left. congruence.
Qed.

Lemma post_step_flag (pm : list (list Post)) (pp : PostPtr) (post : Post)
    (b : bool) :
  load pm pp = Some post -> post_step pm (poke pm pp (set_IsDeleted b post)).
Proof.
  intros Hl. split; [apply mem_le_poke|].
  intros q p p' Hq Hq'. left.
  apply load_poke in Hq' as [[-> ->]|Hq']; [|congruence].
  assert (p = post) as -> by congruence. done.
Qed.

Lemma mem_le_load {A} (mem mem' : list (list A)) (p : nat * nat) (x : A) :
  mem_le mem mem' -> load mem p = Some x -> is_Some (load mem' p).
Proof.
  intros Hle Hl. apply load_Some in Hl as (cells & Hc & Hx).
  destruct (Hle _ _ Hc) as (cells' & Hc' & L).
  destruct (lookup_lt_is_Some_2 cells' p.2) as [y Hy].
  { rewrite L. by eapply lookup_lt_Some. }
  exists y. apply load_Some. eauto.
Qed.

Lemma WF_same_mem (w w' : World) : same_mem w w' -> WF w -> WF w'.
Proof. intros (A & B & C) [H1 H2]. unfold WF. rewrite A, B, C. done. Qed.

Lemma WF_post_step (w w' : World) :
  topicArrs w' = topicArrs w -> store w' = store w ->
  post_step (postArrs w) (postArrs w') -> WF w -> WF w'.
Proof.
  intros A C Hs [H1 H2]. unfold WF. rewrite A, C. split; [done|].
  by eapply mem_ok_post_step.
Qed.

Lemma appendString_inv (str : string) (fails : option (nat * error))
    (w : World) (e : option error) (w' : World) :
  appendString str fails w = Ret e w' ->
  same_mem w w' /\ blobFiles w' = blobFiles w
  /\ match fails with
     | None =>
         e = None /\ logData w' = logData w +:+ str
         /\ trace w' = trace w ++ [LogAppend str true]
     | Some (n, err) =>
         e = Some err /\ logData w' = logData w +:+ str_take n str
         /\ trace w' = trace w ++ [LogAppend (str_take n str) false;
                                   Printf ("appendString() error: "
                                           +:+ error_Error err +:+ nl)]
     end.
Proof.
  unfold appendString. destruct fails as [[n err]|]; intros H; minvs; cbn.
  - repeat split. by rewrite <- app_assoc.
  - done.
Qed.

Lemma topicByIdUnlocked_inv (id : Z) (w : World) (r : option TopicPtr)
    (w' : World) :
  topicByIdUnlocked id w = Ret r w' -> w' = w.
Proof. unfold topicByIdUnlocked. intros H. minvs. done. Qed.

Lemma findPost_inv (topicId postId : Z) (w : World) (r : PostPtr + error)
    (w' : World) :
  findPost topicId postId w = Ret r w' -> w' = w.
Proof.
  unfold findPost. intros H. minvs.
  all: match goal with H : topicByIdUnlocked _ _ = _ |- _ =>
         apply topicByIdUnlocked_inv in H as -> end.
  all: minvs; done.
Qed.

(** What the flag-changing calls keep. *)
Lemma DeletePost_ok (fails : option (nat * error)) (topicId postId : Z)
    (w : World) (e : option error) (w' : World) :
  DeletePost fails topicId postId w = Ret e w' ->
  topicArrs w' = topicArrs w /\ store w' = store w
  /\ post_step (postArrs w) (postArrs w').
Proof.
  unfold DeletePost, store_post. intros H. minvs.
  all: repeat match goal with
       | H : findPost _ _ _ = _ |- _ => apply findPost_inv in H as ->
       | H : appendString _ _ _ = _ |- _ =>
           apply appendString_inv in H as ((A & B & C) & _)
       end.
  all: cbn; try rewrite A; try rewrite B; try rewrite C.
  all: (split; [done|split; [done|]]); try apply post_step_refl.
  apply post_step_flag. congruence.
Qed.

Lemma UndeletePost_ok (fails : option (nat * error)) (topicId postId : Z)
    (w : World) (e : option error) (w' : World) :
  UndeletePost fails topicId postId w = Ret e w' ->
  topicArrs w' = topicArrs w /\ store w' = store w
  /\ post_step (postArrs w) (postArrs w').
Proof.
  unfold UndeletePost, store_post. intros H. minvs.
  all: repeat match goal with
       | H : findPost _ _ _ = _ |- _ => apply findPost_inv in H as ->
       | H : appendString _ _ _ = _ |- _ =>
           apply appendString_inv in H as ((A & B & C) & _)
       end.
  all: cbn; try rewrite A; try rewrite B; try rewrite C.
  all: (split; [done|split; [done|]]); try apply post_step_refl.
  apply post_step_flag. congruence.
Qed.

Lemma blockIp_ok (fails : option (nat * error)) (ipAddr : string)
    (w : World) (u : unit) (w' : World) :
  blockIp fails ipAddr w = Ret u w' -> same_mem w w'.
Proof.
  unfold blockIp. intros H. minvs.
  match goal with H : appendString _ _ _ = _ |- _ =>
    apply appendString_inv in H as (S & _) end. done.
Qed.

Lemma unblockIp_ok (fails : option (nat * error)) (ipAddr : string)
    (w : World) (u : unit) (w' : World) :
  unblockIp fails ipAddr w = Ret u w' -> same_mem w w'.
Proof.
  unfold unblockIp. intros H. minvs.
  match goal with H : appendString _ _ _ = _ |- _ =>
    apply appendString_inv in H as (S & _) end. done.
Qed.

Lemma slice_cells_poke_other {A} (mem : list (list A)) (s : Slice)
    (p : nat * nat) (x : A) :
  p.1 <> s_arr s -> slice_cells (poke mem p x) s = slice_cells mem s.
Proof.
  intros Hne. unfold slice_cells. rewrite poke_lookup.
  rewrite decide_False by done. done.
Qed.

Lemma slice_cells_app {A} (mem extra : list (list A)) (s : Slice)
    (cs : list A) :
  slice_cells mem s = Some cs -> slice_cells (mem ++ extra) s = Some cs.
Proof.
  unfold slice_cells. destruct (s_len s); [done|].
  destruct (mem !! s_arr s) as [cells|] eqn:E; [|done].
  by rewrite (lookup_app_l_Some _ _ _ _ E).
Qed.

Lemma cells_ids_app (tm extra : list (list Topic)) (s : Slice) (ids : list Z) :
  cells_ids tm s = Some ids -> cells_ids (tm ++ extra) s = Some ids.
Proof.
  unfold cells_ids. destruct (slice_cells tm s) as [cs|] eqn:E; [|done].
  by rewrite (slice_cells_app _ _ _ _ E).
Qed.

Lemma slice_cells_poke_same {A} (mem : list (list A)) (s : Slice)
    (p : nat * nat) (x : A) (cells : list A) :
  mem !! p.1 = Some cells -> p.1 = s_arr s ->
  slice_cells (poke mem p x) s = (fun cs => <[p.2 := x]> cs) <$> slice_cells mem s.
Proof.
  intros Hc E. unfold slice_cells. rewrite poke_lookup, decide_True by done.
  rewrite <- E, Hc. cbn [fmap option_fmap option_map].
  destruct (s_len s) as [|n]; [done|].
  rewrite length_insert.
  destruct (Nat.leb_spec (S n) (length cells)); [|done].
  cbn [fmap option_fmap option_map]. f_equal.
  destruct (decide (p.2 < S n)%nat).
  - by apply take_insert_lt.
  - rewrite take_insert_ge by lia. symmetry. apply list_insert_ge.
    rewrite length_take. lia.
Qed.

Lemma cells_ids_poke_same (tm : list (list Topic)) (s : Slice) (tp : TopicPtr)
    (t t' : Topic) :
  load tm tp = Some t -> Topic_Id t' = Topic_Id t ->
  cells_ids (poke tm tp t') s = cells_ids tm s.
Proof.
  intros Hl Hid. unfold cells_ids.
  destruct (decide (tp.1 = s_arr s)) as [E|Hne];
    [|rewrite slice_cells_poke_other; done].
  apply load_Some in Hl as (cells & Hc & Ht).
  rewrite (slice_cells_poke_same _ _ _ _ _ Hc E).
  destruct (slice_cells tm s) as [cs|] eqn:Ecs; [|done].
  assert (cs = take (s_len s) cells) as ->.
  { eapply slice_cells_take; [done|]. by rewrite <- E. }
  cbn. f_equal. rewrite list_fmap_insert, Hid.
  apply list_insert_id'. intros Hlt.
  rewrite length_fmap, length_take in Hlt.
  rewrite list_lookup_fmap, lookup_take_lt by lia. by rewrite Ht.
Qed.

Lemma cells_ids_poke_new (tm : list (list Topic)) (s : Slice) (tp : TopicPtr)
    (t' : Topic) (ids : list Z) :
  (length tm <= tp.1)%nat ->
  cells_ids tm s = Some ids -> cells_ids (poke tm tp t') s = Some ids.
Proof.
  intros Hge H. unfold poke.
  rewrite (lookup_ge_None_2 tm tp.1) by done. done.
Qed.

Lemma cells_ids_append (tm : list (list Topic)) (s : Slice) (t : Topic)
    (tm' : list (list Topic)) (s' : Slice) (ids : list Z) :
  append_cells zeroTopic tm s t = grown tm' s' ->
  cells_ids tm s = Some ids -> cells_ids tm' s' = Some (ids ++ [Topic_Id t]).
Proof.
  intros Happ. unfold cells_ids.
  destruct (slice_cells tm s) as [cs|] eqn:E; [|done].
  destruct (append_cells_grown _ _ _ _ _ _ Happ) as (_ & _ & _ & _ & Hcs & _).
  rewrite (Hcs cs E). cbn. intros [= <-]. by rewrite fmap_app.
Qed.

Lemma addr_last_post_inv (t : TopicPtr) (w : World) (pp : PostPtr)
    (w' : World) :
  addr_last_post t w = Ret pp w' -> w' = w.
Proof. unfold addr_last_post. intros H. minvs. done. Qed.

Lemma push_recent_inv (pp : PostPtr) (w : World) (u : unit) (w' : World) :
  push_recent pp w = Ret u w' ->
  w' = set_store (fun st => set_posts (posts st ++ [pp]) st) w.
Proof. apply modify_inv. Qed.

Lemma append_to_topic_ok (t : TopicPtr) (post : Post) (w w' : World)
    (topic : Topic) (u : unit) :
  load (topicArrs w) t = Some topic ->
  Post_Id post = wrap64 (Z.of_nat (s_len (Posts topic)) + 1) ->
  append_to_topic t post w = Ret u w' ->
  mem_ok (topicArrs w) (postArrs w) ->
  mem_ok (topicArrs w') (postArrs w')
  /\ mem_le (topicArrs w) (topicArrs w')
  /\ (forall s, cells_ids (topicArrs w') s = cells_ids (topicArrs w) s)
  /\ (forall t1, load (topicArrs w') t = Some t1 ->
        Topic_Id t1 = Topic_Id topic /\ Subject t1 = Subject topic)
  /\ store w' = store w /\ logData w' = logData w /\ trace w' = trace w
  /\ blobFiles w' = blobFiles w.
Proof.
  intros Ht Hid H Hok. unfold append_to_topic, store_topic in H. minv.
  match goal with H : load _ t = Some ?x |- _ =>
    assert (x = topic) as -> by congruence end.
  match goal with H : append_Post _ _ _ = _ |- _ =>
    apply append_Post_inv in H as (pm' & Happ & ->) end.
  cbn.
  destruct (Hok t topic Ht) as [Hh Hp].
  destruct (append_cells_Post _ _ _ _ _ Happ Hh Hp Hid)
    as (Hstep & Hh' & Hp' & _).
  split; [|split; [|split; [|split; [|done]]]].
  - eapply mem_ok_topics; [by eapply mem_ok_post_step|].
    intros tp t' Hl.
    apply load_poke in Hl as [[-> ->]|Hl]; [right; done|left; eauto].
  - apply mem_le_poke.
  - intros s. by eapply cells_ids_poke_same.
  - intros t1 H1. rewrite load_poke_eq in H1 by eauto.
    injection H1 as <-. done.
Qed.

Lemma append_Topic_ok (s : Slice) (t : Topic) (w : World) (s' : Slice)
    (w' : World) :
  append_Topic s t w = Ret s' w' ->
  hdr_ok (topicArrs w) s ->
  mem_ok (topicArrs w) (postArrs w) ->
  hdr_ok (postArrs w) (Posts t) /\ positional (postArrs w) (Posts t) ->
  hdr_ok (topicArrs w') s' /\ mem_ok (topicArrs w') (postArrs w')
  /\ (forall ids, cells_ids (topicArrs w) s = Some ids ->
        cells_ids (topicArrs w') s' = Some (ids ++ [Topic_Id t]))
  /\ (forall q y, is_Some (load (topicArrs w) q) ->
        load (topicArrs w') q = Some y ->
        load (topicArrs w) q = Some y \/ y = t)
  /\ postArrs w' = postArrs w /\ store w' = store w
  /\ logData w' = logData w /\ trace w' = trace w
  /\ blobFiles w' = blobFiles w.
Proof.
  intros H Hh Hok Ht. apply append_Topic_inv in H as (tm' & Happ & ->). cbn.
  destruct (append_cells_grown _ _ _ _ _ _ Happ)
    as (Hle & _ & Hold & Hall & _ & Hh').
  split; [by apply Hh'|]. split; [|split; [|split; [|done]]].
  3:{ intros q y Hq Hy. destruct (Hold q y Hq Hy) as [?|[_ ->]]; tauto. }
  - intros tp t' Hl. destruct (Hall tp t' Hl) as [(q & Hq)|[->| ->]].
    + eauto.
    + done.
    + split; [apply hdr_ok_empty|]. intros i p Hi. cbn in Hi. lia.
  - intros ids. by apply cells_ids_append.
Qed.

Lemma writeMessageAsSha1_inv (msg sha1 : string) (fails : option error)
    (w : World) (e : option error) (w' : World) :
  writeMessageAsSha1 msg sha1 fails w = Ret e w' ->
  e = fails /\ same_mem w w' /\ logData w' = logData w
  /\ let path := blobPath (dataDir (store w)) (hex_EncodeToString sha1) in
     match fails with
     | None =>
         blobFiles w' = <[path := msg]> (blobFiles w)
         /\ trace w' = trace w ++ [BlobWrite path true]
     | Some err =>
         blobFiles w' = blobFiles w
         /\ trace w' = trace w
              ++ [BlobWrite path false;
                  LoggerErrorf
                    ("Store.writeMessageAsSha1(): failed to write " +:+ path
                     +:+ " with error " +:+ error_Error err)]
     end.
Proof.
  unfold writeMessageAsSha1, MessageFilePath, WriteBytesToFile.
  destruct fails as [err|]; intros H; minvs; cbn.
  - repeat split. by rewrite <- app_assoc.
  - done.
Qed.

Lemma topic_ids_eq (w : World) :
  topic_ids w = cells_ids (topicArrs w) (topics (store w)).
Proof. done. Qed.

(** What [addNewPost] keeps and what it does to the topic ids. *)
Lemma addNewPost_ok (io : IO) (msg user ipAddr : string) (topic : TopicPtr)
    (newTopic : bool) (w : World) (e : option error) (w' : World) :
  addNewPost io msg user ipAddr topic newTopic w = Ret e w' ->
  WF w ->
  WF w'
  /\ exists t, load (topicArrs w) topic = Some t
     /\ (forall t1, load (topicArrs w') topic = Some t1 ->
           Topic_Id t1 = Topic_Id t)
     /\ match e with
        | Some _ => same_mem w w'
        | None =>
            forall ids, topic_ids w = Some ids ->
              topic_ids w'
              = Some (if newTopic then ids ++ [Topic_Id t] else ids)
        end.
Proof.
  intros H [Hh Hok]. unfold addNewPost in H. minvs.
  all: repeat match goal with
       | H : addr_last_post _ _ = _ |- _ => apply addr_last_post_inv in H as ->
       | H : push_recent _ _ = _ |- _ => apply push_recent_inv in H as ->
       | H : writeMessageAsSha1 _ _ _ _ = _ |- _ =>
           apply writeMessageAsSha1_inv in H as (_ & S1 & _)
       | H : appendString _ _ _ = _ |- _ =>
           apply appendString_inv in H as (S2 & _)
       end.
  - (* the blob write fails *)
    split; [by eapply WF_same_mem|]. eexists. split; [done|].
    split; [|done]. destruct S1 as (A & _). rewrite A. congruence.
  - (* the log append fails *)
    pose proof (same_mem_trans _ _ _ S1 S2) as S.
    split; [by eapply WF_same_mem|]. eexists. split; [done|].
    split; [|done]. destruct S as (A & _). rewrite A. congruence.
  - (* a new topic *)
    pose proof (same_mem_trans _ _ _ S1 S2) as (A & B & C).
    match goal with H : append_to_topic _ _ _ = _ |- _ =>
      eapply append_to_topic_ok in H as (Hok1 & Hle1 & Hids1 & Hsame1 & C1 & _);
        [|rewrite A; eassumption|done|by rewrite A, B] end.
    match goal with H : load (topicArrs _) topic = Some ?t1,
                    H' : append_Topic _ ?t1 _ = _ |- _ =>
      pose proof (Hsame1 _ H) as [Hid1 _];
      pose proof H as Hbox;
      eapply append_Topic_ok in H'
        as (Hh2 & Hok2 & Hids2 & Hold2 & B2 & C2 & _);
        [| |done|by eapply Hok1]
    end.
    2:{ rewrite C1, C. eapply hdr_ok_le; [|done]. by rewrite <- A. }
    unfold WF. cbn. split; [split; done|].
    eexists. split; [done|]. split.
    + intros t2 Ht2. destruct (Hold2 _ _ (ex_intro _ _ Hbox) Ht2) as [E| ->];
        [|done]. by apply Hsame1.
    + intros ids Hids.
      rewrite <- Hid1. apply Hids2. rewrite C1, C, Hids1, A. done.
  - (* an existing topic *)
    pose proof (same_mem_trans _ _ _ S1 S2) as (A & B & C).
    match goal with H : append_to_topic _ _ _ = _ |- _ =>
      eapply append_to_topic_ok in H as (Hok1 & Hle1 & Hids1 & Hsame1 & C1 & _);
        [|rewrite A; eassumption|done|by rewrite A, B] end.
    unfold WF. cbn. split; [split; [|done]|].
    + rewrite C1, C. eapply hdr_ok_le; [|done]. by rewrite <- A.
    + eexists. split; [done|]. split; [intros t2 Ht2; by apply Hsame1|].
      intros ids Hids.
      rewrite topic_ids_eq. cbn. rewrite C1, C, Hids1, A. done.
Qed.

Lemma topic_ids_same (w w' : World) :
  topicArrs w' = topicArrs w -> store w' = store w ->
  topic_ids w' = topic_ids w.
Proof. intros A C. unfold topic_ids. by rewrite A, C. Qed.

Lemma new_Topic_inv (t : Topic) (w : World) (tp : TopicPtr) (w' : World) :
  new_Topic t w = Ret tp w' ->
  tp = (length (topicArrs w), 0%nat)
  /\ w' = set_topicArrs (fun mem => mem ++ [[t]]) w.
Proof. by intros [= <- <-]. Qed.

Lemma mem_ok_new_Topic (tm : list (list Topic)) (pm : list (list Post))
    (t : Topic) :
  mem_ok tm pm -> Posts t = empty_slice -> mem_ok (tm ++ [[t]]) pm.
Proof.
  intros Hok Ht tp t' Hl. apply load_snoc in Hl as [Hl|[_ Hl]]; [eauto|].
  apply list_lookup_singleton_Some in Hl as [_ <-]. rewrite Ht.
  split; [apply hdr_ok_empty|]. intros i p Hi. cbn in Hi. lia.
Qed.

Lemma slice_cells_arr_lt {A} (mem : list (list A)) (s : Slice) (cs : list A) :
  slice_cells mem s = Some cs -> (0 < s_len s)%nat ->
  (s_arr s < length mem)%nat.
Proof.
  unfold slice_cells. destruct (s_len s); [lia|].
  destruct (mem !! s_arr s) eqn:E; [|done]. intros _ _.
  by eapply lookup_lt_Some.
Qed.

Lemma last_cell_id (tm : list (list Topic)) (s : Slice) (ids : list Z)
    (t : Topic) :
  cells_ids tm s = Some ids -> (0 < s_len s)%nat ->
  load tm (s_arr s, Z.to_nat (Z.of_nat (s_len s) - 1)) = Some t ->
  last ids = Some (Topic_Id t).
Proof.
  unfold cells_ids. destruct (slice_cells tm s) as [cs|] eqn:E; [|done].
  cbn. intros [= <-] Hpos Hl.
  apply slice_cells_Some in E as [L E].
  rewrite fmap_last, last_lookup, L.
  replace (Init.Nat.pred (s_len s)) with (Z.to_nat (Z.of_nat (s_len s) - 1))
    by lia.
  assert (cs !! Z.to_nat (Z.of_nat (s_len s) - 1) = Some t) as ->; [|done].
  apply E. split; [lia|done].
Qed.

Lemma WF_box (w : World) (t : Topic) :
  WF w -> Posts t = empty_slice ->
  WF (set_topicArrs (fun mem => mem ++ [[t]]) w).
Proof.
  intros [Hh Hok] Ht. split; cbn.
  - eapply hdr_ok_le; [apply mem_le_app|done].
  - by apply mem_ok_new_Topic.
Qed.

Lemma WF_poke_topic (w : World) (tp : TopicPtr) (t t' : Topic) :
  WF w -> load (topicArrs w) tp = Some t -> Posts t' = Posts t ->
  WF (set_topicArrs (fun mem => poke mem tp t') w).
Proof.
  intros [Hh Hok] Hl Ht. split; cbn.
  - eapply hdr_ok_le; [apply mem_le_poke|done].
  - eapply mem_ok_topics; [done|]. intros q y Hq. left.
    apply load_poke in Hq as [[-> ->]|Hq]; eauto.
Qed.

Lemma topic_ids_box (w : World) (t : Topic) (ids : list Z) :
  topic_ids w = Some ids ->
  topic_ids (set_topicArrs (fun mem => mem ++ [[t]]) w) = Some ids.
Proof. apply cells_ids_app. Qed.

Lemma topic_ids_poke_other (w : World) (tp : TopicPtr) (t' : Topic)
    (ids : list Z) :
  (s_arr (topics (store w)) < tp.1)%nat ->
  topic_ids (set_topicArrs (fun mem => poke mem tp t') w) = topic_ids w.
Proof.
  intros Hlt. unfold topic_ids. cbn.
  rewrite slice_cells_poke_other; [done|lia].
Qed.

Lemma CreateNewPost_ok (io : IO) (subject msg user ipAddr : string)
    (w : World) (r : Z * option error) (w' : World) :
  CreateNewPost io subject msg user ipAddr w = Ret r w' ->
  WF w ->
  WF w'
  /\ forall ids, topic_ids w = Some ids ->
       r.1 = next_topic_id ids
       /\ topic_ids w'
          = Some (match r.2 with
                  | None => ids ++ [r.1]
                  | Some _ => ids
                  end).
Proof.
  intros H HWF. unfold CreateNewPost, store_topic in H. minvs.
  all: repeat match goal with
       | H : new_Topic _ _ = _ |- _ => apply new_Topic_inv in H as [-> ->]
       end.
  - (* there are topics *)
    set (t := {| Topic_Id := 1; Subject := remSep subject;
                 Posts := empty_slice |}) in *.
    set (w0 := set_topicArrs (fun mem => mem ++ [[t]]) w) in *.
    assert (WF w0) as HWF0 by (by apply WF_box).
    match goal with H : load (topicArrs w0) (length _, _) = Some ?x |- _ =>
      assert (x = t) as ->
    end.
    { match goal with H : load (topicArrs w0) (length _, _) = Some _ |- _ =>
        apply load_snoc in H as [Hl|[_ Hl]] end.
      - apply load_Some in Hl as (? & Hl & _). apply lookup_lt_Some in Hl.
        cbn in Hl. lia.
      - cbn in Hl. congruence. }
    match goal with H : addNewPost _ _ _ _ _ _ ?w1 = _ |- _ =>
      set (w1' := w1) in *; assert (WF w1') as HWF1 end.
    { eapply WF_poke_topic; [done..|done]. }
    match goal with H : addNewPost _ _ _ _ _ _ _ = _ |- _ =>
      apply addNewPost_ok in H as (HWF' & t0 & Ht0 & Hkeep & He); [|done] end.
    split; [done|]. intros ids Hids. cbn [fst snd].
    assert (topic_ids w1' = Some ids) as Hids1.
    { unfold w1'. rewrite topic_ids_poke_other; [by apply topic_ids_box|done|].
      cbn. unfold topic_ids in Hids.
      destruct (slice_cells _ _) as [cs|] eqn:E; [|done].
      eapply slice_cells_arr_lt; [done|].
      match goal with H : (0 <? _)%nat = true |- _ =>
        apply Nat.ltb_lt in H end. done. }
    unfold w1' in Ht0. cbn [topicArrs set_topicArrs] in Ht0.
    rewrite load_poke_eq in Ht0 by eauto. injection Ht0 as <-.
    match goal with H : load (topicArrs _) (length _, _) = Some ?x |- _ =>
      rewrite (Hkeep _ H) end.
    cbn [Topic_Id set_Topic_Id].
    match goal with |- wrap64 (Topic_Id ?x + 1) = _ /\ _ =>
      assert (next_topic_id ids = wrap64 (Topic_Id x + 1)) as -> end.
    { unfold next_topic_id. erewrite last_cell_id; [done|exact Hids| |].
      - match goal with H : (0 <? _)%nat = true |- _ =>
          apply Nat.ltb_lt in H end. done.
      - match goal with H : load (topicArrs w0) (s_arr _, _) = Some _ |- _ =>
          apply load_snoc in H as [Hl|[Hl _]]; [done|] end.
        cbn in Hl. unfold topic_ids in Hids.
        destruct (slice_cells _ _) as [cs|] eqn:E; [|done].
        eapply slice_cells_arr_lt in E; [lia|].
        match goal with H : (0 <? _)%nat = true |- _ =>
          apply Nat.ltb_lt in H end. done. }
    split; [done|].
    match goal with |- context [match ?e with None => _ | Some _ => _ end] =>
      destruct e as [err|] end.
    + destruct He as (A & _ & C). rewrite (topic_ids_same _ _ A C). done.
    + by apply He.
  - (* the first topic *)
    set (t := {| Topic_Id := 1; Subject := remSep subject;
                 Posts := empty_slice |}) in *.
    set (w0 := set_topicArrs (fun mem => mem ++ [[t]]) w) in *.
    assert (WF w0) as HWF0 by (by apply WF_box).
    match goal with H : addNewPost _ _ _ _ _ _ _ = _ |- _ =>
      apply addNewPost_ok in H as (HWF' & t0 & Ht0 & Hkeep & He); [|done] end.
    split; [done|]. intros ids Hids. cbn [fst snd].
    assert (t0 = t) as ->.
    { apply load_snoc in Ht0 as [Hl|[_ Hl]].
      - apply load_Some in Hl as (? & Hl & _). apply lookup_lt_Some in Hl.
        cbn in Hl. lia.
      - cbn in Hl. congruence. }
    match goal with H : load (topicArrs _) (length _, _) = Some ?x |- _ =>
      rewrite (Hkeep _ H) end.
    cbn [Topic_Id t].
    assert (ids = []) as ->.
    { assert (s_len (topics (store w)) = 0%nat) as Hz.
      { match goal with H : (0 <? _)%nat = false |- _ =>
          apply Nat.ltb_ge in H; cbn in H; lia end. }
      unfold topic_ids, slice_cells in Hids. rewrite Hz in Hids.
      cbn in Hids. congruence. }
    split; [done|].
    match goal with |- context [match ?e with None => _ | Some _ => _ end] =>
      destruct e as [err|] end.
    + destruct He as (A & _ & C). rewrite (topic_ids_same _ _ A C).
      by apply topic_ids_box.
    + apply He. by apply topic_ids_box.
Qed.

Lemma AddPostToTopic_ok (io : IO) (topicId : Z) (msg user ipAddr : string)
    (w : World) (e : option error) (w' : World) :
  AddPostToTopic io topicId msg user ipAddr w = Ret e w' ->
  WF w ->
  WF w' /\ topic_ids w' = topic_ids w.
Proof.
  intros H HWF. unfold AddPostToTopic in H. minvs.
  all: match goal with H : topicByIdUnlocked _ _ = _ |- _ =>
         apply topicByIdUnlocked_inv in H as -> end.
  - match goal with H : addNewPost _ _ _ _ _ _ _ = _ |- _ =>
      apply addNewPost_ok in H as (HWF' & t0 & Ht0 & Hkeep & He); [|done] end.
    split; [done|]. destruct e as [err|].
    + destruct He as (A & _ & C). by apply topic_ids_same.
    + destruct HWF as [Hh _]. destruct (slice_cells_ok _ _ Hh) as [cs Hcs].
      assert (topic_ids w = Some (map Topic_Id cs)) as Hids
        by (unfold topic_ids; by rewrite Hcs).
      rewrite (He _ Hids). done.
  - minvs. done.
Qed.

(** What a call keeps, whatever the outside answers. *)
Lemma call_ok (c : Call) (w : World) (e : option error) (w' : World) :
  call c w = Ret e w' ->
  WF w ->
  WF w'
  /\ forall ids, topic_ids w = Some ids ->
       topic_ids w' = Some ids
       \/ topic_ids w' = Some (ids ++ [next_topic_id ids]).
Proof.
  intros H HWF. destruct c; cbn [call] in H.
  - minvs.
    match goal with H : CreateNewPost _ _ _ _ _ _ = Ret ?r _ |- _ =>
      apply CreateNewPost_ok in H as [HWF' Hids]; [|done]; destruct r as [id err]
    end.
    split; [done|]. intros ids Hi. destruct (Hids ids Hi) as [E1 E2].
    cbn in *. destruct err; [by left|right]. by rewrite <- E1.
  - apply AddPostToTopic_ok in H as [HWF' E]; [|done].
    split; [done|]. intros ids Hi. left. congruence.
  - apply DeletePost_ok in H as (A & C & Hs).
    split; [by eapply WF_post_step|]. intros ids Hi. left.
    by rewrite (topic_ids_same _ _ A C).
  - apply UndeletePost_ok in H as (A & C & Hs).
    split; [by eapply WF_post_step|]. intros ids Hi. left.
    by rewrite (topic_ids_same _ _ A C).
  - unfold BlockIp in H. minvs.
    match goal with H : blockIp _ _ _ = _ |- _ =>
      apply blockIp_ok in H as S end.
    split; [by eapply WF_same_mem|]. intros ids Hi. left.
    destruct S as (A & _ & C). by rewrite (topic_ids_same _ _ A C).
  - unfold UnblockIp in H. minvs.
    match goal with H : unblockIp _ _ _ = _ |- _ =>
      apply unblockIp_ok in H as S end.
    split; [by eapply WF_same_mem|]. intros ids Hi. left.
    destruct S as (A & _ & C). by rewrite (topic_ids_same _ _ A C).
Qed.

(** ** The replayer keeps the memory well formed *)

Lemma parseTopics_loop_WF (fuel : nat) :
  forall (d : string) (ts : Slice) (m : gmap Z TopicPtr) (w : World)
         (ts' : Slice) (w' : World),
    parseTopics_loop fuel d ts m w = Ret ts' w' ->
    hdr_ok (topicArrs w) ts -> mem_ok (topicArrs w) (postArrs w) ->
    hdr_ok (topicArrs w') ts' /\ mem_ok (topicArrs w') (postArrs w').
Proof.
  induction fuel as [|fuel IH]; intros d ts m w ts' w' H Hh Hok.
  - destruct d; cbn in H; [|done]. minvs. done.
  - destruct d as [|c0 d0]; [cbn in H; minvs; done|].
    cbn [parseTopics_loop] in H.
    destruct (IndexByte (String c0 d0) LF =? -1); [done|].
    destruct (str_take _ _) as [|c line] eqn:Eline; [done|].
    destruct (Ascii.eqb c "T") eqn:ET; [|destruct (Ascii.eqb c "P") eqn:EP;
      [|destruct (Ascii.eqb c "D") eqn:ED; [|destruct (Ascii.eqb c "U") eqn:EU;
        [|destruct (Ascii.eqb c "B") eqn:EB; [|done]]]]].
    + (* T *)
      minvs.
      match goal with H : parseTopic _ _ = _ |- _ =>
        apply parseTopic_inv in H as (-> & HP & _) end.
      match goal with H : append_Topic _ _ _ = _ |- _ =>
        eapply append_Topic_ok in H as (Hh2 & Hok2 & _); [|done|done|] end.
      2:{ rewrite HP. split; [apply hdr_ok_empty|].
          intros i p Hi. cbn in Hi. lia. }
      eapply IH; [eassumption|done|done].
    + (* P *)
      minvs.
      match goal with H : parsePost _ _ _ = _ |- _ =>
        apply parsePost_inv in H
          as ((A & B & C) & _ & _ & _ & t1 & topic & HT & Hl & Hid) end.
      assert (t1 = t) as -> by congruence.
      match goal with H : append_to_topic _ _ _ = _ |- _ =>
        eapply append_to_topic_ok in H as (Hok1 & Hle1 & _);
          [|rewrite A; eassumption|done|by rewrite A, B] end.
      match goal with H : addr_last_post _ _ = _ |- _ =>
        apply addr_last_post_inv in H as -> end.
      match goal with H : push_recent _ _ = _ |- _ =>
        apply push_recent_inv in H as -> end.
      eapply IH; [eassumption| |done].
      cbn. eapply hdr_ok_le; [exact Hle1|]. by rewrite A.
    + (* D *)
      unfold store_post in H. minvs.
      match goal with H : findPostToDelUndel _ _ _ = _ |- _ =>
        apply findPostToDelUndel_inv in H as -> end.
      eapply IH; [eassumption|done|]. cbn.
      eapply mem_ok_post_step; [done|]. by apply post_step_flag.
    + (* U *)
      unfold store_post in H. minvs.
      match goal with H : findPostToDelUndel _ _ _ = _ |- _ =>
        apply findPostToDelUndel_inv in H as -> end.
      eapply IH; [eassumption|done|]. cbn.
      eapply mem_ok_post_step; [done|]. by apply post_step_flag.
    + (* B *)
      eapply IH; [eassumption|done|done].
Qed.

Lemma verifyTopics_loop_inv (ts : list Topic) :
  forall (i : Z) (w : World) (u : unit) (w' : World),
    verifyTopics_loop i ts w = Ret u w' ->
    same_mem w w' /\ logData w' = logData w /\ blobFiles w' = blobFiles w.
Proof.
  induction ts as [|t ts IH]; intros i w u w' H; cbn [verifyTopics_loop] in H.
  - minvs. done.
  - minvs.
    all: match goal with H : verifyTopics_loop _ _ _ = _ |- _ =>
           apply IH in H as (S & L & B) end.
    all: done.
Qed.

Lemma verifyTopics_inv (s : Slice) (w : World) (u : unit) (w' : World) :
  verifyTopics s w = Ret u w' ->
  same_mem w w' /\ logData w' = logData w /\ blobFiles w' = blobFiles w.
Proof.
  unfold verifyTopics. intros H. minvs.
  by eapply verifyTopics_loop_inv.
Qed.

Lemma NewStore_WF (dataDir forumName : string) (disk : Disk)
    (e : option error) (w : World) :
  NewStore dataDir forumName disk = Ret e w -> WF w.
Proof.
  unfold NewStore, parseTopics. intros H. minvs.
  all: repeat match goal with
       | H : verifyTopics _ _ = _ |- _ => apply verifyTopics_inv in H as (S & _)
       | H : parseTopics_loop _ _ _ _ _ = _ |- _ =>
           apply parseTopics_loop_WF in H as [Hh Hok];
             [|apply hdr_ok_empty|done]
       end.
  all: try (eapply WF_same_mem; [eassumption|]).
  all: try (split; cbn; [apply hdr_ok_empty || done|done]).

Qed.

Lemma NewStore_new (dataDir forumName : string) (disk : Disk)
    (e : option error) (w : World) :
  disk_log disk = None ->
  NewStore dataDir forumName disk = Ret e w -> topic_ids w = Some [].
Proof.
  unfold NewStore. intros ->. intros H. minvs.
  all: repeat match goal with
       | H : verifyTopics _ _ = _ |- _ =>
           apply verifyTopics_inv in H as ((A & _ & C) & _)
       end.
  all: unfold topic_ids; cbn; try rewrite A, C; done.
Qed.

Lemma reachable_WF (w : World) : reachable w -> WF w.
Proof.
  induction 1 as [? ? ? w H|w c e w' _ IH H].
  - by eapply NewStore_WF.
  - by eapply call_ok.
Qed.

Lemma reachable_new_reachable (w : World) : reachable_new w -> reachable w.
Proof.
  induction 1; [by eapply reachable_open|by eapply reachable_call].
Qed.

Lemma topic_ids_length (w : World) (ids : list Z) :
  topic_ids w = Some ids -> length ids = s_len (topics (store w)).
Proof.
  unfold topic_ids. destruct (slice_cells _ _) as [cs|] eqn:E; [|done].
  cbn. intros [= <-]. rewrite length_fmap.
  by apply slice_cells_Some in E as [L _].
Qed.

Lemma next_topic_id_seqZ (n : nat) :
  Z.of_nat (S n) <= maxInt ->
  next_topic_id (seqZ 1 (Z.of_nat n)) = Z.of_nat (S n).
Proof.
  intros Hn. unfold next_topic_id. destruct n as [|n]; [done|].
  rewrite seqZ_S, last_snoc. rewrite wrap64_small; unfold minInt; lia.
Qed.

(** The topic ids of a store that began empty are 1, 2, ..., N. *)
Lemma reachable_new_ids (w : World) :
  reachable_new w ->
  topic_ids w = Some (seqZ 1 (Z.of_nat (s_len (topics (store w))))).
Proof.
  induction 1 as [? ? ? w Hd H|w c e w' Hr IH H].
  - pose proof (NewStore_new _ _ _ _ _ Hd H) as E. rewrite E.
    apply topic_ids_length in E. rewrite <- E. done.
  - pose proof (reachable_WF _ (reachable_new_reachable _ Hr)) as HWF.
    destruct (call_ok _ _ _ _ H HWF) as [HWF' Hids].
    destruct (Hids _ IH) as [E|E].
    + rewrite E. apply topic_ids_length in E. rewrite <- E.
      rewrite length_seqZ, Nat2Z.id. done.
    + pose proof (topic_ids_length _ _ E) as L.
      rewrite length_app, length_seqZ, Nat2Z.id in L. cbn in L.
      rewrite E, <- L, Nat.add_1_r, seqZ_S.
      rewrite next_topic_id_seqZ; [repeat f_equal; lia|].
      destruct HWF' as [(Hlen & Hcap & _) _]. lia.
Qed.



(** ** Deleting and undeleting *)

Lemma findPost_found (w : World) (topicId postId : Z) (tp : TopicPtr)
    (t : Topic) :
  topicByIdUnlocked topicId w = Ret (Some tp) w ->
  load (topicArrs w) tp = Some t ->
  1 <= postId <= Z.of_nat (s_len (Posts t)) -> postId <= maxInt ->
  findPost topicId postId w
  = Ret (inl (s_arr (Posts t), Z.to_nat (postId - 1))) w.
Proof.
  intros Ht Hl Hp Hm. unfold findPost, bind. rewrite Ht.
  unfold load_topic. rewrite Hl. cbn [must ret].
  destruct (Z.ltb_spec (Z.of_nat (s_len (Posts t))) postId); [lia|].
  rewrite wrap64_small by (unfold minInt; lia).
  rewrite addr_of_in by lia. done.
Qed.

Lemma findPost_nonpositive (w : World) (topicId postId : Z) (tp : TopicPtr)
    (t : Topic) :
  topicByIdUnlocked topicId w = Ret (Some tp) w ->
  load (topicArrs w) tp = Some t ->
  Z.of_nat (s_len (Posts t)) <= maxInt ->
  minInt <= postId <= 0 ->
  findPost topicId postId w = Panic "index out of range".
Proof.
  intros Ht Hl Hlen Hp. unfold findPost, bind. rewrite Ht.
  unfold load_topic. rewrite Hl. cbn [must ret].
  destruct (Z.ltb_spec (Z.of_nat (s_len (Posts t))) postId); [lia|].
  rewrite addr_of_out; [done|].
  destruct (Z.eq_dec postId minInt) as [->|Hne].
  - right. change (wrap64 (minInt - 1)) with maxInt. done.
  - left. rewrite wrap64_small; unfold minInt, maxInt in *; lia.
Qed.

(** C4. A transition that changes nothing is an error. When the topic is
    found, the post id is one of its posts and the post is already deleted,
    [DeletePost] returns the error "post already deleted", of the kind
    AlreadyInTargetState, and the world it returns is the world it was given:
    nothing is appended to the log and nothing changes in memory. The same
    holds for [UndeletePost] on a post that is not deleted. *)
Theorem C4_no_op_transition_is_an_error (w : World)
    (fails : option (nat * error)) (topicId postId : Z) (tp : TopicPtr)
    (t : Topic) (post : Post) :
  topicByIdUnlocked topicId w = Ret (Some tp) w ->
  load (topicArrs w) tp = Some t ->
  1 <= postId <= Z.of_nat (s_len (Posts t)) -> postId <= maxInt ->
  load (postArrs w) (s_arr (Posts t), Z.to_nat (postId - 1)) = Some post ->
  (IsDeleted post = true ->
     exists e, DeletePost fails topicId postId w = Ret (Some e) w
       /\ e = errors_New "post already deleted"
       /\ error_kind e = Some AlreadyInTargetState)
  /\ (IsDeleted post = false ->
     exists e, UndeletePost fails topicId postId w = Ret (Some e) w
       /\ e = errors_New "post already not deleted"
       /\ error_kind e = Some AlreadyInTargetState).
Proof.
  intros Ht Hl Hp Hm Hpost.
  pose proof (findPost_found w topicId postId tp t Ht Hl Hp Hm) as F.
  split; intros Hd; eexists; (split; [|split; reflexivity]).
  - unfold DeletePost, bind. rewrite F. unfold load_post. rewrite Hpost.
    cbn [must ret]. rewrite Hd. done.
  - unfold UndeletePost, bind. rewrite F. unfold load_post. rewrite Hpost.
    cbn [must ret]. rewrite Hd. done.
Qed.

Lemma C4_no_op_transition_is_an_error_witness :
  (exists e,
     DeletePost None 1 2 (world_after sample_calls)
     = Ret (Some e) (world_after sample_calls)
     /\ e = errors_New "post already deleted"
     /\ error_kind e = Some AlreadyInTargetState)
  /\ (exists e,
        UndeletePost None 1 1 (world_after sample_calls)
        = Ret (Some e) (world_after sample_calls)
        /\ e = errors_New "post already not deleted"
        /\ error_kind e = Some AlreadyInTargetState).
Proof.
  split.
  - eapply (C4_no_op_transition_is_an_error (world_after sample_calls) None
              1 2).
    + vm_compute. reflexivity.
    + vm_compute. reflexivity.
    + vm_compute. split; discriminate.
    + vm_compute. discriminate.
    + vm_compute. reflexivity.
    + reflexivity.
  - eapply (C4_no_op_transition_is_an_error (world_after sample_calls) None
              1 1).
    + vm_compute. reflexivity.
    + vm_compute. reflexivity.
    + vm_compute. split; discriminate.
    + vm_compute. discriminate.
    + vm_compute. reflexivity.
    + reflexivity.
Defined.

(** C5. A post id that is zero or negative makes [DeletePost] and
    [UndeletePost] panic: when the topic is found, [findPost] only checks
    that the id is not beyond the last post and then takes the address of
    [topic.Posts[postId-1]], an index out of range. *)
Theorem C5_nonpositive_post_id_panics (w : World)
    (fails : option (nat * error)) (topicId postId : Z) (tp : TopicPtr)
    (t : Topic) :
  topicByIdUnlocked topicId w = Ret (Some tp) w ->
  load (topicArrs w) tp = Some t ->
  Z.of_nat (s_len (Posts t)) <= maxInt ->
  minInt <= postId <= 0 ->
  DeletePost fails topicId postId w = Panic "index out of range"
  /\ UndeletePost fails topicId postId w = Panic "index out of range".
Proof.
  intros Ht Hl Hlen Hp.
  pose proof (findPost_nonpositive w topicId postId tp t Ht Hl Hlen Hp) as F.
  split; [unfold DeletePost|unfold UndeletePost]; unfold bind; rewrite F;
    done.
Qed.

Lemma C5_nonpositive_post_id_panics_witness :
  DeletePost None 1 0 (world_after sample_calls) = Panic "index out of range"
  /\ UndeletePost None 1 0 (world_after sample_calls)
     = Panic "index out of range".
Proof.
  eapply (C5_nonpositive_post_id_panics (world_after sample_calls) None 1 0).
  - vm_compute. reflexivity.
  - vm_compute. reflexivity.
  - vm_compute. discriminate.
  - vm_compute. split; discriminate.
Defined.

(** ** Pages of topics *)

Lemma GetTopics_loop_page (s : Slice) (w : World) :
  Z.of_nat (s_len s) <= maxInt ->
  forall (fuel : nat) (n i : Z) (res : list TopicPtr),
    0 <= i -> 0 <= n -> i + n <= Z.of_nat (s_len s) ->
    (Z.to_nat n < fuel)%nat ->
    GetTopics_loop fuel s n i res w
    = Ret (res ++ page_ptrs (s_arr s) (Z.of_nat (s_len s)) i n, i + n) w.
Proof.
  intros HN. induction fuel as [|fuel IH]; intros n i res Hi Hn Hin Hf;
    [lia|].
  cbn [GetTopics_loop].
  destruct (Z.ltb_spec 0 n) as [Hpos|Hz].
  - rewrite (wrap64_small (Z.of_nat (s_len s) - 1 - i))
      by (unfold minInt, maxInt in *; lia).
    destruct (Z.ltb_spec (Z.of_nat (s_len s) - 1 - i) 0); [lia|].
    unfold bind. rewrite addr_of_in by lia.
    rewrite (wrap64_small (n - 1)) by (unfold minInt, maxInt in *; lia).
    rewrite (wrap64_small (i + 1)) by (unfold minInt, maxInt in *; lia).
    rewrite IH by lia.
    replace (i + 1 + (n - 1)) with (i + n) by lia.
    unfold page_ptrs. rewrite (seqZ_cons i n) by lia.
    replace (Z.succ i) with (i + 1) by lia.
    replace (Z.pred n) with (n - 1) by lia.
    cbn [map]. rewrite <- app_assoc. done.
  - assert (n = 0) as -> by lia. unfold page_ptrs. cbn.
    rewrite app_nil_r, Z.add_0_r. done.
Qed.

Lemma page_ptrs_spec (arr : nat) (N i n : Z) (tp : TopicPtr) :
  tp ∈ page_ptrs arr N i n ->
  exists j, i <= j < i + n /\ tp = (arr, Z.to_nat (N - 1 - j)).
Proof.
  unfold page_ptrs. intros H. apply list_elem_of_fmap in H as (j & -> & Hj).
  apply elem_of_seqZ in Hj. eauto.
Qed.

(** C7. The next offset wraps one page early. When the page ends just before
    the oldest topic ([from + nMax] is the offset of the oldest topic, the
    number of topics less one), [GetTopics] returns the [nMax] topics of the
    page, the oldest topic is not among them, and the next offset it returns
    is 0 and not [from + nMax]: the oldest topic is left unreturned and the
    next call starts again from the newest. *)
Theorem C7_next_offset_wraps_before_the_oldest (w : World) (nMax from : Z)
    (withDeleted : bool) :
  Z.of_nat (s_len (topics (store w))) <= maxInt ->
  0 <= from -> 1 <= nMax ->
  from + nMax = Z.of_nat (s_len (topics (store w))) - 1 ->
  exists page,
    GetTopics nMax from withDeleted w = Ret (page, 0) w
    /\ len page = nMax
    /\ ((s_arr (topics (store w)), 0%nat) ∉ page)
    /\ from + nMax <> 0.
Proof.
  intros HN Hf Hn Hsum. set (N := Z.of_nat (s_len (topics (store w)))) in *.
  exists (page_ptrs (s_arr (topics (store w))) N from nMax).
  split; [|split; [|split]].
  - unfold GetTopics. destruct (Z.ltb_spec nMax 0); [lia|].
    unfold bind, get.
    rewrite GetTopics_loop_page by (fold N; lia).
    cbn [app]. fold N.
    rewrite wrap64_small by (unfold minInt, maxInt in *; lia).
    destruct (Z.leb_spec (N - 1 - (from + nMax)) 0); [|lia].
    done.
  - unfold len, page_ptrs. rewrite length_fmap, length_seqZ. lia.
  - intros Hin. apply page_ptrs_spec in Hin as (j & Hj & E).
    injection E as E. lia.
  - lia.
Qed.

Lemma C7_next_offset_wraps_before_the_oldest_witness :
  exists page,
    GetTopics 2 0 true (world_after three_topics)
    = Ret (page, 0) (world_after three_topics)
    /\ len page = 2
    /\ ((s_arr (topics (store (world_after three_topics))), 0%nat) ∉ page)
    /\ 0 + 2 <> 0.
Proof.
  apply (C7_next_offset_wraps_before_the_oldest (world_after three_topics)
           2 0 true).
  - vm_compute. discriminate.
  - lia.
  - lia.
  - vm_compute. reflexivity.
Defined.

(** ** The filtered scans *)

Lemma scan_posts_all_kept (keep : Post -> bool) (max : Z) (w : World)
    (rest : list PostPtr) :
  forall (l res : list PostPtr),
    Forall (fun pp => exists p, load (postArrs w) pp = Some p
                                /\ keep p = true) l ->
    l <> [] -> len res + len l = max + 1 ->
    scan_posts keep max (l ++ rest) res w = Ret (res ++ l) w.
Proof.
  induction l as [|pp l IH]; intros res Hall Hne Hlen; [done|].
  apply Forall_cons in Hall as [(p & Hp & Hk) Hall].
  cbn [app scan_posts]. unfold bind, load_post. rewrite Hp. cbn [must ret].
  rewrite Hk. unfold len in *. rewrite length_app. cbn [length] in *.
  destruct l as [|pp' l].
  - cbn [length] in Hlen. destruct (Z.ltb_spec max (Z.of_nat (length res + 1)));
      [done|lia].
  - destruct (Z.ltb_spec max (Z.of_nat (length res + 1)));
      [cbn [length] in Hlen; lia|].
    rewrite IH; [|done|done|rewrite length_app; cbn [length] in *; lia].
    by rewrite <- app_assoc.
Qed.

(** C8. The filtered scans return one post too many. When the [max + 1]
    newest entries of the global sequence all match, [GetPostsByUserInternal]
    and [GetPostsByIpInternal] return all [max + 1] of them, newest first: the
    loop stops when the result is longer than [max], not when it has [max]
    posts. *)
Theorem C8_scan_returns_one_more (w : World) (max : Z)
    (older newest : list PostPtr) (wanted : string) :
  0 <= max -> len newest = max + 1 ->
  posts (store w) = older ++ rev newest ->
  (Forall (fun pp => exists p, load (postArrs w) pp = Some p
                               /\ UserNameInternal p = wanted) newest ->
   GetPostsByUserInternal wanted max w = Ret newest w)
  /\ (Forall (fun pp => exists p, load (postArrs w) pp = Some p
                                  /\ IpAddrInternal p = wanted) newest ->
      GetPostsByIpInternal wanted max w = Ret newest w).
Proof.
  intros Hmax Hlen Hposts.
  assert (newest <> []) as Hne.
  { intros ->. unfold len in Hlen. cbn in Hlen. lia. }
  assert (rev (posts (store w)) = newest ++ rev older) as Hrev.
  { rewrite Hposts, rev_app_distr, rev_involutive. done. }
  split; intros Hall.
  - unfold GetPostsByUserInternal, bind, get. rewrite Hrev.
    rewrite scan_posts_all_kept; [done| |done|done].
    eapply Forall_impl; [exact Hall|]. intros pp (p & Hp & E).
    exists p. split; [done|]. by apply String.eqb_eq.
  - unfold GetPostsByIpInternal, bind, get. rewrite Hrev.
    rewrite scan_posts_all_kept; [done| |done|done].
    eapply Forall_impl; [exact Hall|]. intros pp (p & Hp & E).
    exists p. split; [done|]. by apply String.eqb_eq.
Qed.

Lemma C8_scan_returns_one_more_witness :
  exists found,
    len found = 2
    /\ GetPostsByUserInternal "alice" 1 (world_after three_topics)
       = Ret found (world_after three_topics)
    /\ GetPostsByIpInternal "7f000001" 1 (world_after three_topics)
       = Ret found (world_after three_topics).
Proof.
  exists [(4%nat, 2%nat); (3%nat, 1%nat)].
  split; [reflexivity|].
  destruct (C8_scan_returns_one_more (world_after three_topics) 1
              [(0%nat, 0%nat); (1%nat, 0%nat); (2%nat, 0%nat)]
              [(4%nat, 2%nat); (3%nat, 1%nat)] "alice") as [Hu _];
    [lia|reflexivity|vm_compute; reflexivity|].
  destruct (C8_scan_returns_one_more (world_after three_topics) 1
              [(0%nat, 0%nat); (1%nat, 0%nat); (2%nat, 0%nat)]
              [(4%nat, 2%nat); (3%nat, 1%nat)] "7f000001") as [_ Hi];
    [lia|reflexivity|vm_compute; reflexivity|].
  split.
  - apply Hu. repeat constructor; eexists; (split; [vm_compute; reflexivity|]);
      reflexivity.
  - apply Hi. repeat constructor; eexists; (split; [vm_compute; reflexivity|]);
      reflexivity.
Defined.

(** ** The order of the steps of a post-creating call *)



Lemma load_box {A} (mem : list (list A)) (x : A) :
  load (mem ++ [[x]]) (length mem, 0%nat) = Some x.
Proof.
  apply load_Some. exists [x]. split; [|done]. cbn.
  rewrite lookup_app_r by done. by rewrite Nat.sub_diag.
Qed.

Lemma unchanged_refl (w : World) : unchanged w w.
Proof. done. Qed.



(** [CreateNewPost] up to its call of [addNewPost]: a new cell for the
    topic, with the next id, and nothing else touched. *)
Lemma CreateNewPost_prelude (io : IO) (subject msg user ipAddr : string)
    (w : World) :
  WF w ->
  exists ids w1,
    topic_ids w = Some ids
    /\ unchanged w w1 /\ mem_le (topicArrs w) (topicArrs w1)
    /\ logData w1 = logData w
    /\ blobFiles w1 = blobFiles w /\ trace w1 = trace w
    /\ load (topicArrs w1) (length (topicArrs w), 0%nat)
       = Some (new_topic subject (next_topic_id ids))
    /\ CreateNewPost io subject msg user ipAddr w
       = (let* err := addNewPost io msg user ipAddr
                        (length (topicArrs w), 0%nat) true in
          let* t := load_topic (length (topicArrs w), 0%nat) in
          ret (Topic_Id t, err)) w1.
Proof.
  intros [Hh Hok]. destruct (slice_cells_ok _ _ Hh) as [cs Hcs].
  exists (map Topic_Id cs).
  assert (topic_ids w = Some (map Topic_Id cs)) as Hids
    by (unfold topic_ids; by rewrite Hcs).
  set (t0 := new_topic subject 1).
  set (w0 := set_topicArrs (fun mem => mem ++ [[t0]]) w).
  assert (unchanged w w0) as U0.
  { split; [done|]. split; [done|]. intros tp t Ht. by apply load_app_l. }
  unfold CreateNewPost.
  change (new_Topic _) with (new_Topic t0).
  destruct (0 <? s_len (topics (store w)))%nat eqn:Epos.
  - pose proof Epos as Hpos. apply Nat.ltb_lt in Hpos.
    pose proof (slice_cells_Some _ _ _ Hcs) as [L Hcells].
    destruct (lookup_lt_is_Some_2 cs (Z.to_nat (Z.of_nat (s_len (topics (store w))) - 1)))
      as [last Hlast]; [lia|].
    pose proof Hlast as Hl. apply Hcells in Hl as [_ Hl].
    assert (next_topic_id (map Topic_Id cs) = wrap64 (Topic_Id last + 1))
      as Hnext.
    { unfold next_topic_id. by erewrite last_cell_id. }
    exists (set_topicArrs
              (fun mem => poke mem (length (topicArrs w), 0%nat)
                            (set_Topic_Id (wrap64 (Topic_Id last + 1)) t0))
              w0).
    split; [done|]. split.
    { split; [done|]. split; [done|]. intros tp t Ht. cbn.
      rewrite load_poke_ne; [by apply load_app_l|].
      intros ->. apply load_Some in Ht as (c & Hc & _).
      apply lookup_lt_Some in Hc. cbn in Hc. lia. }
    split.
    { cbn. eapply mem_le_trans; [apply mem_le_app|apply mem_le_poke]. }
    split; [done|]. split; [done|]. split; [done|]. split.
    { cbn. rewrite load_poke_eq by (rewrite load_box; eauto).
      rewrite Hnext. done. }
    unfold bind at 1. cbn [new_Topic]. unfold bind at 1, get.
    cbn [store set_topicArrs topics]. rewrite Epos.
    unfold bind at 1. unfold bind at 1.
    rewrite addr_of_in by (cbn; lia). unfold bind at 1, load_topic at 1.
    cbn [topics store set_topicArrs topicArrs].
    rewrite (load_app_l _ _ _ _ Hl). cbn [must ret].
    unfold bind at 1, load_topic at 1. cbn [topicArrs set_topicArrs].
    rewrite load_box. cbn [must ret]. reflexivity.
  - apply Nat.ltb_ge in Epos.
    assert (map Topic_Id cs = []) as Hnil.
    { apply slice_cells_Some in Hcs as [L _].
      destruct cs; [done|cbn in L; lia]. }
    rewrite Hnil in *.
    exists w0. split; [done|]. split; [done|].
    split; [apply mem_le_app|].
    split; [done|]. split; [done|]. split; [done|]. split.
    { cbn. apply load_box. }
    unfold bind at 1. cbn [new_Topic]. unfold bind at 1, get.
    cbn [store set_topicArrs topics].
    assert ((0 <? s_len (topics (store w)))%nat = false) as ->
      by (apply Nat.ltb_ge; lia).
    done.
Qed.








Lemma append_cells_total {A} (zero : A) (mem : list (list A)) (s : Slice)
    (x : A) :
  hdr_ok mem s -> room s ->
  exists mem' s',
    append_cells zero mem s x = grown mem' s'
    /\ s_len s' = S (s_len s) /\ mem_le mem mem'
    /\ load mem' (s_arr s', s_len s) = Some x
    /\ forall p y, load mem p = Some y ->
         load mem' p = Some y \/ p = (s_arr s', s_len s).
Proof.
  intros Hh Hroom. pose proof Hh as (Hlen & Hcap & Hcells).
  unfold append_cells.
  destruct (Nat.ltb_spec (s_len s) (s_cap s)) as [Hlt|Hge].
  - destruct Hcells as [Hz|(cells & Hc & L)]; [lia|].
    rewrite Hc. destruct (Nat.leb_spec (s_cap s) (length cells)); [|lia].
    eexists _, _. split; [done|]. split; [done|].
    split; [apply mem_le_poke|]. cbn. split.
    + apply load_poke_eq.
      rewrite <- L in Hlt. apply lookup_lt_is_Some_2 in Hlt as [y Hy].
      exists y. apply load_Some. eauto.
    + intros p y Hp. destruct (decide (p = (s_arr s, s_len s))) as [->|Hne];
        [by right|left]. by rewrite load_poke_ne.
  - destruct Hroom as [?|Hroom]; [lia|].
    destruct (Z.ltb_spec maxInt (Z.of_nat (growslice_cap (s_cap s))));
      [lia|].
    destruct (slice_cells_ok _ _ Hh) as [old Hold]. rewrite Hold.
    eexists _, _. split; [done|]. split; [done|].
    split; [apply mem_le_app|]. cbn. split.
    + apply load_Some. eexists. split.
      * rewrite lookup_app_r by done. rewrite Nat.sub_diag. done.
      * cbn. apply slice_cells_Some in Hold as [L _].
        rewrite lookup_app_r by lia. rewrite L, Nat.sub_diag. done.
    + intros p y Hp. left. by apply load_app_l.
Qed.

Ltac wsimpl :=
  cbn [topicArrs postArrs store logData blobFiles trace set_topicArrs
       set_postArrs set_store set_logData set_blobFiles emit set_topics
       set_posts topics posts dataDir must ret set_Posts Posts s_len s_arr
       s_cap].


Lemma room_empty_slice : room empty_slice.
Proof. right. unfold maxInt. cbn. lia. Qed.




Lemma calls_reachable (cs : list Call) :
  forall (w : World) (es : list (option error)) (w' : World),
    reachable_new w -> calls cs w = Ret es w' -> reachable_new w'.
Proof.
  induction cs as [|c cs IH]; intros w es w' Hr H; cbn [calls] in H; minvs.
  - done.
  - eapply IH; [|eassumption]. by eapply reachable_new_call.
Qed.

Lemma blank_world_reachable : reachable_new blank_world.
Proof.
  apply (reachable_new_open EmptyString EmptyString new_disk); reflexivity.
Qed.

Lemma world_after_reachable (cs : list Call) : reachable_new (world_after cs).
Proof.
  unfold world_after, session.
  destruct (NewStore "data" "forum" new_disk) as [e w0| | |] eqn:E0;
    try apply blank_world_reachable.
  destruct (calls cs w0) as [es w| | |] eqn:E; try apply blank_world_reachable.
  eapply calls_reachable; [|exact E].
  assert (e = None) as -> by (vm_compute in E0; congruence).
  by eapply (reachable_new_open "data" "forum" new_disk).
Qed.



(** ** Ids and positions *)





(** What replay does on that data file and on the one with the wrong post
    id. *)
Example replay_examples :
  topic_ids (replayed ("T5|x" +:+ nl)) = Some [5]
  /\ match NewStore "data" "forum" (disk_with log_with_wrong_post_id ∅) with
     | Ret err w =>
         err = None /\ topic_ids w = Some [1] /\ post_ids w = Some [[1]]
         /\ trace w
            = unexpected_post_id
                "P1|7|100|VhcPVCmzXeoIG7ZZuIS0dcqTKak|7f000001|alice" 1 7 1
                "Hello"
     | _ => False
     end.
Proof. vm_compute. repeat split; reflexivity. Qed.

(** ** Decimal text: [strconv.Atoi] reads back what [%d] prints *)

Lemma string_of_uint_digits (d : Decimal.uint) :
  all_digits (NilEmpty.string_of_uint d) = true.
Proof. induction d; cbn; done. Qed.

Lemma of_lu_revapp_ge (d a : Decimal.uint) :
  (Unsigned.of_lu a <= Unsigned.of_lu (Decimal.revapp d a))%N.
Proof.
  rewrite Unsigned.of_lu_revapp.
  assert (1 <= 10 ^ Unsigned.usize d)%N.
  { pose proof (N.pow_nonzero 10 (Unsigned.usize d)). lia. }
  nia.
Qed.

(** The digit loop reads back what [fmt] printed, as long as the number fits
    64 bits. *)
Lemma ParseUint_loop_revapp (d : Decimal.uint) :
  forall a : Decimal.uint,
    Z.of_N (Unsigned.of_lu (Decimal.revapp d a)) <= maxUint64 ->
    ParseUint_loop (NilEmpty.string_of_uint d) (Z.of_N (Unsigned.of_lu a))
    = (Z.of_N (Unsigned.of_lu (Decimal.revapp d a)), None).
Proof.
  induction d; intros a Hb; [done|..].
  all: cbn [NilEmpty.string_of_uint ParseUint_loop Decimal.revapp] in *.
  all: match goal with
       | |- context[digit_val ?c] =>
           let v := eval vm_compute in (digit_val c) in
           change (digit_val c) with v; cbv iota beta
       end.
  all: match goal with
       | H : Z.of_N (Unsigned.of_lu (Decimal.revapp ?d' ?b)) <= _,
         IH : forall a, _ -> _ |- _ =>
           pose proof (of_lu_revapp_ge d' b) as Hge;
           pose proof (IH b H) as IHd;
           cbn [Unsigned.of_lu] in Hge, IHd
       end.
  all: unfold maxUint64 in *.
  all: change (2 ^ 64 - 1) with 18446744073709551615 in *.
  all: change (18446744073709551615 / 10 + 1) with 1844674407370955162.
  all: destruct (Z.leb_spec 1844674407370955162 (Z.of_N (Unsigned.of_lu a)));
         [lia|].
  all: match goal with
       | |- context[if ?x <? ?y then _ else _] =>
           destruct (Z.ltb_spec x y); [lia|]
       end.
  all: rewrite <- IHd; f_equal; lia.
Qed.

Lemma ParseUint_loop_to_uint (p : positive) :
  Zpos p <= maxUint64 ->
  ParseUint_loop (NilEmpty.string_of_uint (Pos.to_uint p)) 0 = (Zpos p, None).
Proof.
  intros Hp.
  pose proof (ParseUint_loop_revapp (Pos.to_uint p) Decimal.Nil) as H.
  change (Decimal.revapp (Pos.to_uint p) Decimal.Nil)
    with (Decimal.rev (Pos.to_uint p)) in H.
  rewrite <- Unsigned.of_uint_alt, Unsigned.of_to in H.
  apply H. done.
Qed.

Lemma string_of_uint_first (p : positive) :
  exists c rest, NilEmpty.string_of_uint (Pos.to_uint p) = String c rest
    /\ is_Some (digit_val c).
Proof.
  pose proof (Unsigned.to_uint_nonnil p) as Hn.
  destruct (Pos.to_uint p); [done|..]; cbn; eexists _, _; (split; [done|]);
    vm_compute; eauto.
Qed.

Lemma digit_not_sign (c : ascii) :
  is_Some (digit_val c) -> Ascii.eqb c "+" = false /\ Ascii.eqb c "-" = false.
Proof.
  intros [v Hv]. split; apply Ascii.eqb_neq; intros ->; vm_compute in Hv;
    discriminate.
Qed.

Lemma NilZero_string_of_uint_pos (p : positive) :
  NilZero.string_of_uint (Pos.to_uint p)
  = NilEmpty.string_of_uint (Pos.to_uint p).
Proof.
  pose proof (Unsigned.to_uint_nonnil p). by destruct (Pos.to_uint p).
Qed.

(** [strconv.Atoi] reads back what [%d] printed, for every [int]. *)
Lemma Atoi_itoa (z : Z) :
  minInt <= z <= maxInt -> Atoi (itoa z) = (z, None).
Proof.
  unfold minInt, maxInt. intros Hz. unfold itoa. destruct z as [|p|p].
  - reflexivity.
  - cbn [Z.to_int NilZero.string_of_int]. rewrite NilZero_string_of_uint_pos.
    destruct (string_of_uint_first p) as (c & rest & E & Hc).
    pose proof (ParseUint_loop_to_uint p) as HP. rewrite E in *.
    destruct (digit_not_sign c Hc) as [E1 E2].
    unfold Atoi. rewrite E1, E2. cbn [orb negb andb].
    rewrite HP by (unfold maxUint64; lia).
    destruct (Z.leb_spec (2 ^ 63) (Z.pos p)); [lia|]. done.
  - cbn [Z.to_int NilZero.string_of_int]. rewrite NilZero_string_of_uint_pos.
    destruct (string_of_uint_first p) as (c & rest & E & Hc).
    pose proof (ParseUint_loop_to_uint p) as HP. rewrite E in *.
    unfold Atoi. change (Ascii.eqb "-" "-") with true.
    change (Ascii.eqb "-" "+") with false. cbn [orb negb andb].
    rewrite HP by (unfold maxUint64; lia).
    destruct (Z.ltb_spec (2 ^ 63) (Z.pos p)); [lia|]. done.
Qed.

Lemma digits_no_byte (c : ascii) (s : string) :
  digit_val c = None -> all_digits s = true -> has_byte c s = false.
Proof.
  intros Hc. induction s as [|x s IH]; [done|]. cbn.
  destruct (digit_val x) eqn:Ex; [|done]. intros H.
  rewrite (IH H), orb_false_r. apply Ascii.eqb_neq. intros ->. congruence.
Qed.

(** What [%d] prints has no byte other than digits and a leading minus. *)
Lemma itoa_no_byte (c : ascii) (z : Z) :
  digit_val c = None -> c <> "-"%char -> has_byte c (itoa z) = false.
Proof.
  intros Hc Hm. unfold itoa. destruct z as [|p|p].
  - change (Ascii.eqb "0" c || false = false).
    rewrite orb_false_r. apply Ascii.eqb_neq. intros <-. done.
  - cbn [Z.to_int NilZero.string_of_int]. rewrite NilZero_string_of_uint_pos.
    apply digits_no_byte; [done|apply string_of_uint_digits].
  - cbn [Z.to_int NilZero.string_of_int has_byte].
    rewrite NilZero_string_of_uint_pos.
    rewrite digits_no_byte; [|done|apply string_of_uint_digits].
    rewrite orb_false_r. apply Ascii.eqb_neq. congruence.
Qed.

(** ** base64: decoding undoes encoding *)

Lemma sextet_facts_all : forallb sextet_facts (seqZ 0 64) = true.
Proof. vm_compute. reflexivity. Qed.

Lemma sextet_facts_inv (v : Z) :
  0 <= v < 64 ->
  b64val (b64char v) = Some v /\ is_newline (b64char v) = false
  /\ Ascii.eqb (b64char v) "|" = false /\ Ascii.eqb (b64char v) "=" = false.
Proof.
  intros Hv. assert (sextet_facts v = true) as H.
  { pose proof sextet_facts_all as A. rewrite forallb_forall in A.
    apply A. apply list_elem_of_In, elem_of_seqZ. lia. }
  unfold sextet_facts in H.
  repeat (apply andb_true_iff in H as [H ?]).
  destruct (b64val (b64char v)) as [u|]; [|done].
  apply Z.eqb_eq in H as ->.
  repeat split; by apply negb_true_iff.
Qed.

Lemma byte_val_range (a : ascii) : 0 <= byte_val a < 256.
Proof.
  unfold byte_val. pose proof (N_ascii_bounded a). lia.
Qed.

Lemma byte_of_int_val (a : ascii) : byte_of_int (byte_val a) = a.
Proof.
  unfold byte_of_int. pose proof (byte_val_range a).
  rewrite Z.mod_small by done. unfold byte_val. rewrite N2Z.id.
  apply ascii_N_embedding.
Qed.

Lemma byte_of_int_eq (n : Z) (a : ascii) :
  n = byte_val a -> byte_of_int n = a.
Proof. intros ->. apply byte_of_int_val. Qed.

Lemma b64val_pad : b64val "=" = None.
Proof. reflexivity. Qed.

Ltac sextets :=
  repeat match goal with
  | |- context[b64val (b64char ?v)] =>
      let H := fresh "S" in
      destruct (sextet_facts_inv v) as (H & _);
        [Z.div_mod_to_equations; lia|rewrite H; clear H]
  end.

(** Decoding undoes encoding, quantum by quantum. *)
Lemma b64quanta_encode (n : nat) :
  forall s, (String.length s <= n)%nat ->
    b64quanta (list_of_string (base64_EncodeToString s)) = Some s.
Proof.
  induction n as [|n IH]; intros s Hn.
  { destruct s; [done|cbn in Hn; lia]. }
  destruct s as [|a [|b [|c s]]]; [done|..].
  - pose proof (byte_val_range a).
    cbn [base64_EncodeToString list_of_string b64quanta].
    sextets. rewrite b64val_pad.
    change (Ascii.eqb "=" "=") with true. cbn [andb].
    f_equal. f_equal. apply byte_of_int_eq. Z.div_mod_to_equations; lia.
  - pose proof (byte_val_range a). pose proof (byte_val_range b).
    cbn [base64_EncodeToString list_of_string b64quanta].
    sextets. rewrite b64val_pad.
    change (Ascii.eqb "=" "=") with true.
    f_equal. f_equal; [|f_equal]; apply byte_of_int_eq;
      Z.div_mod_to_equations; lia.
  - pose proof (byte_val_range a). pose proof (byte_val_range b).
    pose proof (byte_val_range c).
    cbn [base64_EncodeToString list_of_string b64quanta].
    sextets. rewrite IH by (cbn in Hn; lia).
    f_equal. f_equal; [|f_equal; [|f_equal]]; apply byte_of_int_eq;
      Z.div_mod_to_equations; lia.
Qed.

Lemma b64char_ne (c : ascii) (v : Z) :
  b64val c = None -> 0 <= v < 64 -> Ascii.eqb (b64char v) c = false.
Proof.
  intros Hc Hv. apply Ascii.eqb_neq. intros <-.
  destruct (sextet_facts_inv v Hv) as (H & _). congruence.
Qed.

(** A byte outside the alphabet that is not the padding does not occur in
    an encoding. *)
Lemma base64_no_byte (c : ascii) (n : nat) :
  b64val c = None -> c <> "="%char ->
  forall s, (String.length s <= n)%nat ->
    has_byte c (base64_EncodeToString s) = false.
Proof.
  intros Hc Hp. assert (Ascii.eqb "=" c = false) as Ep
    by (apply Ascii.eqb_neq; congruence).
  induction n as [|n IH]; intros s Hn.
  { destruct s; [done|cbn in Hn; lia]. }
  destruct s as [|a [|b [|x s]]]; [done|..].
  all: pose proof (byte_val_range a).
  all: try pose proof (byte_val_range b).
  all: try pose proof (byte_val_range x).
  all: cbn [base64_EncodeToString has_byte].
  all: rewrite ?Ep, ?IH by (cbn in Hn; lia).
  all: rewrite !b64char_ne by (done || (Z.div_mod_to_equations; lia)).
  all: done.
Qed.

Lemma has_byte_app (c : ascii) (s1 s2 : string) :
  has_byte c (s1 +:+ s2) = has_byte c s1 || has_byte c s2.
Proof.
  induction s1 as [|x s1 IH]; [done|].
  change (Ascii.eqb x c || has_byte c (s1 +:+ s2)
          = (Ascii.eqb x c || has_byte c s1) || has_byte c s2).
  rewrite IH. by rewrite orb_assoc.
Qed.

Lemma filter_no_newline (s : string) :
  has_byte "010" s = false -> has_byte "013" s = false ->
  filter (fun c => negb (is_newline c)) (list_of_string s)
  = list_of_string s.
Proof.
  induction s as [|x s IH]; [done|]. cbn [has_byte list_of_string].
  intros H1 H2. apply orb_false_iff in H1 as [A1 B1].
  apply orb_false_iff in H2 as [A2 B2].
  rewrite filter_cons_True; [by rewrite IH|].
  unfold is_newline. rewrite A1, A2. done.
Qed.

(** [DecodeString] undoes [EncodeToString]. *)
Lemma base64_round_trip (s : string) :
  base64_DecodeString (base64_EncodeToString s) = Some s.
Proof.
  unfold base64_DecodeString.
  rewrite filter_no_newline.
  - by apply (b64quanta_encode (String.length s)).
  - by apply (base64_no_byte _ (String.length s)).
  - by apply (base64_no_byte _ (String.length s)).
Qed.

Lemma str_take_app (s1 s2 : string) :
  str_take (String.length s1) (s1 +:+ s2) = s1.
Proof.
  induction s1 as [|x s1 IH]; [by destruct s2|].
  change (String x (str_take (String.length s1) (s1 +:+ s2)) = String x s1).
  by rewrite IH.
Qed.

Lemma length_app_str (s1 s2 : string) :
  String.length (s1 +:+ s2) = (String.length s1 + String.length s2)%nat.
Proof.
  induction s1 as [|x s1 IH]; [done|].
  change (S (String.length (s1 +:+ s2))
          = S (String.length s1 + String.length s2)).
  by rewrite IH.
Qed.

(** An encoding of 3k+2 bytes ends in one padding byte. *)
Lemma base64_padded (n : nat) :
  forall s, (String.length s <= n)%nat -> (String.length s mod 3 = 2)%nat ->
    exists e, base64_EncodeToString s = e +:+ "=".
Proof.
  induction n as [|n IH]; intros s Hn Hm.
  { destruct s; [done|cbn in Hn; lia]. }
  destruct s as [|a [|b [|x s]]]; [done|done|..].
  - cbn [base64_EncodeToString]. by eexists (String _ (String _ (String _ EmptyString))).
  - destruct (IH s) as [e He]; [cbn in Hn; lia|..].
    { change (String.length (String a (String b (String x s))))
        with (3 + String.length s)%nat in Hm.
      pose proof (Nat.Div0.mod_add (String.length s) 1 3) as E.
      rewrite Nat.add_comm in Hm. change (1 * 3)%nat with 3%nat in E.
      congruence. }
    cbn [base64_EncodeToString]. rewrite He.
    by eexists (String _ (String _ (String _ (String _ e)))).
Qed.

(** The digest as the record carries it (the encoding cut by one byte) and
    as [parsePost] reads it (with the padding put back). *)
Lemma digest_field_round_trip (sha : string) :
  String.length sha = 20%nat ->
  let s2 := base64_EncodeToString sha in
  base64_DecodeString (str_take (String.length s2 - 1) s2 +:+ "=")
  = Some sha
  /\ has_byte "|" (str_take (String.length s2 - 1) s2) = false.
Proof.
  intros L. cbn zeta.
  destruct (base64_padded 20 sha) as [e He]; [lia|by rewrite L|].
  pose proof (base64_no_byte "|" 20 eq_refl ltac:(done) sha ltac:(lia)) as Hb.
  rewrite He in Hb. rewrite has_byte_app in Hb.
  apply orb_false_iff in Hb as [Hb _].
  assert (str_take (String.length (base64_EncodeToString sha) - 1)
            (base64_EncodeToString sha) = e) as ->.
  { rewrite He, length_app_str. cbn [String.length].
    replace (String.length e + 1 - 1)%nat with (String.length e) by lia.
    apply str_take_app. }
  split; [|done]. rewrite <- He. apply base64_round_trip.
Qed.

(** ** The record codec: what is written is read back *)

Lemma remSep_no_sep (s : string) : has_byte "|" (remSep s) = false.
Proof.
  unfold remSep. induction s as [|x s IH]; [done|]. cbn [remove_byte].
  destruct (Ascii.eqb x "|") eqn:E; [done|]. cbn [has_byte].
  by rewrite E, IH.
Qed.

Lemma remSep_id (s : string) : has_byte "|" s = false -> remSep s = s.
Proof.
  unfold remSep. induction s as [|x s IH]; [done|]. cbn [remove_byte has_byte].
  intros H. apply orb_false_iff in H as [E H]. by rewrite E, IH.
Qed.

Lemma length_list_of_string (s : string) :
  length (list_of_string s) = String.length s.
Proof. induction s as [|x s IH]; [done|]. cbn. by rewrite IH. Qed.

Lemma string_of_list_of_string (s : string) :
  string_of_list (list_of_string s) = s.
Proof. induction s as [|x s IH]; [done|]. cbn. by rewrite IH. Qed.

Lemma length_string_of_list (l : list ascii) :
  String.length (string_of_list l) = length l.
Proof. induction l as [|x l IH]; [done|]. cbn. by rewrite IH. Qed.

Lemma copy20_length (s : string) : String.length (copy20 s) = 20%nat.
Proof.
  unfold copy20. rewrite length_string_of_list, length_take, length_app,
    length_replicate. lia.
Qed.

Lemma copy20_id (s : string) : String.length s = 20%nat -> copy20 s = s.
Proof.
  intros L. unfold copy20. rewrite take_app_length'.
  - apply string_of_list_of_string.
  - by rewrite length_list_of_string.
Qed.

(** The record [T%d|%s] parses back to the id and the subject. *)
Lemma parseTopic_T_record (id : Z) (subject : string) (w : World) :
  minInt <= id <= maxInt -> has_byte "|" subject = false ->
  parseTopic ("T" +:+ itoa id +:+ "|" +:+ subject) w
  = Ret {| Topic_Id := id; Subject := subject; Posts := empty_slice |} w.
Proof.
  intros Hid Hs. unfold parseTopic.
  change (str_drop 1 ("T" +:+ itoa id +:+ "|" +:+ subject))
    with (itoa id +:+ String "|" subject).
  rewrite Split_app by (by apply itoa_no_byte).
  rewrite Split_no_sep by done. by rewrite Atoi_itoa.
Qed.

(** The record [%d|%d] after the tag of a D or U record parses back. *)
Lemma parseDelUndel_record (topicId postId : Z) (w : World) :
  minInt <= topicId <= maxInt -> minInt <= postId <= maxInt ->
  parseDelUndel (itoa topicId +:+ "|" +:+ itoa postId) w
  = Ret (topicId, postId) w.
Proof.
  intros Ht Hp. unfold parseDelUndel.
  change (itoa topicId +:+ "|" +:+ itoa postId)
    with (itoa topicId +:+ String "|" (itoa postId)).
  rewrite Split_app by (by apply itoa_no_byte).
  rewrite Split_no_sep by (by apply itoa_no_byte).
  by rewrite !Atoi_itoa.
Qed.

Lemma str_app_assoc (a b c : string) : (a +:+ b) +:+ c = a +:+ (b +:+ c).
Proof.
  induction a as [|x a IH]; [done|].
  change (String x ((a +:+ b) +:+ c) = String x (a +:+ (b +:+ c))).
  by rewrite IH.
Qed.

Lemma P_line_record (t : Topic) (p : Post) :
  P_line t p
  = P_record (Topic_Id t) (Post_Id p) (unix_sec (CreatedOn p))
      (MessageSha1 p) (IpAddrInternal p) (UserNameInternal p) +:+ nl.
Proof.
  unfold P_line, P_record. cbn zeta. by rewrite !str_app_assoc.
Qed.

(** The record [P%d|%d|%s|%s|%s|%s] parses back to the fields of the post,
    with the time cut to the second. *)
Lemma parsePost_P_record (topicId id sec : Z) (sha ip user : string)
    (m : gmap Z TopicPtr) (w : World) (tp : TopicPtr) (topic : Topic) :
  minInt <= topicId <= maxInt -> minInt <= id <= maxInt ->
  minInt <= sec <= maxInt ->
  String.length sha = 20%nat ->
  has_byte "|" ip = false -> has_byte "|" user = false ->
  m !! topicId = Some tp -> load (topicArrs w) tp = Some topic ->
  id = wrap64 (Z.of_nat (s_len (Posts topic)) + 1) ->
  parsePost (P_record topicId id sec sha ip user) m w
  = Ret {| Post_Id := id; CreatedOn := time_Unix sec 0; MessageSha1 := sha;
           UserNameInternal := user; IpAddrInternal := ip;
           IsDeleted := false; Post_Topic := Some tp |} w.
Proof.
  intros Ht Hi Hs L Hip Hu Hm Hl Hid.
  destruct (digest_field_round_trip sha L) as [Hd Hb]. cbn zeta in Hd, Hb.
  unfold parsePost, P_record. cbn zeta.
  set (dg := str_take _ (base64_EncodeToString sha)) in *.
  change (str_drop 1 ("P" +:+ ?x)) with x.
  change (itoa topicId +:+ "|" +:+ itoa id +:+ "|" +:+ itoa sec +:+ "|"
          +:+ dg +:+ "|" +:+ ip +:+ "|" +:+ user)
    with (itoa topicId +:+ String "|" (itoa id +:+ String "|"
            (itoa sec +:+ String "|" (dg +:+ String "|"
               (ip +:+ String "|" user))))).
  rewrite (Split_app (itoa topicId)) by (by apply itoa_no_byte).
  rewrite (Split_app (itoa id)) by (by apply itoa_no_byte).
  rewrite (Split_app (itoa sec)) by (by apply itoa_no_byte).
  rewrite (Split_app dg) by done.
  rewrite (Split_app ip) by done.
  rewrite Split_no_sep by done.
  rewrite !Atoi_itoa by done. rewrite Hd.
  unfold slen. rewrite L. change (Z.of_nat 20 =? 20) with true.
  cbn [negb]. rewrite Hm. unfold bind at 1, load_topic. rewrite Hl.
  cbn [must ret]. rewrite <- Hid, Z.eqb_refl. cbn [negb].
  unfold bind, ret. by rewrite copy20_id.
Qed.

(** ** The names of a post *)

Lemma HasPrefix_t (u : string) : HasPrefix ("t:" +:+ u) "t:" = true.
Proof.
  unfold HasPrefix. apply String.prefix_correct. by destruct u.
Qed.

(** A name made for a Twitter login is recognised as one, and [UserName]
    gives the login name back, except that the login kjk is shown under the
    author's full name. *)
Theorem MakeInternalUserName_twitter_round_trip (p : Post) (u : string) :
  UserNameInternal p = MakeInternalUserName u true ->
  IsTwitterUser p = true
  /\ UserName p = if String.eqb u "kjk" then "Krzysztof Kowalczyk" else u.
Proof.
  intros E. unfold UserName, IsTwitterUser. rewrite E.
  unfold MakeInternalUserName.
  rewrite HasPrefix_t. split; [reflexivity|].
  change (String.eqb ("t:" +:+ u) "t:kjk") with (String.eqb u "kjk").
  destruct (String.eqb u "kjk"); reflexivity.
Qed.

Lemma MakeInternalUserName_twitter_round_trip_witness :
  IsTwitterUser (post_of_user "t:bob") = true
  /\ UserName (post_of_user "t:bob") = "bob".
Proof.
  apply (MakeInternalUserName_twitter_round_trip (post_of_user "t:bob")
           "bob").
  reflexivity.
Defined.

(** A name typed by an anonymous user loses one prefix of a byte and a
    colon, and no more: what follows the prefix is stored as it is. So the
    name [c:t:v] is stored as [t:v], the internal name of the Twitter login
    [v]. *)
Theorem MakeInternalUserName_strips_one_prefix (c : ascii) (rest : string) :
  rest <> EmptyString ->
  MakeInternalUserName (String c (String ":" rest)) false = rest
  /\ forall v, rest = "t:" +:+ v ->
       MakeInternalUserName (String c (String ":" rest)) false
       = MakeInternalUserName v true
       /\ IsTwitterUser
            (post_of_user
               (MakeInternalUserName (String c (String ":" rest)) false))
          = true.
Proof.
  intros Hne.
  assert (MakeInternalUserName (String c (String ":" rest)) false = rest)
    as E.
  { unfold MakeInternalUserName, slen. cbn [String.length String.get].
    destruct rest as [|x rest]; [done|]. cbn [String.length].
    destruct (Z.leb_spec 2 (Z.of_nat (S (S (S (String.length rest))))));
      [|lia].
    destruct (Z.ltb_spec 2 (Z.of_nat (S (S (S (String.length rest))))));
      [|lia].
    reflexivity. }
  split; [done|]. intros v ->. rewrite E.
  split; [reflexivity|apply HasPrefix_t].
Qed.

Lemma MakeInternalUserName_strips_one_prefix_witness :
  MakeInternalUserName "a:t:bob" false = "t:bob"
  /\ forall v, "t:bob" = "t:" +:+ v ->
       MakeInternalUserName "a:t:bob" false = MakeInternalUserName v true
       /\ IsTwitterUser (post_of_user (MakeInternalUserName "a:t:bob" false))
          = true.
Proof.
  apply (MakeInternalUserName_strips_one_prefix "a" "t:bob"). discriminate.
Defined.

(** ** Deleting and undeleting: the calls that succeed *)

Lemma poke_poke {A} (mem : list (list A)) (p : nat * nat) (x y : A) :
  poke (poke mem p x) p y = poke mem p y.
Proof.
  unfold poke at 1 3. rewrite poke_lookup. rewrite decide_True by done.
  destruct (mem !! p.1) as [cells|] eqn:E; cbn.
  - unfold poke. rewrite E. rewrite list_insert_insert_eq.
    by rewrite list_insert_insert_eq.
  - unfold poke. by rewrite E.
Qed.

Lemma poke_load_id {A} (mem : list (list A)) (p : nat * nat) (x : A) :
  load mem p = Some x -> poke mem p x = mem.
Proof.
  intros H. apply load_Some in H as (cells & Hc & Hx).
  unfold poke. rewrite Hc. rewrite (list_insert_id cells) by done.
  by apply list_insert_id.
Qed.

Lemma set_IsDeleted_back (p : Post) (b : bool) :
  set_IsDeleted (IsDeleted p) (set_IsDeleted b p) = p.
Proof. by destruct p. Qed.

(** The search for a topic reads the topics and nothing else. *)
Lemma topicByIdUnlocked_frame (id : Z) (w w1 : World) (r : option TopicPtr) :
  topicArrs w1 = topicArrs w -> store w1 = store w ->
  topicByIdUnlocked id w = Ret r w -> topicByIdUnlocked id w1 = Ret r w1.
Proof.
  intros Ht Hs H. unfold topicByIdUnlocked, bind, get in *.
  rewrite Ht, Hs.
  destruct (slice_cells (topicArrs w) (topics (store w))) as [cs|]; [|done].
  cbn [must ret] in *. unfold ret in *. injection H as <-. done.
Qed.

Section flags.

Context (w : World) (topicId postId : Z) (tp : TopicPtr) (t : Topic)
  (post : Post).
Hypothesis Htp : topicByIdUnlocked topicId w = Ret (Some tp) w.
Hypothesis Ht : load (topicArrs w) tp = Some t.
Hypothesis Hid : 1 <= postId <= Z.of_nat (s_len (Posts t)).
Hypothesis Hmax : postId <= maxInt.

Let pp : PostPtr := (s_arr (Posts t), Z.to_nat (postId - 1)).

Hypothesis Hpost : load (postArrs w) pp = Some post.

Lemma findPost_frame (w1 : World) :
  topicArrs w1 = topicArrs w -> store w1 = store w ->
  findPost topicId postId w1 = Ret (inl pp) w1.
Proof.
  intros E1 E2. apply findPost_found with (tp := tp); [|by rewrite E1|done..].
  by apply (topicByIdUnlocked_frame _ w).
Qed.

Lemma DeletePost_marks :
  IsDeleted post = false ->
  DeletePost None topicId postId w
  = Ret None (flagged pp post true (logged (D_line topicId postId) w)).
Proof.
  intros Hd. unfold DeletePost, bind. rewrite (findPost_frame w) by done.
  unfold load_post. rewrite Hpost. cbn [must ret]. rewrite Hd.
  unfold appendString, bind, modify, store_post, flagged, logged, D_line.
  cbn [must ret postArrs emit set_logData]. rewrite Hpost. reflexivity.
Qed.

Lemma UndeletePost_marks :
  IsDeleted post = true ->
  UndeletePost None topicId postId w
  = Ret None (flagged pp post false (logged (U_line topicId postId) w)).
Proof.
  intros Hd. unfold UndeletePost, bind. rewrite (findPost_frame w) by done.
  unfold load_post. rewrite Hpost. cbn [must ret]. rewrite Hd.
  unfold appendString, bind, modify, store_post, flagged, logged, U_line.
  cbn [must ret postArrs emit set_logData negb]. rewrite Hpost.
  reflexivity.
Qed.

Lemma DeletePost_write_fails (n : nat) (err : error) :
  IsDeleted post = false ->
  exists w', DeletePost (Some (n, err)) topicId postId w = Ret (Some err) w'
    /\ same_mem w w'
    /\ logData w' = logData w +:+ str_take n (D_line topicId postId).
Proof.
  intros Hd. unfold DeletePost, bind. rewrite (findPost_frame w) by done.
  unfold load_post. rewrite Hpost. cbn [must ret]. rewrite Hd.
  unfold appendString, bind, modify, fmt_Printf, modify, D_line.
  eexists. split; [reflexivity|]. done.
Qed.

End flags.

Lemma same_mem_views (w w' : World) :
  same_mem w w' ->
  view_topics w' = view_topics w /\ view_recent w' = view_recent w.
Proof.
  intros (A & B & C). unfold view_topics, view_recent, view_posts, view_topic.
  by rewrite A, B, C.
Qed.

(** [DeletePost] on a post that is there and not deleted: the record is
    appended to the data file, then the flag of that post is set, and no
    other cell of the memory changes. When the write fails, the error comes
    back and the flag stays as it was. *)
Theorem DeletePost_logs_then_marks (w : World) (topicId postId : Z)
    (tp : TopicPtr) (t : Topic) (post : Post) :
  topicByIdUnlocked topicId w = Ret (Some tp) w ->
  load (topicArrs w) tp = Some t ->
  1 <= postId <= Z.of_nat (s_len (Posts t)) -> postId <= maxInt ->
  load (postArrs w) (s_arr (Posts t), Z.to_nat (postId - 1)) = Some post ->
  IsDeleted post = false ->
  (exists w',
     DeletePost None topicId postId w = Ret None w'
     /\ logData w' = logData w +:+ D_line topicId postId
     /\ trace w' = trace w ++ [LogAppend (D_line topicId postId) true]
     /\ load (postArrs w') (s_arr (Posts t), Z.to_nat (postId - 1))
        = Some (set_IsDeleted true post)
     /\ (forall q, q <> (s_arr (Posts t), Z.to_nat (postId - 1)) ->
           load (postArrs w') q = load (postArrs w) q)
     /\ topicArrs w' = topicArrs w /\ store w' = store w
     /\ blobFiles w' = blobFiles w)
  /\ forall n err,
       exists w',
         DeletePost (Some (n, err)) topicId postId w = Ret (Some err) w'
         /\ same_mem w w'.
Proof.
  intros Htp Ht Hid Hmax Hpost Hd. split.
  - eexists. split; [by eapply DeletePost_marks|].
    unfold flagged, logged. cbn.
    split; [done|]. split; [done|]. split.
    { apply load_poke_eq. eauto. }
    split; [|done]. intros q Hq. by apply load_poke_ne.
  - intros n err.
    destruct (DeletePost_write_fails w topicId postId tp t post Htp Ht Hid
                Hmax Hpost n err Hd) as (w' & E & S & _).
    eauto.
Qed.

Lemma DeletePost_logs_then_marks_witness :
  exists w',
    DeletePost None 1 1 (world_after sample_calls) = Ret None w'
    /\ logData w' = logData (world_after sample_calls) +:+ D_line 1 1.
Proof.
  destruct (DeletePost_logs_then_marks (world_after sample_calls) 1 1
              (1%nat, 0%nat)
              {| Topic_Id := 1; Subject := "Hello";
                 Posts := {| s_arr := 1; s_len := 2; s_cap := 2 |} |}
              {| Post_Id := 1; CreatedOn := time_Unix 100 0;
                 MessageSha1 := copy20 (Sha1OfBytes "hi there");
                 UserNameInternal := "alice"; IpAddrInternal := "7f000001";
                 IsDeleted := false; Post_Topic := Some (0%nat, 0%nat) |})
    as [(w' & E & L & _) _].
  - vm_compute. reflexivity.
  - vm_compute. reflexivity.
  - vm_compute. split; discriminate.
  - vm_compute. discriminate.
  - vm_compute. reflexivity.
  - reflexivity.
  - eauto.
Defined.

(** [UndeletePost] undoes [DeletePost]: after both, the memory is the one
    before the two calls, so the topics and the global sequence show what
    they showed, and the data file has gained the D record and the U
    record. *)
Theorem UndeletePost_undoes_DeletePost (w : World) (topicId postId : Z)
    (tp : TopicPtr) (t : Topic) (post : Post) :
  topicByIdUnlocked topicId w = Ret (Some tp) w ->
  load (topicArrs w) tp = Some t ->
  1 <= postId <= Z.of_nat (s_len (Posts t)) -> postId <= maxInt ->
  load (postArrs w) (s_arr (Posts t), Z.to_nat (postId - 1)) = Some post ->
  IsDeleted post = false ->
  exists w1 w2,
    DeletePost None topicId postId w = Ret None w1
    /\ UndeletePost None topicId postId w1 = Ret None w2
    /\ same_mem w w2
    /\ view_topics w2 = view_topics w /\ view_recent w2 = view_recent w
    /\ logData w2
       = logData w +:+ D_line topicId postId +:+ U_line topicId postId.
Proof.
  intros Htp Ht Hid Hmax Hpost Hd.
  set (pp := (s_arr (Posts t), Z.to_nat (postId - 1))) in *.
  set (w1 := flagged pp post true (logged (D_line topicId postId) w)).
  assert (load (postArrs w1) pp = Some (set_IsDeleted true post)) as Hp1.
  { unfold w1, flagged, logged. cbn. apply load_poke_eq. eauto. }
  exists w1, (flagged pp (set_IsDeleted true post) false
                (logged (U_line topicId postId) w1)).
  split; [by eapply DeletePost_marks|].
  split.
  { eapply (UndeletePost_marks w1 topicId postId tp t); try done.
    by apply (topicByIdUnlocked_frame _ w). }
  assert (same_mem w
            (flagged pp (set_IsDeleted true post) false
               (logged (U_line topicId postId) w1))) as Hs.
  { split; [done|]. split; [|done]. unfold flagged, logged, w1. cbn.
    rewrite poke_poke. rewrite <- Hd at 1. rewrite set_IsDeleted_back.
    by apply poke_load_id. }
  split; [done|]. destruct (same_mem_views _ _ Hs) as [V1 V2].
  split; [done|]. split; [done|].
  unfold flagged, logged, w1. cbn. apply str_app_assoc.
Qed.

Lemma UndeletePost_undoes_DeletePost_witness :
  exists w1 w2,
    DeletePost None 1 1 (world_after sample_calls) = Ret None w1
    /\ UndeletePost None 1 1 w1 = Ret None w2
    /\ same_mem (world_after sample_calls) w2.
Proof.
  destruct (UndeletePost_undoes_DeletePost (world_after sample_calls) 1 1
              (1%nat, 0%nat)
              {| Topic_Id := 1; Subject := "Hello";
                 Posts := {| s_arr := 1; s_len := 2; s_cap := 2 |} |}
              {| Post_Id := 1; CreatedOn := time_Unix 100 0;
                 MessageSha1 := copy20 (Sha1OfBytes "hi there");
                 UserNameInternal := "alice"; IpAddrInternal := "7f000001";
                 IsDeleted := false; Post_Topic := Some (0%nat, 0%nat) |})
    as (w1 & w2 & E1 & E2 & S & _).
  - vm_compute. reflexivity.
  - vm_compute. reflexivity.
  - vm_compute. split; discriminate.
  - vm_compute. discriminate.
  - vm_compute. reflexivity.
  - reflexivity.
  - eauto.
Defined.

(** The errors of [DeletePost] and [UndeletePost]: an id that no topic has,
    and a post id beyond the last post of the topic, each give the error of
    [findPost], and the world is the one that was given: nothing is written
    and nothing changes. *)
Theorem DeletePost_unknown_ids (w : World) (fails : option (nat * error))
    (topicId postId : Z) :
  (topicByIdUnlocked topicId w = Ret None w ->
   DeletePost fails topicId postId w
   = Ret (Some (errors_New "didn't find a topic with this id")) w
   /\ UndeletePost fails topicId postId w
      = Ret (Some (errors_New "didn't find a topic with this id")) w
   /\ error_kind (errors_New "didn't find a topic with this id")
      = Some UnknownTopicReference)
  /\ (forall tp t,
        topicByIdUnlocked topicId w = Ret (Some tp) w ->
        load (topicArrs w) tp = Some t ->
        Z.of_nat (s_len (Posts t)) < postId ->
        DeletePost fails topicId postId w
        = Ret (Some (errors_New "didn't find post with this id")) w
        /\ UndeletePost fails topicId postId w
           = Ret (Some (errors_New "didn't find post with this id")) w
        /\ error_kind (errors_New "didn't find post with this id")
           = Some InvalidPostIndex).
Proof.
  split.
  - intros H. unfold DeletePost, UndeletePost, findPost, bind.
    rewrite H. done.
  - intros tp t H Ht Hp.
    unfold DeletePost, UndeletePost, findPost, bind, load_topic.
    rewrite H, Ht. cbn [must ret].
    destruct (Z.ltb_spec (Z.of_nat (s_len (Posts t))) postId); [|lia].
    done.
Qed.

Lemma DeletePost_unknown_ids_witness :
  DeletePost None 9 1 (world_after sample_calls)
  = Ret (Some (errors_New "didn't find a topic with this id"))
      (world_after sample_calls)
  /\ DeletePost None 1 3 (world_after sample_calls)
     = Ret (Some (errors_New "didn't find post with this id"))
         (world_after sample_calls).
Proof.
  destruct (DeletePost_unknown_ids (world_after sample_calls) None 9 1)
    as [H1 _].
  destruct (DeletePost_unknown_ids (world_after sample_calls) None 1 3)
    as [_ H2].
  assert (topicByIdUnlocked 9 (world_after sample_calls)
          = Ret None (world_after sample_calls)) as A
    by (vm_compute; reflexivity).
  assert (topicByIdUnlocked 1 (world_after sample_calls)
          = Ret (Some (1%nat, 0%nat)) (world_after sample_calls)) as B
    by (vm_compute; reflexivity).
  assert (load (topicArrs (world_after sample_calls)) (1%nat, 0%nat)
          = Some {| Topic_Id := 1; Subject := "Hello";
                    Posts := {| s_arr := 1; s_len := 2; s_cap := 2 |} |})
    as C by (vm_compute; reflexivity).
  destruct (H1 A) as [E1 _].
  destruct (H2 _ _ B C ltac:(cbn; lia)) as [E2 _].
  split; [exact E1|exact E2].
Defined.

(** [remSep] leaves no separator, and leaves a string without separator as
    it is; so applying it twice is applying it once, and a cleaned string
    is one part for [strings.Split]. *)
Theorem remSep_removes_every_separator (s : string) :
  has_byte "|" (remSep s) = false
  /\ (has_byte "|" s = false -> remSep s = s)
  /\ remSep (remSep s) = remSep s
  /\ Split (remSep s) "|" = [remSep s].
Proof.
  pose proof (remSep_no_sep s) as H.
  split; [done|]. split; [apply remSep_id|].
  split; [by apply remSep_id|by apply Split_no_sep].
Qed.

(** The T record that [addNewPost] writes for a new topic, without its line
    feed, is read back by [parseTopic] as the id and the cleaned subject of
    that topic, for every id an [int] holds and every subject. *)
Theorem parseTopic_reads_the_T_record (id : Z) (subject : string)
    (w : World) :
  minInt <= id <= maxInt ->
  T_line (new_topic subject id)
  = ("T" +:+ itoa id +:+ "|" +:+ remSep subject) +:+ nl
  /\ parseTopic ("T" +:+ itoa id +:+ "|" +:+ remSep subject) w
     = Ret (new_topic subject id) w.
Proof.
  intros Hid. split.
  - unfold T_line, new_topic. cbn [Topic_Id Subject].
    by rewrite !str_app_assoc.
  - apply parseTopic_T_record; [done|apply remSep_no_sep].
Qed.

Lemma parseTopic_reads_the_T_record_witness :
  parseTopic "T7|a topic" blank_world
  = Ret {| Topic_Id := 7; Subject := "a topic"; Posts := empty_slice |}
      blank_world.
Proof.
  apply (parseTopic_reads_the_T_record 7 "a |topic" blank_world).
  vm_compute. split; discriminate.
Defined.

(** The D and U records that [DeletePost] and [UndeletePost] write are read
    back by [parseDelUndel] as the two ids, and [findPostToDelUndel] finds
    through the map of the replayer the cell that [findPost] finds in the
    store: the post at index [postId - 1] of the topic. *)
Theorem findPostToDelUndel_reads_the_record (topicId postId : Z)
    (m : gmap Z TopicPtr) (w : World) (tp : TopicPtr) (t : Topic) :
  minInt <= topicId <= maxInt ->
  1 <= postId <= Z.of_nat (s_len (Posts t)) -> postId <= maxInt ->
  m !! topicId = Some tp -> load (topicArrs w) tp = Some t ->
  D_line topicId postId
  = "D" +:+ (itoa topicId +:+ "|" +:+ itoa postId) +:+ nl
  /\ U_line topicId postId
     = "U" +:+ (itoa topicId +:+ "|" +:+ itoa postId) +:+ nl
  /\ parseDelUndel (itoa topicId +:+ "|" +:+ itoa postId) w
     = Ret (topicId, postId) w
  /\ findPostToDelUndel (itoa topicId +:+ "|" +:+ itoa postId) m w
     = Ret (s_arr (Posts t), Z.to_nat (postId - 1)) w.
Proof.
  intros Ht Hp Hmax Hm Hl.
  assert (minInt <= postId <= maxInt) as Hp' by (unfold minInt; lia).
  split; [unfold D_line; by rewrite !str_app_assoc|].
  split; [unfold U_line; by rewrite !str_app_assoc|].
  split; [by apply parseDelUndel_record|].
  unfold findPostToDelUndel. unfold bind at 1.
  rewrite parseDelUndel_record by done. rewrite Hm.
  unfold bind, load_topic. rewrite Hl. cbn [must ret].
  destruct (Z.ltb_spec (Z.of_nat (s_len (Posts t))) postId); [lia|].
  rewrite wrap64_small by (unfold minInt, maxInt in *; lia).
  apply addr_of_in. lia.
Qed.

Lemma findPostToDelUndel_reads_the_record_witness :
  findPostToDelUndel "1|2" {[1 := (1%nat, 0%nat)]} (world_after sample_calls)
  = Ret (1%nat, 1%nat) (world_after sample_calls).
Proof.
  destruct (findPostToDelUndel_reads_the_record 1 2 {[1 := (1%nat, 0%nat)]}
              (world_after sample_calls) (1%nat, 0%nat)
              {| Topic_Id := 1; Subject := "Hello";
                 Posts := {| s_arr := 1; s_len := 2; s_cap := 2 |} |})
    as (_ & _ & _ & E).
  - vm_compute. split; discriminate.
  - vm_compute. split; discriminate.
  - vm_compute. discriminate.
  - reflexivity.
  - vm_compute. reflexivity.
  - exact E.
Defined.

(** The P record that [addNewPost] writes, without its line feed, is read
    back by [parsePost] as the post that was stored: the same id, digest,
    cleaned user name and encoded address, not deleted, and the time of
    creation cut to the second. This holds when the topic id of the record
    is in the map of the replayer and leads to a topic with as many posts
    as the topic had when the record was written. *)
Theorem parsePost_reads_the_P_record (io : IO) (msg user ipAddr : string)
    (live : TopicPtr) (t : Topic) (m : gmap Z TopicPtr) (w : World)
    (tp : TopicPtr) (topic : Topic) :
  let p := new_post io msg user ipAddr live t in
  minInt <= Topic_Id t <= maxInt ->
  Z.of_nat (s_len (Posts t)) < maxInt ->
  minInt <= unix_sec (io_now io) <= maxInt ->
  m !! Topic_Id t = Some tp -> load (topicArrs w) tp = Some topic ->
  s_len (Posts topic) = s_len (Posts t) ->
  exists line,
    P_line t p = line +:+ nl
    /\ parsePost line m w
       = Ret {| Post_Id := Post_Id p;
                CreatedOn := time_Unix (unix_sec (CreatedOn p)) 0;
                MessageSha1 := MessageSha1 p;
                UserNameInternal := UserNameInternal p;
                IpAddrInternal := IpAddrInternal p;
                IsDeleted := false; Post_Topic := Some tp |} w.
Proof.
  intros p Ht Hlen Hsec Hm Hl Hn.
  eexists. split; [apply P_line_record|].
  assert (Post_Id p = Z.of_nat (s_len (Posts t)) + 1) as Hid.
  { unfold p, new_post. cbn [Post_Id].
    apply wrap64_small. unfold minInt, maxInt in *. lia. }
  apply parsePost_P_record with (topic := topic); try done.
  - rewrite Hid. unfold minInt, maxInt in *. lia.
  - apply copy20_length.
  - apply remSep_no_sep.
  - apply remSep_no_sep.
  - rewrite Hn. done.
Qed.

Lemma parsePost_reads_the_P_record_witness :
  exists line,
    P_line {| Topic_Id := 1; Subject := "Hello"; Posts := empty_slice |}
      (new_post (clock 100) "hi there" "alice" "127.0.0.1" (0%nat, 0%nat)
         {| Topic_Id := 1; Subject := "Hello"; Posts := empty_slice |})
    = line +:+ nl
    /\ parsePost line {[1 := (0%nat, 0%nat)]}
         (replayed ("T1|Hello" +:+ nl))
       = Ret {| Post_Id := 1; CreatedOn := time_Unix 100 0;
                MessageSha1 := copy20 (Sha1OfBytes "hi there");
                UserNameInternal := "alice"; IpAddrInternal := "7f000001";
                IsDeleted := false; Post_Topic := Some (0%nat, 0%nat) |}
           (replayed ("T1|Hello" +:+ nl)).
Proof.
  destruct (parsePost_reads_the_P_record (clock 100) "hi there" "alice"
              "127.0.0.1" (0%nat, 0%nat)
              {| Topic_Id := 1; Subject := "Hello"; Posts := empty_slice |}
              {[1 := (0%nat, 0%nat)]} (replayed ("T1|Hello" +:+ nl))
              (0%nat, 0%nat)
              {| Topic_Id := 1; Subject := "Hello"; Posts := empty_slice |})
    as (line & E1 & E2).
  - vm_compute. split; discriminate.
  - vm_compute. reflexivity.
  - vm_compute. split; discriminate.
  - reflexivity.
  - vm_compute. reflexivity.
  - reflexivity.
  - exists line. split; [exact E1|].
    rewrite E2. f_equal.
Defined.

(** ** Looking a topic up *)

Lemma topicById_loop_none (id : Z) (arr : nat) (cells : list Topic) :
  forall idx, id ∉ map Topic_Id cells ->
    topicById_loop id arr idx cells = None.
Proof.
  induction cells as [|t cells IH]; intros idx H; [done|].
  cbn [topicById_loop]. cbn [map] in H.
  apply not_elem_of_cons in H as [Hne H].
  destruct (Z.eqb_spec id (Topic_Id t)); [done|]. by apply IH.
Qed.

Lemma topicById_loop_first (id : Z) (arr : nat) (cells : list Topic) :
  forall idx k,
    map Topic_Id cells !! k = Some id ->
    (forall j, (j < k)%nat -> map Topic_Id cells !! j <> Some id) ->
    topicById_loop id arr idx cells = Some (arr, (idx + k)%nat).
Proof.
  induction cells as [|t cells IH]; intros idx k Hk Hfirst; [done|].
  cbn [topicById_loop]. destruct k as [|k].
  - cbn in Hk. injection Hk as <-. rewrite Z.eqb_refl.
    by rewrite Nat.add_0_r.
  - destruct (Z.eqb_spec id (Topic_Id t)) as [E|_].
    + exfalso. apply (Hfirst 0%nat); [lia|]. cbn. by rewrite E.
    + rewrite (IH (S idx) k); [f_equal; f_equal; lia|done|].
      intros j Hj. apply (Hfirst (S j)). lia.
Qed.

(** [TopicById] returns the address of the first topic of the store that
    has the id, and nil when no topic has it; it reads the store and
    changes nothing. *)
Theorem TopicById_finds_the_first_match (w : World) (id : Z)
    (ids : list Z) :
  topic_ids w = Some ids ->
  (id ∉ ids -> TopicById id w = Ret None w)
  /\ (forall k,
        ids !! k = Some id ->
        (forall j, (j < k)%nat -> ids !! j <> Some id) ->
        TopicById id w = Ret (Some (s_arr (topics (store w)), k)) w).
Proof.
  unfold topic_ids, TopicById, topicByIdUnlocked, bind, get.
  destruct (slice_cells (topicArrs w) (topics (store w))) as [cs|];
    [|done].
  intros [= <-]. cbn [must ret]. split.
  - intros H. unfold ret. by rewrite topicById_loop_none.
  - intros k Hk Hfirst. unfold ret.
    by rewrite (topicById_loop_first id _ cs 0 k).
Qed.

Lemma TopicById_finds_the_first_match_witness :
  TopicById 2 (world_after three_topics)
  = Ret (Some (s_arr (topics (store (world_after three_topics))), 1%nat))
      (world_after three_topics).
Proof.
  destruct (TopicById_finds_the_first_match (world_after three_topics) 2
              [1; 2; 3]) as [_ H].
  - vm_compute. reflexivity.
  - apply (H 1%nat); [reflexivity|].
    intros j Hj. assert (j = 0%nat) as -> by lia. discriminate.
Defined.

(** When the ids of the topics are 1, 2, .., n in this order, the lookup
    of an id is the lookup of a position. *)
Lemma TopicById_seqZ (w : World) (i n : Z) :
  topic_ids w = Some (seqZ 1 n) ->
  TopicById i w
  = Ret (if (1 <=? i) && (i <=? n)
         then Some (s_arr (topics (store w)), Z.to_nat (i - 1))
         else None) w.
Proof.
  unfold topic_ids, TopicById, topicByIdUnlocked, bind, get.
  destruct (slice_cells (topicArrs w) (topics (store w))) as [cs|];
    [|done].
  intros [= Hids]. cbn [must ret]. unfold ret. f_equal.
  destruct (Z.leb_spec 1 i); destruct (Z.leb_spec i n); cbn [andb].
  - apply (topicById_loop_first i _ cs 0 (Z.to_nat (i - 1))).
    + rewrite Hids. apply lookup_seqZ. split; lia.
    + intros j Hj E. rewrite Hids in E. apply lookup_seqZ in E. lia.
  - apply topicById_loop_none. rewrite Hids.
    intros E. apply elem_of_seqZ in E. lia.
  - apply topicById_loop_none. rewrite Hids.
    intros E. apply elem_of_seqZ in E. lia.
  - apply topicById_loop_none. rewrite Hids.
    intros E. apply elem_of_seqZ in E. lia.
Qed.

(** In a store that began without a data file the ids are the positions:
    for every i from 1 to the number of topics [TopicById] returns the
    address of the i-th topic, and for every other id it returns nil. *)
Theorem TopicById_of_a_new_store (w : World) (i : Z) :
  reachable_new w ->
  TopicById i w
  = Ret (if (1 <=? i) && (i <=? Z.of_nat (s_len (topics (store w))))
         then Some (s_arr (topics (store w)), Z.to_nat (i - 1))
         else None) w.
Proof.
  intros Hr. apply TopicById_seqZ. by apply reachable_new_ids.
Qed.

Lemma TopicById_of_a_new_store_witness :
  TopicById 3 (world_after three_topics)
  = Ret (if (1 <=? 3)
            && (3 <=? Z.of_nat
                        (s_len (topics (store (world_after three_topics)))))
         then Some (s_arr (topics (store (world_after three_topics))),
                    Z.to_nat (3 - 1))
         else None) (world_after three_topics).
Proof.
  exact (TopicById_of_a_new_store (world_after three_topics) 3
           (world_after_reachable three_topics)).
Defined.

(** ** Pages of topics: every page *)




(** ** The filtered scans: every result *)

Lemma scan_posts_spec (keep : Post -> bool) (max : Z) (w : World) :
  forall (l res : list PostPtr),
    Forall (fun pp => is_Some (load (postArrs w) pp)) l ->
    res = [] \/ len res <= max ->
    scan_posts keep max l res w
    = Ret (res ++ take (Z.to_nat (Z.max 1 (max + 1 - len res)))
                    (matching keep (postArrs w) l)) w.
Proof.
  induction l as [|pp l IH]; intros res Hall Hres.
  { cbn. by rewrite take_nil, app_nil_r. }
  apply Forall_cons in Hall as [[p Hp] Hall].
  cbn [scan_posts matching]. unfold bind, load_post. rewrite Hp.
  cbn [must ret]. destruct (keep p); [|by apply IH].
  assert (len (res ++ [pp]) = len res + 1) as Hlen
    by (unfold len; rewrite length_app; cbn; lia).
  rewrite Hlen.
  destruct (Z.ltb_spec max (len res + 1)) as [Hstop|Hgo].
  - assert (Z.to_nat (Z.max 1 (max + 1 - len res)) = 1%nat) as ->.
    { destruct Hres as [->|?]; unfold len in *; cbn in *; lia. }
    done.
  - rewrite IH; [|done|right; lia]. rewrite Hlen, <- app_assoc.
    assert (Z.to_nat (Z.max 1 (max + 1 - len res))
            = S (Z.to_nat (Z.max 1 (max + 1 - (len res + 1))))) as ->
      by lia.
    done.
Qed.

(** The two filtered scans: they return the newest entries of the global
    sequence whose user name (or encoded address) is the one asked for,
    newest first, up to [max + 1] of them, and for a [max] below 1 the
    newest one alone; the store is not changed. *)
Theorem filtered_scans_return_the_newest_matches (w : World)
    (wanted : string) (max : Z) :
  Forall (fun pp => is_Some (load (postArrs w) pp)) (posts (store w)) ->
  GetPostsByUserInternal wanted max w
  = Ret (take (Z.to_nat (Z.max 1 (max + 1)))
           (matching (fun p => String.eqb (UserNameInternal p) wanted)
              (postArrs w) (rev (posts (store w))))) w
  /\ GetPostsByIpInternal wanted max w
     = Ret (take (Z.to_nat (Z.max 1 (max + 1)))
              (matching (fun p => String.eqb (IpAddrInternal p) wanted)
                 (postArrs w) (rev (posts (store w))))) w.
Proof.
  intros Hall. apply Forall_rev in Hall.
  unfold GetPostsByUserInternal, GetPostsByIpInternal, bind, get.
  rewrite !scan_posts_spec by (done || by left).
  cbn [app]. change (len []) with 0. by rewrite Z.sub_0_r.
Qed.

Lemma filtered_scans_return_the_newest_matches_witness :
  GetPostsByUserInternal "alice" 5 (world_after three_topics)
  = Ret (take (Z.to_nat (Z.max 1 (5 + 1)))
           (matching (fun p => String.eqb (UserNameInternal p) "alice")
              (postArrs (world_after three_topics))
              (rev (posts (store (world_after three_topics))))))
      (world_after three_topics)
  /\ length (matching (fun p => String.eqb (UserNameInternal p) "alice")
               (postArrs (world_after three_topics))
               (rev (posts (store (world_after three_topics))))) = 4%nat.
Proof.
  split; [|vm_compute; reflexivity].
  apply (filtered_scans_return_the_newest_matches
           (world_after three_topics) "alice" 5).
  assert (posts (store (world_after three_topics))
          = [(0%nat, 0%nat); (1%nat, 0%nat); (2%nat, 0%nat);
             (3%nat, 1%nat); (4%nat, 2%nat)]) as ->
    by (vm_compute; reflexivity).
  repeat constructor; vm_compute; eauto.
Defined.

(** ** Data files the replayer does not accept *)

Lemma IndexByte_range (d : string) (c : ascii) :
  IndexByte d c = -1 \/ 0 <= IndexByte d c.
Proof.
  induction d as [|x d IH]; [by left|]. cbn [IndexByte].
  destruct (Ascii.eqb x c); [right; lia|].
  destruct (Z.ltb_spec (IndexByte d c) 0); [by left|right; lia].
Qed.

Lemma IndexByte_cons_ne (x c : ascii) (d : string) :
  Ascii.eqb x c = false ->
  IndexByte (String x d) c = -1
  \/ (0 <= IndexByte d c /\ IndexByte (String x d) c = IndexByte d c + 1).
Proof.
  intros E. cbn [IndexByte]. rewrite E.
  destruct (Z.ltb_spec (IndexByte d c) 0); [by left|right; lia].
Qed.

Lemma IndexByte_skip2 (x y c : ascii) (d : string) :
  Ascii.eqb x c = false -> Ascii.eqb y c = false ->
  IndexByte (String x (String y d)) c = -1
  \/ (0 <= IndexByte d c
      /\ IndexByte (String x (String y d)) c = IndexByte d c + 2).
Proof.
  intros Ex Ey. cbn [IndexByte]. rewrite Ex, Ey.
  destruct (Z.ltb_spec (IndexByte d c) 0); [by left|].
  destruct (Z.ltb_spec (IndexByte d c + 1) 0); [lia|right; lia].
Qed.

Lemma ended_cons (c : ascii) (d : string) :
  d <> EmptyString -> ended (String c d) = ended d.
Proof. by destruct d. Qed.

(** The first line of data that ends in a line feed lies within it. *)
Lemma first_line_within (X : string) (d1 : string) :
  d1 <> EmptyString -> ended d1 = true ->
  IndexByte (d1 +:+ X) LF <> -1
  /\ exists d2,
       str_drop (Z.to_nat (IndexByte (d1 +:+ X) LF + 1)) (d1 +:+ X)
       = d2 +:+ X
       /\ ended d2 = true.
Proof.
  induction d1 as [|c d1 IH]; [done|]. intros _ He.
  change (String c d1 +:+ X) with (String c (d1 +:+ X)).
  destruct (Ascii.eqb c LF) eqn:Ec.
  - cbn [IndexByte]. rewrite Ec. split; [done|]. exists d1. split; [done|].
    destruct d1 as [|c' d1']; [done|]. by rewrite ended_cons in He.
  - destruct d1 as [|c' d1'].
    { cbn in He. congruence. }
    rewrite ended_cons in He by done.
    destruct (IH ltac:(done) He) as (Hne & d2 & Hd & He2).
    destruct (IndexByte_cons_ne c LF (String c' d1' +:+ X) Ec)
      as [E|[Hpos E]].
    + exfalso. cbn [IndexByte] in E. rewrite Ec in E.
      destruct (IndexByte_range (String c' d1' +:+ X) LF) as [?|?]; [done|].
      destruct (Z.ltb_spec (IndexByte (String c' d1' +:+ X) LF) 0); lia.
    + rewrite E. split; [lia|]. exists d2. split; [|done].
      replace (Z.to_nat (IndexByte (String c' d1' +:+ X) LF + 1 + 1))
        with (S (Z.to_nat (IndexByte (String c' d1' +:+ X) LF + 1)))
        by lia.
      exact Hd.
Qed.

Lemma Split_cons_ne (c sep : ascii) (s : string) :
  Ascii.eqb c sep = false ->
  exists p ps, Split (String c s) sep = String c p :: ps
    /\ length (String c p :: ps) = length (Split s sep).
Proof.
  intros E. cbn [Split]. rewrite E.
  destruct (Split s sep) as [|p ps] eqn:Es.
  - exfalso. destruct s; cbn in Es; [done|].
    destruct (Ascii.eqb a sep); [done|]. by destruct (Split s sep).
  - eauto.
Qed.

(** After the tag of a D or U record comes a topic id: a colon there stops
    the replayer. *)
Lemma findPostToDelUndel_colon (l : string) (m : gmap Z TopicPtr)
    (w : World) (pp : PostPtr) (w' : World) :
  findPostToDelUndel (String ":" l) m w <> Ret pp w'.
Proof.
  intros H. unfold findPostToDelUndel in H.
  apply bind_inv in H as (r & w1 & H & _).
  unfold parseDelUndel in H.
  destruct (Split_cons_ne ":" "|" l eq_refl) as (p & ps & Es & _).
  rewrite Es in H. destruct ps as [|q [|? ?]]; [done| |done].
  change (Atoi (String ":" p)) with (0, Some ErrSyntax) in H. done.
Qed.

(** A line that begins with [U:] stops the replayer, wherever it stands:
    [parseTopics] does not return. *)
Lemma parseTopics_loop_U_colon (rest : string) (fuel : nat) :
  forall (d1 : string) (ts : Slice) (m : gmap Z TopicPtr) (w : World)
         (ts' : Slice) (w' : World),
    ended d1 = true ->
    parseTopics_loop fuel (d1 +:+ "U:" +:+ rest) ts m w <> Ret ts' w'.
Proof.
  induction fuel as [|fuel IH]; intros d1 ts m w ts' w' He H.
  { destruct d1; cbn in H; done. }
  destruct d1 as [|c1 d1].
  - (* the line is the next one *)
    change (EmptyString +:+ "U:" +:+ rest)
      with (String "U" (String ":" rest)) in H.
    cbn [parseTopics_loop] in H.
    destruct (IndexByte_skip2 "U" ":" LF rest eq_refl eq_refl)
      as [E|[Hpos E]]; rewrite E in H; [done|].
    destruct (IndexByte rest LF + 2 =? -1); [done|].
    replace (Z.to_nat (IndexByte rest LF + 2))
      with (S (S (Z.to_nat (IndexByte rest LF)))) in H by lia.
    cbn [str_take] in H.
    change (Ascii.eqb "U" "T") with false in H.
    change (Ascii.eqb "U" "P") with false in H.
    change (Ascii.eqb "U" "D") with false in H.
    change (Ascii.eqb "U" "U") with true in H. cbv iota in H.
    apply bind_inv in H as (pp & w1 & H & _).
    cbn [str_drop] in H. by apply findPostToDelUndel_colon in H.
  - (* an earlier line *)
    destruct (first_line_within ("U:" +:+ rest) (String c1 d1))
      as (Hne & d2 & Hd & He2); [done|done|].
    change (String c1 d1 +:+ "U:" +:+ rest)
      with (String c1 (d1 +:+ "U:" +:+ rest)) in *.
    cbn [parseTopics_loop] in H.
    destruct (Z.eqb_spec (IndexByte (String c1 (d1 +:+ "U:" +:+ rest)) LF)
                (-1)); [done|].
    rewrite Hd in H.
    destruct (str_take _ _) as [|c line] eqn:Eline; [done|].
    destruct (Ascii.eqb c "T") eqn:ET; [|destruct (Ascii.eqb c "P") eqn:EP;
      [|destruct (Ascii.eqb c "D") eqn:ED; [|destruct (Ascii.eqb c "U") eqn:EU;
        [|destruct (Ascii.eqb c "B") eqn:EB; [|done]]]]].
    all: unfold store_post in H; minvs.
    all: try (eapply IH; [|eassumption]; done).
Qed.

Lemma str_app_nil_r (s : string) : s +:+ EmptyString = s.
Proof.
  induction s as [|x s IH]; [done|].
  change (String x (s +:+ EmptyString) = String x s). by rewrite IH.
Qed.

Lemma log_ext_refl (w : World) : log_ext w w.
Proof. exists EmptyString. by rewrite str_app_nil_r. Qed.

Lemma log_ext_same (w w' : World) : logData w' = logData w -> log_ext w w'.
Proof. intros E. exists EmptyString. by rewrite str_app_nil_r. Qed.

Lemma log_ext_trans (w1 w2 w3 : World) :
  log_ext w1 w2 -> log_ext w2 w3 -> log_ext w1 w3.
Proof.
  intros [a Ha] [b Hb]. exists (a +:+ b).
  by rewrite Hb, Ha, str_app_assoc.
Qed.

Lemma appendString_log_ext (str : string) (fails : option (nat * error))
    (w : World) (e : option error) (w' : World) :
  appendString str fails w = Ret e w' -> log_ext w w'.
Proof.
  intros H. apply appendString_inv in H as (_ & _ & H).
  destruct fails as [[n err]|]; destruct H as (_ & L & _); by eexists.
Qed.

Lemma addNewPost_log_ext (io : IO) (msg user ipAddr : string)
    (topic : TopicPtr) (newTopic : bool) (w : World) (e : option error)
    (w' : World) :
  addNewPost io msg user ipAddr topic newTopic w = Ret e w' -> log_ext w w'.
Proof.
  intros H. unfold addNewPost, append_to_topic, store_topic in H. minvs.
  all: repeat match goal with
       | H : addr_last_post _ _ = _ |- _ => apply addr_last_post_inv in H as ->
       | H : push_recent _ _ = _ |- _ => apply push_recent_inv in H as ->
       | H : writeMessageAsSha1 _ _ _ _ = _ |- _ =>
           apply writeMessageAsSha1_inv in H as (_ & _ & L1 & _)
       | H : appendString _ _ _ = _ |- _ =>
           apply appendString_log_ext in H as [t2 L2]
       | H : append_Topic _ _ _ = _ |- _ =>
           apply append_Topic_inv in H as (? & _ & ->)
       | H : append_Post _ _ _ = _ |- _ =>
           apply append_Post_inv in H as (? & _ & ->)
       end.
  all: try (by apply log_ext_same).
  all: try (exists t2; cbn [logData set_store set_topicArrs set_postArrs];
            by rewrite L2, L1).
Qed.

Lemma call_log_ext (c : Call) (w : World) (e : option error) (w' : World) :
  call c w = Ret e w' -> log_ext w w'.
Proof.
  destruct c; cbn [call]; intros H.
  - unfold CreateNewPost, store_topic in H. minvs.
    all: repeat match goal with
         | H : new_Topic _ _ = _ |- _ => apply new_Topic_inv in H as [-> ->]
         | H : addNewPost _ _ _ _ _ _ _ = _ |- _ =>
             apply addNewPost_log_ext in H
         end.
    all: done.
  - unfold AddPostToTopic in H. minvs.
    all: repeat match goal with
         | H : topicByIdUnlocked _ _ = _ |- _ =>
             apply topicByIdUnlocked_inv in H as ->
         | H : addNewPost _ _ _ _ _ _ _ = _ |- _ =>
             apply addNewPost_log_ext in H
         end.
    all: try done. all: apply log_ext_refl.
  - unfold DeletePost, store_post in H. minvs.
    all: repeat match goal with
         | H : findPost _ _ _ = _ |- _ => apply findPost_inv in H as ->
         | H : appendString _ _ _ = _ |- _ =>
             apply appendString_log_ext in H
         end.
    all: try done. all: apply log_ext_refl.
  - unfold UndeletePost, store_post in H. minvs.
    all: repeat match goal with
         | H : findPost _ _ _ = _ |- _ => apply findPost_inv in H as ->
         | H : appendString _ _ _ = _ |- _ =>
             apply appendString_log_ext in H
         end.
    all: try done. all: apply log_ext_refl.
  - unfold BlockIp, blockIp in H. minvs.
    by eapply appendString_log_ext.
  - unfold UnblockIp, unblockIp in H. minvs.
    by eapply appendString_log_ext.
Qed.

Lemma calls_log_ext (cs : list Call) :
  forall (w : World) (es : list (option error)) (w' : World),
    calls cs w = Ret es w' -> log_ext w w'.
Proof.
  induction cs as [|c cs IH]; intros w es w' H; cbn [calls] in H; minvs.
  - apply log_ext_refl.
  - eapply log_ext_trans; [by eapply call_log_ext|by eapply IH].
Qed.

(** The replayer does not get past a line that begins with [U:]. *)
Ltac stops_at_U_colon H :=
  unfold NewStore, disk_with in H;
  cbn [disk_log read_err create_err open_err disk_blobs default] in H;
  unfold parseTopics in H; minvs;
  match goal with H' : parseTopics_loop _ _ _ _ _ = Ret _ _ |- _ =>
    by apply parseTopics_loop_U_colon in H' end.

(** A data file with a line that begins with [U:] cannot be opened:
    whatever stands before that line (complete lines) and after it,
    [NewStore] does not return; the replayer panics at that line if not
    before. *)
Theorem NewStore_stops_at_U_colon (dataDir forumName d1 rest : string)
    (blobs : gmap string string) (e : option error) (w : World) :
  ended d1 = true ->
  NewStore dataDir forumName (disk_with (d1 +:+ "U:" +:+ rest) blobs)
  <> Ret e w.
Proof.
  intros He H. stops_at_U_colon H.
Qed.

Lemma NewStore_stops_at_U_colon_witness :
  NewStore "data" "forum"
    (disk_with (("T1|Hello" +:+ nl) +:+ "U:01020304|1" +:+ "T2|x" +:+ nl) ∅)
  <> Ret None blank_world.
Proof.
  apply (NewStore_stops_at_U_colon "data" "forum" ("T1|Hello" +:+ nl)
           ("01020304|1" +:+ "T2|x" +:+ nl) ∅ None blank_world).
  reflexivity.
Defined.

(** After one [BlockIp] or [UnblockIp] on a data file of complete lines the
    store cannot be opened again, whatever calls follow: the record begins
    with [U:] and every later write only appends. *)
Theorem no_reopen_after_BlockIp (w : World) (ipAddr : string)
    (w1 : World) (cs : list Call) (es : list (option error)) (w2 : World) :
  ended (logData w) = true ->
  BlockIp None ipAddr w = Ret tt w1 \/ UnblockIp None ipAddr w = Ret tt w1 ->
  calls cs w1 = Ret es w2 ->
  forall e w3, reopen w2 <> Ret e w3.
Proof.
  intros He Hb Hcs e w3. apply calls_log_ext in Hcs as [t Ht].
  assert (exists flag, logData w1
            = logData w +:+ "U:" +:+ ipAddrToInternal ipAddr +:+ flag)
    as [flag Hl].
  { destruct Hb as [H|H]; injection H as <-; eexists; reflexivity. }
  unfold reopen. rewrite Ht, Hl.
  rewrite !str_app_assoc.
  change ("U:" +:+ ipAddrToInternal ipAddr +:+ flag +:+ t)
    with ("U:" +:+ (ipAddrToInternal ipAddr +:+ flag +:+ t)).
  intros H. stops_at_U_colon H.
Qed.

Lemma no_reopen_after_BlockIp_witness :
  reopen (world_after [Call_BlockIp None "1.2.3.4";
                       Call_CreateNewPost (clock 100) "Hello" "hi there"
                         "alice" "127.0.0.1"])
  <> Ret None blank_world.
Proof.
  apply (no_reopen_after_BlockIp (world_after []) "1.2.3.4"
           (world_after [Call_BlockIp None "1.2.3.4"])
           [Call_CreateNewPost (clock 100) "Hello" "hi there" "alice"
              "127.0.0.1"] [None]).
  - vm_compute. reflexivity.
  - left. vm_compute. reflexivity.
  - vm_compute. reflexivity.
Defined.

(** ** A new post and a new topic in the store *)

Lemma room_len (mem : list (list Post)) (s : Slice) :
  hdr_ok mem s -> room s -> Z.of_nat (s_len s) < maxInt.
Proof.
  intros (Hlen & Hcap & _) [Hlt|Hg]; [lia|].
  pose proof (growslice_cap_gt (s_cap s)). lia.
Qed.

(** [AddPostToTopic] on a topic that is found, when both writes succeed and
    the slice of its posts can grow: the call returns nil; the new post is
    the newest entry of the global sequence, as [GetRecentPosts(1)] returns
    it; it has the next id of its topic, the cleaned user name, the encoded
    address, the digest of the message, and is not deleted; the topic has
    one post more and is otherwise as it was; and the blob file named by
    the digest holds the message. *)
Theorem AddPostToTopic_stores_the_post (w : World) (io : IO) (topicId : Z)
    (msg user ipAddr : string) (tp : TopicPtr) (t : Topic) :
  WF w -> io_blob io = None -> io_log io = None ->
  topicByIdUnlocked topicId w = Ret (Some tp) w ->
  load (topicArrs w) tp = Some t -> room (Posts t) ->
  exists w' pp,
    AddPostToTopic io topicId msg user ipAddr w = Ret None w'
    /\ GetRecentPosts 1 w' = Ret [pp] w'
    /\ load (postArrs w') pp
       = Some {| Post_Id := Z.of_nat (s_len (Posts t)) + 1;
                 CreatedOn := io_now io;
                 MessageSha1 := copy20 (Sha1OfBytes msg);
                 UserNameInternal := remSep user;
                 IpAddrInternal := remSep (ipAddrToInternal ipAddr);
                 IsDeleted := false; Post_Topic := Some tp |}
    /\ (exists t',
          load (topicArrs w') tp = Some t'
          /\ Topic_Id t' = Topic_Id t /\ Subject t' = Subject t
          /\ s_len (Posts t') = S (s_len (Posts t))
          /\ pp = (s_arr (Posts t'), s_len (Posts t)))
    /\ blobFiles w'
       !! blobPath (dataDir (store w'))
            (hex_EncodeToString (copy20 (Sha1OfBytes msg)))
       = Some msg.
Proof.
  intros [Hh Hok] Eb El Htp Hl Hr.
  destruct (Hok tp t Hl) as [Hhp _].
  pose proof (room_len _ _ Hhp Hr) as Hlt.
  destruct (append_cells_total zeroPost (postArrs w) (Posts t)
              (new_post io msg user ipAddr tp t) Hhp Hr)
    as (pm & s' & Ea & Hlen & Hle & Hx & Hkeep).
  set (t' := set_Posts s' t).
  assert (load (poke (topicArrs w) tp t') tp = Some t') as Hl'
    by (apply load_poke_eq; eauto).
  assert (0 <= Z.of_nat (s_len s') - 1 < Z.of_nat (s_len s')) as Hin by lia.
  assert (new_post io msg user ipAddr tp t
          = {| Post_Id := Z.of_nat (s_len (Posts t)) + 1;
               CreatedOn := io_now io;
               MessageSha1 := copy20 (Sha1OfBytes msg);
               UserNameInternal := remSep user;
               IpAddrInternal := remSep (ipAddrToInternal ipAddr);
               IsDeleted := false; Post_Topic := Some tp |}) as Hp.
  { unfold new_post. f_equal. apply wrap64_small.
    unfold minInt, maxInt in *. lia. }
  unfold AddPostToTopic. unfold bind at 1. rewrite Htp.
  unfold addNewPost. rewrite Eb, El.
  unfold bind at 1, load_topic at 1. rewrite Hl. cbn [must ret].
  unfold writeMessageAsSha1, MessageFilePath, WriteBytesToFile, appendString.
  unfold bind, get, modify. wsimpl.
  unfold append_to_topic, store_topic, bind, modify, load_topic, append_Post.
  wsimpl. rewrite Hl. wsimpl. unfold new_post in Ea. rewrite Ea. wsimpl.
  fold t'. unfold addr_last_post, bind, load_topic. wsimpl. rewrite Hl'.
  wsimpl. rewrite addr_of_in by done. unfold push_recent, modify. wsimpl.
  eexists _, _. split; [reflexivity|].
  split.
  { unfold GetRecentPosts, bind, get. wsimpl.
    unfold len. rewrite length_app. cbn [length].
    destruct (Z.ltb_spec (Z.of_nat (length (posts (store w)) + 1)) 1);
      [lia|].
    change (1 <? 0) with false. cbv iota.
    rewrite rev_app_distr. reflexivity. }
  split.
  { wsimpl. unfold t'. wsimpl. rewrite Hlen.
    replace (Z.to_nat (Z.of_nat (S (s_len (Posts t))) - 1))
      with (s_len (Posts t)) by lia.
    rewrite Hx. by rewrite <- Hp. }
  split.
  { exists t'. wsimpl. split; [done|]. unfold t'. wsimpl.
    split; [done|]. split; [done|]. split; [done|].
    f_equal. lia. }
  wsimpl. apply lookup_insert_eq.
Qed.

Lemma AddPostToTopic_stores_the_post_witness :
  exists w' pp,
    AddPostToTopic (clock 300) 1 "third" "carol" "10.0.0.7"
      (world_after sample_calls) = Ret None w'
    /\ GetRecentPosts 1 w' = Ret [pp] w'.
Proof.
  destruct (AddPostToTopic_stores_the_post (world_after sample_calls)
              (clock 300) 1 "third" "carol" "10.0.0.7" (1%nat, 0%nat)
              {| Topic_Id := 1; Subject := "Hello";
                 Posts := {| s_arr := 1; s_len := 2; s_cap := 2 |} |})
    as (w' & pp & E & G & _).
  - apply reachable_WF, reachable_new_reachable, world_after_reachable.
  - reflexivity.
  - reflexivity.
  - vm_compute. reflexivity.
  - vm_compute. reflexivity.
  - right. vm_compute. discriminate.
  - eauto.
Defined.

(** [addNewPost] for a new topic that has no post yet, when both writes
    succeed and the slice of topics can grow. *)
Lemma addNewPost_new_topic (io : IO) (msg user ipAddr : string)
    (box : TopicPtr) (w : World) (t : Topic) :
  io_blob io = None -> io_log io = None ->
  load (topicArrs w) box = Some t -> Posts t = empty_slice ->
  hdr_ok (topicArrs w) (topics (store w)) -> room (topics (store w)) ->
  exists w' s',
    addNewPost io msg user ipAddr box true w = Ret None w'
    /\ s_len (topics (store w')) = S (s_len (topics (store w)))
    /\ load (topicArrs w')
         (s_arr (topics (store w')), s_len (topics (store w)))
       = Some (set_Posts s' t)
    /\ s_len s' = 1%nat
    /\ load (topicArrs w') box = Some (set_Posts s' t).
Proof.
  intros Eb El Hl Hempty Hht Hrt.
  assert (hdr_ok (postArrs w) (Posts t)) as Hh
    by (rewrite Hempty; apply hdr_ok_empty).
  assert (room (Posts t)) as Hr by (rewrite Hempty; apply room_empty_slice).
  destruct (append_cells_total zeroPost (postArrs w) (Posts t)
              (new_post io msg user ipAddr box t) Hh Hr)
    as (pm & s' & Ea & Hlen & Hle & Hx & Hkeep).
  set (t' := set_Posts s' t).
  assert (load (poke (topicArrs w) box t') box = Some t') as Hl'
    by (apply load_poke_eq; eauto).
  assert (0 <= Z.of_nat (s_len s') - 1 < Z.of_nat (s_len s')) as Hin by lia.
  destruct (append_cells_total zeroTopic (poke (topicArrs w) box t')
              (topics (store w)) t') as (tm & s2 & E2 & Hlen2 & _ & Hx2 & Hk2);
    [eapply hdr_ok_le; [apply mem_le_poke|done]|done|].
  assert (load tm box = Some t') as Hl2.
  { destruct (Hk2 _ _ Hl') as [?| ->]; done. }
  unfold addNewPost. rewrite Eb, El.
  unfold bind at 1, load_topic at 1. rewrite Hl. cbn [must ret].
  unfold writeMessageAsSha1, MessageFilePath, WriteBytesToFile, appendString.
  unfold bind, get, modify. wsimpl.
  unfold append_to_topic, store_topic, bind, modify, load_topic, append_Post.
  wsimpl. rewrite Hl. wsimpl. unfold new_post in Ea. rewrite Ea. wsimpl.
  fold t'. rewrite Hl'. wsimpl. unfold append_Topic. wsimpl. rewrite E2.
  wsimpl.
  unfold addr_last_post, bind, load_topic. wsimpl. rewrite Hl2. wsimpl.
  rewrite addr_of_in by done. unfold push_recent, modify. wsimpl.
  eexists _, s'. split; [reflexivity|]. wsimpl.
  split; [done|]. split; [exact Hx2|].
  split; [by rewrite Hlen, Hempty|done].
Qed.

(** A new topic can be looked up: in a state reached from a store opened
    without a data file, when both writes succeed and the slice of topics
    can grow, [CreateNewPost] returns the number of topics plus one as the
    id, the store has one topic more, and [TopicById] of that id returns the
    address of a topic with this id, the cleaned subject and one post. *)
Theorem CreateNewPost_then_TopicById (w : World) (io : IO)
    (subject msg user ipAddr : string) :
  reachable_new w -> io_blob io = None -> io_log io = None ->
  room (topics (store w)) ->
  let N := Z.of_nat (s_len (topics (store w))) in
  exists w' tp t',
    CreateNewPost io subject msg user ipAddr w = Ret (N + 1, None) w'
    /\ TopicsCount w' = Ret (N + 1) w'
    /\ TopicById (N + 1) w' = Ret (Some tp) w'
    /\ load (topicArrs w') tp = Some t'
    /\ Topic_Id t' = N + 1 /\ Subject t' = remSep subject
    /\ s_len (Posts t') = 1%nat.
Proof.
  intros Hr Eb El Hroom N.
  pose proof (reachable_WF _ (reachable_new_reachable _ Hr)) as HWF.
  pose proof (reachable_new_ids _ Hr) as Hids.
  destruct (CreateNewPost_prelude io subject msg user ipAddr w HWF)
    as (ids & w1 & Hids' & U1 & M1 & L1 & B1 & T1 & Hbox & E).
  rewrite Hids in Hids'. injection Hids' as <-.
  destruct HWF as [Hh Hok]. destruct U1 as (S1 & P1 & K1).
  assert (Z.of_nat (S (s_len (topics (store w)))) <= maxInt) as Hmax.
  { destruct Hh as (Hlen & Hcap & _). destruct Hroom as [?|Hg]; [lia|].
    pose proof (growslice_cap_gt (s_cap (topics (store w)))). lia. }
  rewrite next_topic_id_seqZ in Hbox by done.
  destruct (addNewPost_new_topic io msg user ipAddr
              (length (topicArrs w), 0%nat) w1 _ Eb El Hbox eq_refl)
    as (w' & s' & Ea & Hlen & Hcell & Hs' & Hbox').
  { rewrite S1. by eapply hdr_ok_le. }
  { by rewrite S1. }
  assert (CreateNewPost io subject msg user ipAddr w = Ret (N + 1, None) w')
    as Ec.
  { rewrite E. unfold bind at 1. rewrite Ea. unfold bind, load_topic.
    rewrite Hbox'. cbn [must ret]. unfold ret. f_equal. f_equal.
    cbn. unfold N. lia. }
  assert (reachable_new w') as Hr'.
  { apply (reachable_new_call w
             (Call_CreateNewPost io subject msg user ipAddr) None w');
      [done|].
    cbn [call]. unfold bind. by rewrite Ec. }
  rewrite S1 in Hlen, Hcell.
  eexists w', (s_arr (topics (store w')), s_len (topics (store w))), _.
  split; [done|]. split.
  { unfold TopicsCount, bind, get, ret. rewrite Hlen. f_equal. unfold N.
    lia. }
  split.
  { rewrite (TopicById_seqZ w' (N + 1) _ (reachable_new_ids w' Hr')).
    rewrite Hlen.
    destruct (Z.leb_spec 1 (N + 1)); [|unfold N in *; lia].
    destruct (Z.leb_spec (N + 1) (Z.of_nat (S (s_len (topics (store w))))));
      [|unfold N in *; lia].
    cbn [andb]. do 3 f_equal. unfold N. lia. }
  split; [exact Hcell|].
  cbn. split; [unfold N; lia|]. split; [done|done].
Qed.

Lemma CreateNewPost_then_TopicById_witness :
  exists w' tp t',
    CreateNewPost (clock 300) "a |new| topic" "text" "dave" "10.0.0.8"
      (world_after three_topics)
    = Ret (Z.of_nat (s_len (topics (store (world_after three_topics)))) + 1,
           None) w'
    /\ TopicById
         (Z.of_nat (s_len (topics (store (world_after three_topics)))) + 1)
         w' = Ret (Some tp) w'
    /\ load (topicArrs w') tp = Some t'
    /\ Subject t' = "a new topic".
Proof.
  destruct (CreateNewPost_then_TopicById (world_after three_topics)
              (clock 300) "a |new| topic" "text" "dave" "10.0.0.8")
    as (w' & tp & t' & E & _ & F & L & _ & S & _).
  - apply world_after_reachable.
  - reflexivity.
  - reflexivity.
  - left. vm_compute. lia.
  - exists w', tp, t'. split; [exact E|]. split; [exact F|].
    split; [exact L|]. rewrite S. reflexivity.
Defined.

(** ** What a stored post shows *)

Lemma hexdigit_no_sep (n : Z) :
  0 <= n < 16 -> Ascii.eqb (hexdigit n) "|" = false.
Proof.
  intros Hn.
  assert (forallb (fun k => negb (Ascii.eqb (hexdigit k) "|")) (seqZ 0 16)
          = true) as A by (vm_compute; reflexivity).
  rewrite forallb_forall in A. apply negb_true_iff. apply A.
  apply list_elem_of_In, elem_of_seqZ. lia.
Qed.

Lemma hex_no_sep (bs : string) :
  has_byte "|" (hex_EncodeToString bs) = false.
Proof.
  induction bs as [|b bs IH]; [done|].
  pose proof (byte_val_range b).
  cbn [hex_EncodeToString has_byte].
  rewrite !hexdigit_no_sep by (Z.div_mod_to_equations; lia).
  by rewrite IH.
Qed.

(** What the methods of a post show of what [addNewPost] stored: for an
    address of four numbers in 0..255 in decimal, [IpAddress] gives the
    address back; and for the internal name of a Twitter login,
    [IsTwitterUser] holds and [UserName] gives the login name, cleaned of
    separators (the login kjk is shown under the author's full name). *)
Theorem stored_post_shows_address_and_name (io : IO) (msg u : string)
    (a b c d : Z) (tp : TopicPtr) (t : Topic) :
  0 <= a <= 255 -> 0 <= b <= 255 -> 0 <= c <= 255 -> 0 <= d <= 255 ->
  let p := new_post io msg (MakeInternalUserName u true) (dotted a b c d)
             tp t in
  IpAddress p = Some (dotted a b c d)
  /\ IsTwitterUser p = true
  /\ UserName p
     = if String.eqb (remSep u) "kjk" then "Krzysztof Kowalczyk"
       else remSep u.
Proof.
  intros Ha Hb Hc Hd p.
  assert (IpAddrInternal p = ipAddrToInternal (dotted a b c d)) as Hip.
  { unfold p, new_post. cbn [IpAddrInternal]. apply remSep_id.
    rewrite ipAddrToInternal_dotted by done. apply hex_no_sep. }
  assert (UserNameInternal p = "t:" +:+ remSep u) as Hu by reflexivity.
  split.
  { unfold IpAddress. rewrite Hip. by apply ip_round_trip. }
  unfold UserName, IsTwitterUser. rewrite Hu, HasPrefix_t.
  split; [done|].
  change (String.eqb ("t:" +:+ remSep u) "t:kjk")
    with (String.eqb (remSep u) "kjk").
  destruct (String.eqb (remSep u) "kjk"); reflexivity.
Qed.

Lemma stored_post_shows_address_and_name_witness :
  IpAddress (new_post (clock 100) "hi" (MakeInternalUserName "b|ob" true)
               (dotted 192 168 0 1) (0%nat, 0%nat) zeroTopic)
  = Some "192.168.0.1"
  /\ UserName (new_post (clock 100) "hi"
                 (MakeInternalUserName "b|ob" true) (dotted 192 168 0 1)
                 (0%nat, 0%nat) zeroTopic)
     = "bob".
Proof.
  destruct (stored_post_shows_address_and_name (clock 100) "hi" "b|ob"
              192 168 0 1 (0%nat, 0%nat) zeroTopic)
    as (A & _ & B); [lia..|].
  split; [exact A|exact B].
Defined.
